(** * ViewEvent: face grouping, deletion, listing and upload progress

    A shallow embedding of the two variants of the [ViewEvent] component:

    - [StrategyA]: [src/components/ViewEvent.tsx], the two-phase variant
      (index every image, then search by face id);
    - [StrategyB]: the whole-image variant (search by image, then index
      with the resolved group id as external tag).

    Asynchronous code is embedded as follows.  A promise settles to an
    [outcome]; [await] of a rejected promise throws, [try]/[catch] is
    [try_catch].  The answers and the latencies of the remote services are
    an arbitrary environment.  A [Promise.all] over [xs.map(async ...)]
    issues every request in input order and runs the continuations, each
    one atomically, in completion order.

    The state of the component is a record [World]: the [useState] cells
    that the handlers write, and a log of what the handlers sent.  An
    image object carries its identity, since the rendering compares image
    objects and a refresh builds new ones.

    The file has three parts: the embedding ([StrategyA], [StrategyB]),
    concrete runs ([Examples]), and the properties, each claim under its
    identifier C1 to C10. *)

From Stdlib Require Import Ascii String ZArith Lia.
From stdpp Require Import base option list sorting strings gmap pretty.

Open Scope string_scope.
Open Scope list_scope.

(** ** JavaScript values *)

(** Truthiness of a string: the empty string is falsy. *)
Definition truthy (s : string) : bool := negb (String.eqb s "").

(** An optional string property is truthy when present and non-empty. *)
Definition truthy_opt (o : option string) : option string :=
  match o with
  | Some s => if truthy s then Some s else None
  | None => None
  end.

(** [xs.filter(x => !!x)] on optional strings. *)
Definition filter_truthy (l : list (option string)) : list string :=
  omap truthy_opt l.

(** The thrown value: only its [message] is ever read. *)
Record JsError := { message : string }.

(** How a promise settles, and how a block of code ends. *)
Inductive outcome (A : Type) : Type :=
| Fulfilled (a : A)
| Rejected (e : JsError).
Arguments Fulfilled {A} a.
Arguments Rejected {A} e.

(** ** Code that mutates a state [S] and may throw

    State written before a [throw] stays written, as in JavaScript. *)
Definition js (S A : Type) : Type := S -> outcome A * S.

#[global] Instance js_ret {S} : MRet (js S) :=
  fun A a s => (Fulfilled a, s).

#[global] Instance js_bind {S} : MBind (js S) :=
  fun A B k c s =>
    match c s with
    | (Fulfilled a, s') => k a s'
    | (Rejected e, s') => (Rejected e, s')
    end.

Definition throw {S A} (e : JsError) : js S A := fun s => (Rejected e, s).

(** [await p] for a promise that settles to [o]. *)
Definition await {S A} (o : outcome A) : js S A := fun s => (o, s).

(** A state update, such as a React [setX(prev => f prev)]. *)
Definition modify {S} (f : S -> S) : js S unit := fun s => (Fulfilled tt, f s).

(** [try { c } catch (e) { h e }] *)
Definition try_catch {S A} (c : js S A) (h : JsError -> js S A) : js S A :=
  fun s =>
    match c s with
    | (Fulfilled a, s') => (Fulfilled a, s')
    | (Rejected e, s') => h e s'
    end.

(** [try { c } finally { f }]: [f] runs on both paths; the way [c] ended
    is kept unless [f] itself throws. *)
Definition try_finally {S A} (c : js S A) (f : js S unit) : js S A :=
  fun s =>
    match c s with
    | (o, s') =>
        match f s' with
        | (Fulfilled _, s'') => (o, s'')
        | (Rejected e, s'') => (Rejected e, s'')
        end
    end.

(** A [Promise.all] over callbacks that share the mutable value [acc]:
    the continuations run one after the other, each atomically, in
    completion order; the first one that throws rejects the whole. *)
Fixpoint promise_all_fold {S Acc X} (k : Acc -> X -> js S Acc) (acc : Acc)
    (done : list X) : js S Acc :=
  match done with
  | [] => mret acc
  | x :: rest => acc' ← k acc x; promise_all_fold k acc' rest
  end.

(** A [for ... of] loop whose body awaits: the iterations run one after
    the other in list order. *)
Definition for_of {S Acc X} (l : list X) (acc : Acc) (body : Acc -> X -> js S Acc)
  : js S Acc :=
  promise_all_fold body acc l.

(** [await Promise.all(ps)] where only the way the promises settle
    matters: when all are fulfilled the whole is, otherwise the rejection
    of one of the rejected promises is thrown.  [Promise.all] throws the
    one that is rejected first in time; here it is the one of lowest
    position, and nothing below depends on which of them it is. *)
Fixpoint await_all {S} (ps : list (outcome unit)) : js S unit :=
  match ps with
  | [] => mret tt
  | p :: rest => await p;; await_all rest
  end.

(** A [Promise.all] over [xs.map(async ...)] whose callbacks share no
    state: the results are in input order, and a callback that throws
    rejects the whole.  The callbacks are run one member after the other;
    the real ones interleave at their [await]s, which changes neither
    their results nor which commands are sent, only the order in which
    the commands of different callbacks leave: of that order nothing is
    stated below beyond a permutation. *)
Fixpoint promise_all_map {S X A} (task : X -> js S A) (l : list X) : js S (list A) :=
  match l with
  | [] => mret []
  | x :: rest => a ← task x; r ← promise_all_map task rest; mret (a :: r)
  end.

(** Completion order of a batch of [n] requests: the positions sorted by
    the time at which their answer arrives, ties in issue order.  Every
    order of completion is that of some latencies. *)
Definition by_latency (latency : nat -> nat) (i j : nat) : Prop :=
  latency i < latency j \/ (latency i = latency j /\ i <= j).

#[global] Instance by_latency_dec latency i j : Decision (by_latency latency i j).
Proof. unfold by_latency. apply _. Defined.

Definition completion_order (latency : nat -> nat) (n : nat) : list nat :=
  merge_sort (by_latency latency) (seq 0 n).

(** The members of a batch, each with its position, in completion order. *)
Definition completed {A} (latency : nat -> nat) (l : list A) : list (nat * A) :=
  omap (fun i => (fun x => (i, x)) <$> l !! i) (completion_order latency (length l)).

(** ** Data shared by both variants *)

(** [interface EventImage { url; key }].  [oid] is the identity of the
    JavaScript object: [Array.prototype.includes] compares objects by
    identity, while [===] on the [key] strings compares contents. *)
Record EventImage := { oid : nat; url : string; key : string }.

(** [arr.includes(image)] on an array of objects. *)
Definition includes (arr : list EventImage) (image : EventImage) : bool :=
  existsb (fun x => Nat.eqb (oid x) (oid image)) arr.

(** The part of a Rekognition [Face] that the code reads. *)
Record Face := { FaceId : option string; ExternalImageId : option string }.

(** An element of [IndexFacesResponse.FaceRecords]: [rec.Face]. *)
Record FaceRecord := { rec_Face : option Face }.

(** An element of [FaceMatches]: [m.Face]. *)
Record FaceMatch := { match_Face : option Face }.

Record IndexFacesResponse := { FaceRecords : option (list FaceRecord) }.

(** The response of [SearchFaces] and of [SearchFacesByImage]. *)
Record SearchFacesResponse := { FaceMatches : option (list FaceMatch) }.

Record ListCollectionsResponse := { CollectionIds : option (list string) }.

(** An element of [ListObjectsV2Output.Contents]: [item.Key]. *)
Record S3Object := { Key : option string }.

Record ListObjectsV2Output := { Contents : option (list S3Object) }.

(** The commands sent to the two clients, with the parameters the code
    sets. *)
Inductive Command : Type :=
| ListCollectionsCommand
| CreateCollectionCommand (CollectionId : string)
| IndexFacesCommand (CollectionId Bucket Name ExternalImageId : string)
| SearchFacesCommand (CollectionId FaceId : string) (MaxFaces FaceMatchThreshold : Z)
| SearchFacesByImageCommand (CollectionId Bucket Name : string)
    (FaceMatchThreshold MaxFaces : Z)
| ListObjectsV2Command (Bucket Prefix : string)
| DeleteObjectCommand (Bucket Key : string).

(** The property names that a plain object inherits from
    [Object.prototype].  Read on [{}], each of them gives a function, and
    [__proto__] gives the prototype object: a truthy value that has no
    [push] method. *)
Definition inheritedNames : list string :=
  ["constructor"; "__proto__"; "hasOwnProperty"; "isPrototypeOf";
   "propertyIsEnumerable"; "toLocaleString"; "toString"; "valueOf";
   "__defineGetter__"; "__defineSetter__"; "__lookupGetter__"; "__lookupSetter__"].

Definition inherited (name : string) : bool := bool_decide (name ∈ inheritedNames).

(** [if (!groups[gid]) groups[gid] = []; groups[gid].push(x)] on an object
    used as a map from group id to array, for a [gid] that is not an
    inherited name: then [groups[gid]] is [undefined] or the array stored
    before, and the object is embedded as a finite map.  Strategy A files
    its records under ids of the form [group_<n>] (or [undefined]);
    strategy B, whose ids are tags supplied by the service, tests the name
    before it uses this. *)
Definition push_group {A} (gid : string) (x : A) (groups : gmap string (list A))
  : gmap string (list A) :=
  let groups' := match groups !! gid with
                 | Some _ => groups
                 | None => <[gid := []]> groups
                 end in
  <[gid := default [] (groups' !! gid) ++ [x]]> groups'.

(** *** The image filter of the listing: [/\.(jpg|jpeg|png)$/i] *)

Definition lower_ascii (c : ascii) : ascii :=
  let n := nat_of_ascii c in
  if (65 <=? n)%nat && (n <=? 90)%nat then ascii_of_nat (n + 32) else c.

Fixpoint lower (s : string) : string :=
  match s with
  | EmptyString => EmptyString
  | String c rest => String (lower_ascii c) (lower rest)
  end.

(** [suffix] is the end of [s]. *)
Definition ends_with (suffix s : string) : bool :=
  let n := String.length s in
  let k := String.length suffix in
  (k <=? n)%nat && String.eqb (substring (n - k) k s) suffix.

(** [key.match(/\.(jpg|jpeg|png)$/i)] *)
Definition is_image_key (k : string) : bool :=
  let l := lower k in
  ends_with ".jpg" l || ends_with ".jpeg" l || ends_with ".png" l.

(** The keys kept by [.filter(item => item.Key && item.Key.match(...))]. *)
Definition imageKeys (contents : list S3Object) : list string :=
  omap (fun item =>
          k ← truthy_opt (Key item);
          if is_image_key k then Some k else None) contents.

(** The objects built by [.map(item => ({ url, key }))], allocated from
    the identity [first] on. *)
Definition imageItems (bucket : string) (first : nat) (keys : list string)
  : list EventImage :=
  imap (fun j k =>
          {| oid := first + j;
             url := "https://" +:+ bucket +:+ ".s3.amazonaws.com/" +:+ k;
             key := k |}) keys.

(** The image keys listed for the prefixes at the positions [positions],
    in order: a listing that fails contributes none. *)
Definition listedKeys (listObjects : nat -> outcome ListObjectsV2Output)
    (positions : list nat) : list string :=
  positions ≫= (fun i =>
    match listObjects i with
    | Fulfilled result => imageKeys (default [] (Contents result))
    | Rejected _ => []
    end).

(** The error of the last listing that failed, if any. *)
Definition lastListError (listObjects : nat -> outcome ListObjectsV2Output)
    (positions : list nat) : option JsError :=
  last (omap (fun i =>
                match listObjects i with
                | Fulfilled _ => None
                | Rejected e => Some e
                end) positions).

(** *** The upload progress of one [httpUploadProgress] event *)

Record Progress := { loaded : option Z; total : option Z }.

(** [x || d] on an optional number: [undefined] and [0] are falsy. *)
Definition or_default (x : option Z) (d : Z) : Z :=
  match x with
  | Some v => if Z.eqb v 0 then d else v
  | None => d
  end.

(** [Math.round(a / b)] for integers [a] and [b <> 0]: the nearest
    integer, halves rounded up.  Byte counts are far below the 2^53 of
    exact double arithmetic. *)
Definition round_div (a b : Z) : Z := (2 * a + b) / (2 * b).

(** [Math.round((progress.loaded || 0) * 100 / (progress.total || 1))] *)
Definition percentage (progress : Progress) : Z :=
  round_div (or_default (loaded progress) 0 * 100) (or_default (total progress) 1).

(** The progress events of the file at position [i] of a batch, in
    arrival order. *)
Definition eventsOf (i : nat) (events : list (nat * Progress)) : list Progress :=
  (filter (fun ev : nat * Progress => ev.1 = i) events).*2.

(** An event that reports both counts, with [0 <= loaded <= total]. *)
Definition reported (progress : Progress) : Prop :=
  exists l t, loaded progress = Some l /\ total progress = Some t /\
              (0 <= l <= t)%Z.

(** Two events of one upload: same total, and the loaded count of the
    second is not below that of the first. *)
Definition advances (p q : Progress) : Prop :=
  total p = total q /\
  exists l l', loaded p = Some l /\ loaded q = Some l' /\ (l <= l')%Z.

(** The answer that stands for a failed [IndexFaces]: no face found. *)
Definition no_faces (o : outcome IndexFacesResponse) : outcome IndexFacesResponse :=
  match o with
  | Fulfilled r => Fulfilled r
  | Rejected _ => Fulfilled {| FaceRecords := Some [] |}
  end.

(** The answer that stands for a failed search: no match. *)
Definition no_matches (o : outcome SearchFacesResponse) : outcome SearchFacesResponse :=
  match o with
  | Fulfilled r => Fulfilled r
  | Rejected _ => Fulfilled {| FaceMatches := Some [] |}
  end.

(** A chosen file: [file.name] and [file.type]. *)
Record File := { name : string; type : string }.

(** [new Upload({ params: { Bucket, Key, ContentType, ... } })] *)
Record Upload := {
  upload_Bucket : string;
  upload_Key : string;
  upload_ContentType : string
}.

(** * Strategy A: [src/components/ViewEvent.tsx] *)
Module StrategyA.

(** [interface FaceRecordWithImage].  The bounding box is carried along
    and never read; it is left out. *)
Record FaceRecordWithImage := { faceId : string; image : EventImage }.

(** The component's props, the missing [../config/aws] constant, and what
    the outside world answers during one run of a handler.  Answers and
    latencies are indexed by the position of the request in its batch. *)
Record Env := {
  S3_BUCKET_NAME : string;
  eventId : string;
  selectedEvent : option string;
  listCollections : outcome ListCollectionsResponse;
  createCollection : outcome unit;
  indexFaces : nat -> outcome IndexFacesResponse;
  indexLatency : nat -> nat;
  searchFaces : nat -> outcome SearchFacesResponse;
  searchLatency : nat -> nat;
  listObjects : nat -> outcome ListObjectsV2Output;
  deleteObject : outcome unit;
  now : nat -> Z;
  uploadEvents : list (nat * Progress);
  uploadDone : nat -> outcome unit
}.

(** The component's state ([useState]) together with three records of
    what it did: the commands sent so far, the uploads started, and every
    value passed to [setUploadProgress]; [next_oid] is the identity of
    the next object allocated. *)
Record World := {
  deleting : list string;
  images : list EventImage;
  loading : bool;
  error : option string;
  uploading : bool;
  uploadProgress : Z;
  faceGroups : gmap string (list FaceRecordWithImage);
  allFaceRecords : list FaceRecordWithImage;
  issued : list Command;
  uploads : list Upload;
  progressTrace : list Z;
  next_oid : nat
}.

Definition initial : World :=
  {| deleting := []; images := []; loading := true; error := None;
     uploading := false; uploadProgress := 0; faceGroups := ∅;
     allFaceRecords := []; issued := []; uploads := []; progressTrace := [];
     next_oid := 0 |}.

Definition with_deleting (f : list string -> list string) (w : World) : World :=
  {| deleting := f (deleting w); images := images w; loading := loading w;
     error := error w; uploading := uploading w;
     uploadProgress := uploadProgress w; faceGroups := faceGroups w;
     allFaceRecords := allFaceRecords w; issued := issued w;
     uploads := uploads w; progressTrace := progressTrace w;
     next_oid := next_oid w |}.

Definition setDeleting (f : list string -> list string) : js World unit :=
  modify (with_deleting f).

Definition with_images (f : list EventImage -> list EventImage) (w : World) : World :=
  {| deleting := deleting w; images := f (images w); loading := loading w;
     error := error w; uploading := uploading w;
     uploadProgress := uploadProgress w; faceGroups := faceGroups w;
     allFaceRecords := allFaceRecords w; issued := issued w;
     uploads := uploads w; progressTrace := progressTrace w;
     next_oid := next_oid w |}.

Definition setImages (f : list EventImage -> list EventImage) : js World unit :=
  modify (with_images f).

Definition with_loading (b : bool) (w : World) : World :=
  {| deleting := deleting w; images := images w; loading := b;
     error := error w; uploading := uploading w;
     uploadProgress := uploadProgress w; faceGroups := faceGroups w;
     allFaceRecords := allFaceRecords w; issued := issued w;
     uploads := uploads w; progressTrace := progressTrace w;
     next_oid := next_oid w |}.

Definition setLoading (b : bool) : js World unit :=
  modify (with_loading b).

Definition with_error (e : option string) (w : World) : World :=
  {| deleting := deleting w; images := images w; loading := loading w;
     error := e; uploading := uploading w;
     uploadProgress := uploadProgress w; faceGroups := faceGroups w;
     allFaceRecords := allFaceRecords w; issued := issued w;
     uploads := uploads w; progressTrace := progressTrace w;
     next_oid := next_oid w |}.

Definition setError (e : option string) : js World unit :=
  modify (with_error e).

Definition with_uploading (b : bool) (w : World) : World :=
  {| deleting := deleting w; images := images w; loading := loading w;
     error := error w; uploading := b;
     uploadProgress := uploadProgress w; faceGroups := faceGroups w;
     allFaceRecords := allFaceRecords w; issued := issued w;
     uploads := uploads w; progressTrace := progressTrace w;
     next_oid := next_oid w |}.

Definition setUploading (b : bool) : js World unit :=
  modify (with_uploading b).

Definition with_uploadProgress (p : Z) (w : World) : World :=
  {| deleting := deleting w; images := images w; loading := loading w;
     error := error w; uploading := uploading w;
     uploadProgress := p; faceGroups := faceGroups w;
     allFaceRecords := allFaceRecords w; issued := issued w;
     uploads := uploads w; progressTrace := progressTrace w ++ [p];
     next_oid := next_oid w |}.

Definition setUploadProgress (p : Z) : js World unit :=
  modify (with_uploadProgress p).

Definition with_faceGroups
    (f : gmap string (list FaceRecordWithImage) -> gmap string (list FaceRecordWithImage))
    (w : World) : World :=
  {| deleting := deleting w; images := images w; loading := loading w;
     error := error w; uploading := uploading w;
     uploadProgress := uploadProgress w; faceGroups := f (faceGroups w);
     allFaceRecords := allFaceRecords w; issued := issued w;
     uploads := uploads w; progressTrace := progressTrace w;
     next_oid := next_oid w |}.

Definition setFaceGroups
    (f : gmap string (list FaceRecordWithImage) -> gmap string (list FaceRecordWithImage))
  : js World unit :=
  modify (with_faceGroups f).

Definition with_allFaceRecords
    (f : list FaceRecordWithImage -> list FaceRecordWithImage) (w : World) : World :=
  {| deleting := deleting w; images := images w; loading := loading w;
     error := error w; uploading := uploading w;
     uploadProgress := uploadProgress w; faceGroups := faceGroups w;
     allFaceRecords := f (allFaceRecords w); issued := issued w;
     uploads := uploads w; progressTrace := progressTrace w;
     next_oid := next_oid w |}.

Definition setAllFaceRecords
    (f : list FaceRecordWithImage -> list FaceRecordWithImage) : js World unit :=
  modify (with_allFaceRecords f).

Definition with_issued (cmds : list Command) (w : World) : World :=
  {| deleting := deleting w; images := images w; loading := loading w;
     error := error w; uploading := uploading w;
     uploadProgress := uploadProgress w; faceGroups := faceGroups w;
     allFaceRecords := allFaceRecords w; issued := issued w ++ cmds;
     uploads := uploads w; progressTrace := progressTrace w;
     next_oid := next_oid w |}.

(** [client.send(cmd)] up to its [await]: the command leaves. *)
Definition send (cmds : list Command) : js World unit :=
  modify (with_issued cmds).

Definition with_uploads (us : list Upload) (w : World) : World :=
  {| deleting := deleting w; images := images w; loading := loading w;
     error := error w; uploading := uploading w;
     uploadProgress := uploadProgress w; faceGroups := faceGroups w;
     allFaceRecords := allFaceRecords w; issued := issued w;
     uploads := uploads w ++ us; progressTrace := progressTrace w;
     next_oid := next_oid w |}.

(** [new Upload(...)] ... [upload.done()]: the uploads start. *)
Definition start_uploads (us : list Upload) : js World unit :=
  modify (with_uploads us).

(** Allocation of [n] objects: the first identity is returned. *)
Definition alloc (n : nat) : js World nat :=
  fun w =>
    (Fulfilled (next_oid w),
     {| deleting := deleting w; images := images w; loading := loading w;
        error := error w; uploading := uploading w;
        uploadProgress := uploadProgress w; faceGroups := faceGroups w;
        allFaceRecords := allFaceRecords w; issued := issued w;
        uploads := uploads w; progressTrace := progressTrace w;
        next_oid := next_oid w + n |}).

(** [ensureCollection]: every failure is logged and swallowed. *)
Definition ensureCollection (env : Env) (collectionId : string) : js World unit :=
  try_catch
    (send [ListCollectionsCommand];;
     listResponse ← await (listCollections env);
     let collections := default [] (CollectionIds listResponse) in
     if bool_decide (collectionId ∈ collections) then mret tt
     else send [CreateCollectionCommand collectionId];;
          await (createCollection env))
    (fun _ => mret tt).

(** The groups after the records of the image [k] are filtered out and
    the groups left empty are deleted. *)
Definition removeFromGroups (k : string)
    (prev : gmap string (list FaceRecordWithImage))
  : gmap string (list FaceRecordWithImage) :=
  let newGroups := filter (fun fr => key (image fr) ≠ k) <$> prev in
  filter (fun entry : string * list FaceRecordWithImage => length entry.2 ≠ 0)
    newGroups.

(** [handleDelete] up to its [await]. *)
Definition handleDelete_request (env : Env) (image : EventImage) : js World unit :=
  setDeleting (fun prev => prev ++ [key image]);;
  send [DeleteObjectCommand (S3_BUCKET_NAME env) (key image)].

(** [handleDelete] after its [await], inside the [try]. *)
Definition handleDelete_removal (image : EventImage) (answer : outcome unit)
  : js World unit :=
  await answer;;
  setImages (fun prev => filter (fun img => key img ≠ key image) prev);;
  setFaceGroups (removeFromGroups (key image));;
  setAllFaceRecords
    (fun prev => filter (fun fr => key (StrategyA.image fr) ≠ key image) prev).

Definition handleDelete_finally (image : EventImage) : js World unit :=
  setDeleting (fun prev => filter (fun k => k ≠ key image) prev).

(** [handleDelete], when nothing else runs while the delete is awaited. *)
Definition handleDelete (env : Env) (image : EventImage) : js World unit :=
  try_finally
    (try_catch
       (handleDelete_request env image;;
        handleDelete_removal image (deleteObject env))
       (fun _ => mret tt))
    (handleDelete_finally image).

(** [handleDelete] from the moment the storage call settles to [answer],
    in whatever world the component is by then. *)
Definition handleDelete_settled (image : EventImage) (answer : outcome unit)
  : js World unit :=
  try_finally
    (try_catch (handleDelete_removal image answer) (fun _ => mret tt))
    (handleDelete_finally image).

(** *** [detectAndGroupFaces] *)

Definition indexCommand (env : Env) (collectionId : string) (image : EventImage)
  : Command :=
  IndexFacesCommand collectionId (S3_BUCKET_NAME env) (key image) "placeholder".

(** The face records of one index response, tagged with their image. *)
Definition recordsOf (image : EventImage) (indexResponse : IndexFacesResponse)
  : list FaceRecordWithImage :=
  match FaceRecords indexResponse with
  | Some recs =>
      omap (fun rec =>
              id ← truthy_opt (rec_Face rec ≫= FaceId);
              Some {| faceId := id; image := image |}) recs
  | None => []
  end.

(** Phase 1, the callback of one image from the answer of its request. *)
Definition indexTask (env : Env) (tempFaceRecords : list FaceRecordWithImage)
    (item : nat * EventImage) : js World (list FaceRecordWithImage) :=
  try_catch
    (indexResponse ← await (indexFaces env item.1);
     mret (tempFaceRecords ++ recordsOf item.2 indexResponse))
    (fun _ => mret tempFaceRecords).

Definition searchCommand (collectionId : string) (faceRec : FaceRecordWithImage)
  : Command :=
  SearchFacesCommand collectionId (faceId faceRec) 5 80.

(** The group ids already assigned to the matched faces, in the order of
    the matches. *)
Definition matchedGroupIds (faceIdToGroupId : gmap string string)
    (matches : list FaceMatch) : list string :=
  filter_truthy
    ((fun id => faceIdToGroupId !! id) <$>
       filter_truthy ((fun m => match_Face m ≫= FaceId) <$> matches)).

(** [groupCount += 1; faceIdToGroupId[faceRec.faceId] = `group_${groupCount}`] *)
Definition newGroup (st : gmap string string * nat) (faceRec : FaceRecordWithImage)
  : gmap string string * nat :=
  let groupCount := S st.2 in
  (<[faceId faceRec := "group_" +:+ pretty groupCount]> st.1, groupCount).

(** What the callback of one face does with the answer of its search. *)
Definition resolve (st : gmap string string * nat) (faceRec : FaceRecordWithImage)
    (searchResponse : SearchFacesResponse) : gmap string string * nat :=
  match FaceMatches searchResponse with
  | Some ((_ :: _) as matches) =>
      match matchedGroupIds st.1 matches with
      | gid :: _ => (<[faceId faceRec := gid]> st.1, st.2)
      | [] => newGroup st faceRec
      end
  | _ => newGroup st faceRec
  end.

(** Phase 2, the callback of one face; the state is the pair of
    [faceIdToGroupId] and [groupCount]. *)
Definition searchTask (env : Env) (st : gmap string string * nat)
    (item : nat * FaceRecordWithImage) : js World (gmap string string * nat) :=
  try_catch
    (searchResponse ← await (searchFaces env item.1);
     mret (resolve st item.2 searchResponse))
    (fun _ => mret (newGroup st item.2)).

(** [faceIdToGroupId[faceRec.faceId]], used as a property name. *)
Definition gidOf (faceIdToGroupId : gmap string string) (faceRec : FaceRecordWithImage)
  : string :=
  default "undefined" (faceIdToGroupId !! faceId faceRec).

(** The final loop over [tempFaceRecords]. *)
Definition buildGroups (tempFaceRecords : list FaceRecordWithImage)
    (faceIdToGroupId : gmap string string) : gmap string (list FaceRecordWithImage) :=
  fold_left (fun newGroups faceRec =>
               push_group (gidOf faceIdToGroupId faceRec) faceRec newGroups)
    tempFaceRecords ∅.

(** Phase 1 alone. *)
Definition phase1 (env : Env) (collectionId : string) (imagesToProcess : list EventImage)
  : js World (list FaceRecordWithImage) :=
  send (indexCommand env collectionId <$> imagesToProcess);;
  promise_all_fold (indexTask env) []
    (completed (indexLatency env) imagesToProcess).

(** Phase 2 alone. *)
Definition phase2 (env : Env) (collectionId : string)
    (tempFaceRecords : list FaceRecordWithImage)
  : js World (gmap string string * nat) :=
  send (searchCommand collectionId <$> tempFaceRecords);;
  promise_all_fold (searchTask env) (∅, 0)
    (completed (searchLatency env) tempFaceRecords).

Definition detectAndGroupFaces (env : Env) (imagesToProcess : list EventImage)
  : js World unit :=
  let collectionId := eventId env in
  ensureCollection env collectionId;;
  tempFaceRecords ← phase1 env collectionId imagesToProcess;
  setAllFaceRecords (fun _ => tempFaceRecords);;
  st ← phase2 env collectionId tempFaceRecords;
  setFaceGroups (fun _ => buildGroups tempFaceRecords st.1).

(** *** [fetchEventImages] *)

(** One iteration of the loop over the prefixes; the loop state is the
    pair of [allImages] and [fetchError]. *)
Definition listPrefix (env : Env) (st : list EventImage * option JsError)
    (item : nat * string) : js World (list EventImage * option JsError) :=
  try_catch
    (send [ListObjectsV2Command (S3_BUCKET_NAME env) item.2];;
     result ← await (listObjects env item.1);
     match Contents result with
     | Some contents =>
         let keys := imageKeys contents in
         first ← alloc (length keys);
         mret (st.1 ++ imageItems (S3_BUCKET_NAME env) first keys, st.2)
     | None => mret st
     end)
    (fun error => mret (st.1, Some error)).

(** The loop over the prefixes. *)
Definition listPrefixes (env : Env) (prefixes : list string)
  : js World (list EventImage * option JsError) :=
  for_of (imap pair prefixes) ([], None) (listPrefix env).

(** The body of [fetchEventImages] for the array [prefixes]. *)
Definition fetchEventImagesFrom (env : Env) (prefixes : list string) : js World unit :=
  try_finally
    (try_catch
       (st ← listPrefixes env prefixes;
        let allImages := st.1 in
        let fetchError := st.2 in
        if (0 <? length allImages)%nat then
          setImages (fun _ => allImages);;
          detectAndGroupFaces env allImages;;
          setError None
        else
          match fetchError with
          | Some e => throw e
          | None => setError (Some "No images found for this event.")
          end)
       (fun error => setError (Some (message error))))
    (setLoading false).

Definition fetchEventImages (env : Env) : js World unit :=
  let eventToUse := default (eventId env) (truthy_opt (selectedEvent env)) in
  fetchEventImagesFrom env ["events/shared/" +:+ eventToUse +:+ "/images"].

(** *** [handleFileChange] *)

Definition newUpload (env : Env) (i : nat) (file : File) : Upload :=
  {| upload_Bucket := S3_BUCKET_NAME env;
     upload_Key := "events/shared/" +:+ eventId env +:+ "/images/"
                   +:+ pretty (now env i) +:+ "-" +:+ name file;
     upload_ContentType := type file |}.

(** The [httpUploadProgress] listener. *)
Definition onProgress (progress : Progress) : js World unit :=
  setUploadProgress (percentage progress).

(** The concurrent uploads of a batch, up to the moment at which the
    batch settles: [uploadEvents] are the progress events that arrive
    until then, in order of arrival and each tagged with the position of
    its file; [uploadDone] is how the callback of a file ends.  The log
    [uploads] lists the upload of every file, in file order, also of a
    file whose upload is created only after the batch was rejected: of
    the log nothing is stated below beyond which uploads it can hold. *)
Definition uploadAll (env : Env) (files : list File) : js World unit :=
  start_uploads (imap (newUpload env) files);;
  for_of (uploadEvents env) tt (fun _ ev => onProgress ev.2);;
  await_all (imap (fun i _ => uploadDone env i) files).

(** [e.target.files] is [files]; [localStorage.getItem('userEmail')] is
    [userEmail]. *)
Definition handleFileChange (env : Env) (files : option (list File))
    (userEmail : option string) : js World unit :=
  match files with
  | None | Some [] => mret tt
  | Some files =>
      match truthy_opt userEmail with
      | None => throw {| message := "User not authenticated" |}
      | Some _ =>
          setUploading true;;
          try_finally
            (try_catch
               (uploadAll env files;;
                fetchEventImages env)
               (fun error =>
                  setError (Some (if truthy (message error) then message error
                                  else "Failed to upload images. Please try again."))))
            (setUploading false;; setUploadProgress 0)
      end
  end.

(** *** What a grouping pass computes

    The callbacks neither throw nor touch the component's state, so a pass
    is determined by these pure folds over the batches in completion
    order. *)

(** The commands of [ensureCollection]. *)
Definition ensureCommands (listed : outcome ListCollectionsResponse)
    (collectionId : string) : list Command :=
  match listed with
  | Fulfilled listResponse =>
      if bool_decide (collectionId ∈ default [] (CollectionIds listResponse))
      then [ListCollectionsCommand]
      else [ListCollectionsCommand; CreateCollectionCommand collectionId]
  | Rejected _ => [ListCollectionsCommand]
  end.

(** [tempFaceRecords] after the callback of one image. *)
Definition indexStep (env : Env) (tempFaceRecords : list FaceRecordWithImage)
    (item : nat * EventImage) : list FaceRecordWithImage :=
  match indexFaces env item.1 with
  | Fulfilled indexResponse => tempFaceRecords ++ recordsOf item.2 indexResponse
  | Rejected _ => tempFaceRecords
  end.

(** The records that the answer to the request of one image yields. *)
Definition yieldOf (env : Env) (item : nat * EventImage) : list FaceRecordWithImage :=
  match indexFaces env item.1 with
  | Fulfilled indexResponse => recordsOf item.2 indexResponse
  | Rejected _ => []
  end.

(** The mappings that phase 2 goes through: every key and every value is
    a non-empty string. *)
Definition wellFormed (m : gmap string string) : Prop :=
  forall k v, m !! k = Some v -> truthy k = true /\ truthy v = true.

(** [tempFaceRecords] at the end of phase 1. *)
Definition tempFaceRecordsOf (env : Env) (imagesToProcess : list EventImage)
  : list FaceRecordWithImage :=
  fold_left (indexStep env) (completed (indexLatency env) imagesToProcess) [].

(** [faceIdToGroupId] and [groupCount] after the callback of one face. *)
Definition searchStep (env : Env) (st : gmap string string * nat)
    (item : nat * FaceRecordWithImage) : gmap string string * nat :=
  match searchFaces env item.1 with
  | Fulfilled searchResponse => resolve st item.2 searchResponse
  | Rejected _ => newGroup st item.2
  end.

(** [faceIdToGroupId] and [groupCount] at the end of phase 2. *)
Definition resolvedOf (env : Env) (tempFaceRecords : list FaceRecordWithImage)
  : gmap string string * nat :=
  fold_left (searchStep env) (completed (searchLatency env) tempFaceRecords) (∅, 0).

(** The world in which every failed recognition call answers instead
    that it found nothing; all other answers are those of [env]. *)
Definition degraded (env : Env) : Env :=
  {| S3_BUCKET_NAME := S3_BUCKET_NAME env;
     eventId := eventId env;
     selectedEvent := selectedEvent env;
     listCollections := listCollections env;
     createCollection := createCollection env;
     indexFaces := fun i => no_faces (indexFaces env i);
     indexLatency := indexLatency env;
     searchFaces := fun i => no_matches (searchFaces env i);
     searchLatency := searchLatency env;
     listObjects := listObjects env;
     deleteObject := deleteObject env;
     now := now env;
     uploadEvents := uploadEvents env;
     uploadDone := uploadDone env |}.

End StrategyA.

(** * Strategy B: the whole-image variant of [ViewEvent] *)
Module StrategyB.

(** The component's props, the missing [../config/aws] constant, and what
    the outside world answers during one run of a handler: the answers of
    the services by position in the batch, and the values of [Date.now()]
    and of [Math.random().toString(36).substring(2, 8)] read for the
    image at a position. *)
Record Env := {
  S3_BUCKET_NAME : string;
  eventId : string;
  selectedEvent : option string;
  listCollections : outcome ListCollectionsResponse;
  createCollection : outcome unit;
  searchFacesByImage : nat -> outcome SearchFacesResponse;
  indexFaces : nat -> outcome IndexFacesResponse;
  mintNow : nat -> Z;
  mintRandom : nat -> string;
  listObjects : nat -> outcome ListObjectsV2Output;
  deleteObject : outcome unit;
  now : nat -> Z;
  uploadEvents : list (nat * Progress);
  uploadDone : nat -> outcome unit
}.

(** The component's state ([useState]) together with three records of
    what it did: the commands sent so far, the uploads started, and every
    value passed to [setUploadProgress]; [next_oid] is the identity of
    the next object allocated. *)
Record World := {
  deleting : list string;
  images : list EventImage;
  loading : bool;
  error : option string;
  uploading : bool;
  uploadProgress : Z;
  faceGroups : gmap string (list EventImage);
  issued : list Command;
  uploads : list Upload;
  progressTrace : list Z;
  next_oid : nat
}.

Definition initial : World :=
  {| deleting := []; images := []; loading := true; error := None;
     uploading := false; uploadProgress := 0; faceGroups := ∅;
     issued := []; uploads := []; progressTrace := []; next_oid := 0 |}.

Definition with_deleting (f : list string -> list string) (w : World) : World :=
  {| deleting := f (deleting w); images := images w; loading := loading w;
     error := error w; uploading := uploading w;
     uploadProgress := uploadProgress w; faceGroups := faceGroups w;
     issued := issued w; uploads := uploads w;
     progressTrace := progressTrace w; next_oid := next_oid w |}.

Definition setDeleting (f : list string -> list string) : js World unit :=
  modify (with_deleting f).

Definition with_images (f : list EventImage -> list EventImage) (w : World) : World :=
  {| deleting := deleting w; images := f (images w); loading := loading w;
     error := error w; uploading := uploading w;
     uploadProgress := uploadProgress w; faceGroups := faceGroups w;
     issued := issued w; uploads := uploads w;
     progressTrace := progressTrace w; next_oid := next_oid w |}.

Definition setImages (f : list EventImage -> list EventImage) : js World unit :=
  modify (with_images f).

Definition with_loading (b : bool) (w : World) : World :=
  {| deleting := deleting w; images := images w; loading := b;
     error := error w; uploading := uploading w;
     uploadProgress := uploadProgress w; faceGroups := faceGroups w;
     issued := issued w; uploads := uploads w;
     progressTrace := progressTrace w; next_oid := next_oid w |}.

Definition setLoading (b : bool) : js World unit :=
  modify (with_loading b).

Definition with_error (e : option string) (w : World) : World :=
  {| deleting := deleting w; images := images w; loading := loading w;
     error := e; uploading := uploading w;
     uploadProgress := uploadProgress w; faceGroups := faceGroups w;
     issued := issued w; uploads := uploads w;
     progressTrace := progressTrace w; next_oid := next_oid w |}.

Definition setError (e : option string) : js World unit :=
  modify (with_error e).

Definition with_uploading (b : bool) (w : World) : World :=
  {| deleting := deleting w; images := images w; loading := loading w;
     error := error w; uploading := b;
     uploadProgress := uploadProgress w; faceGroups := faceGroups w;
     issued := issued w; uploads := uploads w;
     progressTrace := progressTrace w; next_oid := next_oid w |}.

Definition setUploading (b : bool) : js World unit :=
  modify (with_uploading b).

Definition with_uploadProgress (p : Z) (w : World) : World :=
  {| deleting := deleting w; images := images w; loading := loading w;
     error := error w; uploading := uploading w;
     uploadProgress := p; faceGroups := faceGroups w;
     issued := issued w; uploads := uploads w;
     progressTrace := progressTrace w ++ [p]; next_oid := next_oid w |}.

Definition setUploadProgress (p : Z) : js World unit :=
  modify (with_uploadProgress p).

Definition with_faceGroups
    (f : gmap string (list EventImage) -> gmap string (list EventImage))
    (w : World) : World :=
  {| deleting := deleting w; images := images w; loading := loading w;
     error := error w; uploading := uploading w;
     uploadProgress := uploadProgress w; faceGroups := f (faceGroups w);
     issued := issued w; uploads := uploads w;
     progressTrace := progressTrace w; next_oid := next_oid w |}.

Definition setFaceGroups
    (f : gmap string (list EventImage) -> gmap string (list EventImage))
  : js World unit :=
  modify (with_faceGroups f).

Definition with_issued (cmds : list Command) (w : World) : World :=
  {| deleting := deleting w; images := images w; loading := loading w;
     error := error w; uploading := uploading w;
     uploadProgress := uploadProgress w; faceGroups := faceGroups w;
     issued := issued w ++ cmds; uploads := uploads w;
     progressTrace := progressTrace w; next_oid := next_oid w |}.

(** [client.send(cmd)] up to its [await]: the command leaves. *)
Definition send (cmds : list Command) : js World unit :=
  modify (with_issued cmds).

Definition with_uploads (us : list Upload) (w : World) : World :=
  {| deleting := deleting w; images := images w; loading := loading w;
     error := error w; uploading := uploading w;
     uploadProgress := uploadProgress w; faceGroups := faceGroups w;
     issued := issued w; uploads := uploads w ++ us;
     progressTrace := progressTrace w; next_oid := next_oid w |}.

(** [new Upload(...)] ... [upload.done()]: the uploads start. *)
Definition start_uploads (us : list Upload) : js World unit :=
  modify (with_uploads us).

(** Allocation of [n] objects: the first identity is returned. *)
Definition alloc (n : nat) : js World nat :=
  fun w =>
    (Fulfilled (next_oid w),
     {| deleting := deleting w; images := images w; loading := loading w;
        error := error w; uploading := uploading w;
        uploadProgress := uploadProgress w; faceGroups := faceGroups w;
        issued := issued w; uploads := uploads w;
        progressTrace := progressTrace w; next_oid := next_oid w + n |}).

(** [ensureCollection]: every failure is logged and swallowed. *)
Definition ensureCollection (env : Env) (collectionId : string) : js World unit :=
  try_catch
    (send [ListCollectionsCommand];;
     listResponse ← await (listCollections env);
     let collections := default [] (CollectionIds listResponse) in
     if bool_decide (collectionId ∈ collections) then mret tt
     else send [CreateCollectionCommand collectionId];;
          await (createCollection env))
    (fun _ => mret tt).

(** *** [handleDelete] *)

(** [{ ...prev }] with every member list filtered; no group is removed.
    The groups come from a pass, which files nothing under an inherited
    name, so that every assignment [newGroups[groupId] = ...] writes an
    own property. *)
Definition removeFromGroups (k : string) (prev : gmap string (list EventImage))
  : gmap string (list EventImage) :=
  filter (fun img => key img ≠ k) <$> prev.

(** [handleDelete] up to its [await]. *)
Definition handleDelete_request (env : Env) (image : EventImage) : js World unit :=
  setDeleting (fun prev => prev ++ [key image]);;
  send [DeleteObjectCommand (S3_BUCKET_NAME env) (key image)].

(** [handleDelete] after its [await], inside the [try]. *)
Definition handleDelete_removal (image : EventImage) (answer : outcome unit)
  : js World unit :=
  await answer;;
  setImages (fun prev => filter (fun img => key img ≠ key image) prev);;
  setFaceGroups (removeFromGroups (key image)).

Definition handleDelete_finally (image : EventImage) : js World unit :=
  setDeleting (fun prev => filter (fun k => k ≠ key image) prev).

(** [handleDelete], when nothing else runs while the delete is awaited. *)
Definition handleDelete (env : Env) (image : EventImage) : js World unit :=
  try_finally
    (try_catch
       (handleDelete_request env image;;
        handleDelete_removal image (deleteObject env))
       (fun _ => mret tt))
    (handleDelete_finally image).

(** [handleDelete] from the moment the storage call settles to [answer],
    in whatever world the component is by then. *)
Definition handleDelete_settled (image : EventImage) (answer : outcome unit)
  : js World unit :=
  try_finally
    (try_catch (handleDelete_removal image answer) (fun _ => mret tt))
    (handleDelete_finally image).

(** *** [detectAndGroupFaces] *)

(** The element [{ key, groupId }] of [results]. *)
Record Result := { result_key : string; groupId : string }.

Definition searchCommand (env : Env) (collectionId : string) (image : EventImage)
  : Command :=
  SearchFacesByImageCommand collectionId (S3_BUCKET_NAME env) (key image) 80 10.

Definition indexCommand (env : Env) (collectionId : string) (image : EventImage)
    (groupId : string) : Command :=
  IndexFacesCommand collectionId (S3_BUCKET_NAME env) (key image) groupId.

(** [m.Face && m.Face.ExternalImageId && m.Face.ExternalImageId !== image.key] *)
Definition hasOtherTag (image : EventImage) (m : FaceMatch) : bool :=
  match match_Face m ≫= ExternalImageId with
  | Some tag => truthy tag && negb (String.eqb tag (key image))
  | None => false
  end.

(** The value of [groupId] at the end of the first [try] block. *)
Definition matchedTag (image : EventImage) (searchResponse : SearchFacesResponse)
  : string :=
  match FaceMatches searchResponse with
  | Some ((_ :: _) as matches) =>
      match find (hasOtherTag image) matches with
      | Some m => default "" (match_Face m ≫= ExternalImageId)
      | None => ""
      end
  | _ => ""
  end.

(** [`group_${Date.now()}_${Math.random().toString(36).substring(2, 8)}`] *)
Definition mint (env : Env) (i : nat) : string :=
  "group_" +:+ pretty (mintNow env i) +:+ "_" +:+ mintRandom env i.

(** The callback of the image at position [i]. *)
Definition imageTask (env : Env) (collectionId : string) (item : nat * EventImage)
  : js World Result :=
  let image := item.2 in
  found ← try_catch
            (send [searchCommand env collectionId image];;
             searchResponse ← await (searchFacesByImage env item.1);
             mret (matchedTag image searchResponse))
            (fun _ => mret "");
  let groupId := if truthy found then found else mint env item.1 in
  try_catch
    (send [indexCommand env collectionId image groupId];;
     await (indexFaces env item.1);;
     mret tt)
    (fun _ => mret tt);;
  mret {| result_key := key image; groupId := groupId |}.

(** The group of [image] looked up in [results]. *)
Definition gidOf (results : list Result) (image : EventImage) : string :=
  match find (fun r => String.eqb (result_key r) (key image)) results with
  | Some result => groupId result
  | None => "unknown"
  end.

(** The [TypeError] of [groups[gid].push(image)] when [groups[gid]] is an
    inherited property of the plain object [groups].  The text is the
    engine's. *)
Definition pushIsNotAFunction : JsError :=
  {| message := "groups[gid].push is not a function" |}.

(** One iteration of the loop that builds [groups] from the results:
    [if (!groups[gid]) groups[gid] = []; groups[gid].push(image)].  For an
    inherited name [!groups[gid]] is false, nothing is stored, and the
    call of [push] throws. *)
Definition fileUnder (results : list Result) (groups : gmap string (list EventImage))
    (image : EventImage) : js World (gmap string (list EventImage)) :=
  let gid := gidOf results image in
  if inherited gid then throw pushIsNotAFunction
  else mret (push_group gid image groups).

(** The loop that builds [groups] from the results. *)
Definition buildGroups (images : list EventImage) (results : list Result)
  : js World (gmap string (list EventImage)) :=
  for_of images ∅ (fileUnder results).

Definition detectAndGroupFaces (env : Env) (images : list EventImage) : js World unit :=
  let collectionId := eventId env in
  ensureCollection env collectionId;;
  results ← promise_all_map (imageTask env collectionId) (imap pair images);
  groups ← buildGroups images results;
  setFaceGroups (fun _ => groups).

(** *** Rendering: the groups and the "Other Images" bucket *)

(** [Object.values(faceGroups).flat()] *)
Definition groupedImages (groups : gmap string (list EventImage)) : list EventImage :=
  mjoin (map_to_list groups).*2.

(** [images.filter(image => !Object.values(faceGroups).flat().includes(image))] *)
Definition ungrouped (w : World) : list EventImage :=
  List.filter (fun image => negb (includes (groupedImages (faceGroups w)) image))
    (images w).

(** *** [fetchEventImages] *)

(** One iteration of the loop over the prefixes; the loop state is the
    pair of [allImages] and [fetchError]. *)
Definition listPrefix (env : Env) (st : list EventImage * option JsError)
    (item : nat * string) : js World (list EventImage * option JsError) :=
  try_catch
    (send [ListObjectsV2Command (S3_BUCKET_NAME env) item.2];;
     result ← await (listObjects env item.1);
     match Contents result with
     | Some contents =>
         let keys := imageKeys contents in
         first ← alloc (length keys);
         mret (st.1 ++ imageItems (S3_BUCKET_NAME env) first keys, st.2)
     | None => mret st
     end)
    (fun error => mret (st.1, Some error)).

Definition listPrefixes (env : Env) (prefixes : list string)
  : js World (list EventImage * option JsError) :=
  for_of (imap pair prefixes) ([], None) (listPrefix env).

(** The body of [fetchEventImages] for the array [prefixes]. *)
Definition fetchEventImagesFrom (env : Env) (prefixes : list string) : js World unit :=
  try_finally
    (try_catch
       (st ← listPrefixes env prefixes;
        let allImages := st.1 in
        let fetchError := st.2 in
        if (0 <? length allImages)%nat then
          setImages (fun _ => allImages);;
          detectAndGroupFaces env allImages;;
          setError None
        else
          match fetchError with
          | Some e => throw e
          | None => setError (Some "No images found for this event.")
          end)
       (fun error => setError (Some (message error))))
    (setLoading false).

Definition fetchEventImages (env : Env) : js World unit :=
  let eventToUse := default (eventId env) (truthy_opt (selectedEvent env)) in
  fetchEventImagesFrom env ["events/shared/" +:+ eventToUse +:+ "/images"].

(** *** [handleFileChange] *)

Definition newUpload (env : Env) (i : nat) (file : File) : Upload :=
  {| upload_Bucket := S3_BUCKET_NAME env;
     upload_Key := "events/shared/" +:+ eventId env +:+ "/images/"
                   +:+ pretty (now env i) +:+ "-" +:+ name file;
     upload_ContentType := type file |}.

(** The [httpUploadProgress] listener. *)
Definition onProgress (progress : Progress) : js World unit :=
  setUploadProgress (percentage progress).

(** The concurrent uploads of a batch, up to the moment at which the
    batch settles: [uploadEvents] are the progress events that arrive
    until then, in order of arrival and each tagged with the position of
    its file; [uploadDone] is how the callback of a file ends.  The log
    [uploads] lists the upload of every file, in file order, also of a
    file whose upload is created only after the batch was rejected: of
    the log nothing is stated below beyond which uploads it can hold. *)
Definition uploadAll (env : Env) (files : list File) : js World unit :=
  start_uploads (imap (newUpload env) files);;
  for_of (uploadEvents env) tt (fun _ ev => onProgress ev.2);;
  await_all (imap (fun i _ => uploadDone env i) files).

(** The callback built in a render whose [images] state is [images]:
    [e.target.files] is [files], [localStorage.getItem('userEmail')] is
    [userEmail].  The list regrouped after the refresh is the captured
    one.  [env'] answers the requests of that second grouping pass. *)
Definition handleFileChange_of (images : list EventImage) (env env' : Env)
    (files : option (list File)) (userEmail : option string) : js World unit :=
  match files with
  | None | Some [] => mret tt
  | Some files =>
      match truthy_opt userEmail with
      | None => throw {| message := "User not authenticated" |}
      | Some _ =>
          setUploading true;;
          try_finally
            (try_catch
               (uploadAll env files;;
                fetchEventImages env;;
                detectAndGroupFaces env' images)
               (fun error =>
                  setError (Some (if truthy (message error) then message error
                                  else "Failed to upload images. Please try again."))))
            (setUploading false;; setUploadProgress 0)
      end
  end.

(** The handler bound to the file input of the current render. *)
Definition handleFileChange (env env' : Env) (files : option (list File))
    (userEmail : option string) : js World unit :=
  fun w => handleFileChange_of (images w) env env' files userEmail w.

(** *** What a grouping pass computes *)

(** The commands of [ensureCollection]. *)
Definition ensureCommands (listed : outcome ListCollectionsResponse)
    (collectionId : string) : list Command :=
  match listed with
  | Fulfilled listResponse =>
      if bool_decide (collectionId ∈ default [] (CollectionIds listResponse))
      then [ListCollectionsCommand]
      else [ListCollectionsCommand; CreateCollectionCommand collectionId]
  | Rejected _ => [ListCollectionsCommand]
  end.

(** The group id resolved for the image at position [i]. *)
Definition groupIdOf (env : Env) (i : nat) (image : EventImage) : string :=
  let found := match searchFacesByImage env i with
               | Fulfilled searchResponse => matchedTag image searchResponse
               | Rejected _ => ""
               end in
  if truthy found then found else mint env i.

(** The array [results]. *)
Definition resultsOf (env : Env) (images : list EventImage) : list Result :=
  imap (fun i image => {| result_key := key image; groupId := groupIdOf env i image |})
    images.

(** The commands sent for the image at position [i]. *)
Definition commandsOf (env : Env) (collectionId : string) (i : nat)
    (image : EventImage) : list Command :=
  [searchCommand env collectionId image;
   indexCommand env collectionId image (groupIdOf env i image)].

(** The commands sent by the callbacks of a pass. *)
Definition passCommands (env : Env) (collectionId : string) (images : list EventImage)
  : list Command :=
  imap pair images ≫= (fun item => commandsOf env collectionId item.1 item.2).

(** The groups that the loop over the images builds when it completes. *)
Definition groupsOf (images : list EventImage) (results : list Result)
  : gmap string (list EventImage) :=
  fold_left (fun groups image => push_group (gidOf results image) image groups)
    images ∅.

(** Whether the loop over the images throws: some image is to be filed
    under an inherited name. *)
Definition throwsOn (results : list Result) (images : list EventImage) : bool :=
  existsb (fun image => inherited (gidOf results image)) images.

(** No tag that a search of [env] answers with is an inherited name. *)
Definition plainTags (env : Env) : Prop :=
  forall i searchResponse m tag,
    searchFacesByImage env i = Fulfilled searchResponse ->
    m ∈ default [] (FaceMatches searchResponse) ->
    match_Face m ≫= ExternalImageId = Some tag ->
    inherited tag = false.

(** The world in which every failed recognition call answers instead
    that it found nothing; all other answers are those of [env]. *)
Definition degraded (env : Env) : Env :=
  {| S3_BUCKET_NAME := S3_BUCKET_NAME env;
     eventId := eventId env;
     selectedEvent := selectedEvent env;
     listCollections := listCollections env;
     createCollection := createCollection env;
     searchFacesByImage := fun i => no_matches (searchFacesByImage env i);
     indexFaces := fun i => no_faces (indexFaces env i);
     mintNow := mintNow env;
     mintRandom := mintRandom env;
     listObjects := listObjects env;
     deleteObject := deleteObject env;
     now := now env;
     uploadEvents := uploadEvents env;
     uploadDone := uploadDone env |}.

End StrategyB.

(** * The rest of the component: the first effect and the rendering

    Both variants have the same first [useEffect] and the same download
    buttons; the list of unique images of a group belongs to strategy A. *)

(** [s.includes(needle)] on strings. *)
Definition str_includes (needle s : string) : bool :=
  match String.index 0 needle s with
  | Some _ => true
  | None => false
  end.

(** What one run of the first effect does: nothing, [setError(msg)], or
    [navigate(to, { replace: true })]. *)
Inductive AuthAction : Type :=
| Stay
| RequireLogin (msg : string)
| Redirect (to : string).

(** The first [useEffect]: [path] is [window.location.pathname] and
    [userEmail] is [localStorage.getItem('userEmail')]. *)
Definition authEffect (eventId path : string) (userEmail : option string)
  : AuthAction :=
  if str_includes "upload_selfie" path || str_includes "upload-selfie" path then
    match truthy_opt userEmail with
    | None => RequireLogin "Authentication required. Please log in."
    | Some _ =>
        if String.eqb path ("/upload-selfie/" +:+ eventId) then Stay
        else Redirect ("/upload-selfie/" +:+ eventId)
    end
  else Stay.

(** [s.split('/')] *)
Fixpoint split_slash (s : string) : list string :=
  match s with
  | EmptyString => [EmptyString]
  | String c rest =>
      if Ascii.eqb c "/" then EmptyString :: split_slash rest
      else match split_slash rest with
           | seg :: more => String c seg :: more
           | [] => [String c EmptyString]
           end
  end.

(** [key.split('/').pop() || fallback], the [download] attribute. *)
Definition downloadName (k fallback : string) : string :=
  let name := default "" (last (split_slash k)) in
  if truthy name then name else fallback.

(** The names that "Download All" gives to the images, in order. *)
Definition downloadAllNames (images : list EventImage) : list string :=
  imap (fun index image => downloadName (key image) ("image-" +:+ pretty index)) images.

(** [Array.from(new Set(xs))]: the first occurrence of each value, in
    order. *)
Fixpoint dedupe (xs : list string) : list string :=
  match xs with
  | [] => []
  | x :: rest => x :: filter (fun y => y ≠ x) (dedupe rest)
  end.

(** [Array.from(new Set(faceRecs.map(fr => fr.image.key)))
       .map(key => images.find(img => img.key === key))]:
    the tiles of one group of strategy A; [None] is [undefined]. *)
Definition uniqueImages (faceRecs : list StrategyA.FaceRecordWithImage)
    (images : list EventImage) : list (option EventImage) :=
  (fun k => find (fun img => String.eqb (key img) k) images)
    <$> dedupe ((fun fr => key (StrategyA.image fr)) <$> faceRecs).

(** [uniqueImages.filter(Boolean).length], the "Found in N image(s)". *)
Definition foundCount (tiles : list (option EventImage)) : nat :=
  length (omap id tiles).

(** No character of [s] is a slash. *)
Fixpoint slashless (s : string) : bool :=
  match s with
  | EmptyString => true
  | String c rest => negb (Ascii.eqb c "/") && slashless rest
  end.

(** The [useState] cells of the component, without the logs. *)
Definition stateA (w : StrategyA.World) :=
  (StrategyA.deleting w, StrategyA.images w, StrategyA.loading w, StrategyA.error w,
   StrategyA.uploading w, StrategyA.uploadProgress w, StrategyA.faceGroups w,
   StrategyA.allFaceRecords w).

Definition stateB (w : StrategyB.World) :=
  (StrategyB.deleting w, StrategyB.images w, StrategyB.loading w, StrategyB.error w,
   StrategyB.uploading w, StrategyB.uploadProgress w, StrategyB.faceGroups w).

(** An image object as the listing builds it for the bucket [bucket]:
    its key is a non-empty image key and its URL is derived from it. *)
Definition wellBuilt (bucket : string) (img : EventImage) : Prop :=
  url img = "https://" +:+ bucket +:+ ".s3.amazonaws.com/" +:+ key img /\
  is_image_key (key img) = true /\
  key img <> "".

(** Strategy A: the groups, the face records and the image set fit
    together: no group is empty, every member of a group is one of the
    face records, and the image of every face record is in the image
    set. *)
Definition consistentA (w : StrategyA.World) : Prop :=
  (forall gid bucket,
     StrategyA.faceGroups w !! gid = Some bucket ->
     bucket <> [] /\ forall fr, fr ∈ bucket -> fr ∈ StrategyA.allFaceRecords w) /\
  (forall fr, fr ∈ StrategyA.allFaceRecords w ->
              StrategyA.image fr ∈ StrategyA.images w).

(** Strategy B: every image of the image set is a member of a group. *)
Definition allGroupedB (w : StrategyB.World) : Prop :=
  forall x, x ∈ StrategyB.images w ->
    exists gid bucket, StrategyB.faceGroups w !! gid = Some bucket /\ x ∈ bucket.

(** The image objects that the component holds were allocated before
    the next object to be built. *)
Definition allocatedB (w : StrategyB.World) : Prop :=
  forall x, x ∈ StrategyB.images w -> oid x < StrategyB.next_oid w.

(** What the component renders: the spinner while [loading]; else the
    error panel when [error] is truthy; else the gallery, whose empty
    state is shown when [images.length === 0] (and whose Download All
    button is shown otherwise). *)
Inductive Screen : Type :=
| Spinner
| ErrorPanel (msg : string)
| GalleryView (emptyState : bool).

Definition screenOf (loading : bool) (error : option string)
    (images : list EventImage) : Screen :=
  if loading then Spinner
  else match truthy_opt error with
       | Some msg => ErrorPanel msg
       | None => GalleryView (length images =? 0)%nat
       end.

Definition screenA (w : StrategyA.World) : Screen :=
  screenOf (StrategyA.loading w) (StrategyA.error w) (StrategyA.images w).

Definition screenB (w : StrategyB.World) : Screen :=
  screenOf (StrategyB.loading w) (StrategyB.error w) (StrategyB.images w).

(** * Concrete runs *)
Module Examples.

(** An event with one stored photo, and a second one once it is uploaded. *)
Definition keyA : string := "events/shared/party/images/1700000000000-a.jpg".
Definition keyB : string := "events/shared/party/images/1700000009999-b.jpg".

Definition listing (keys : list string) : ListObjectsV2Output :=
  {| Contents := Some ((fun k => {| Key := Some k |}) <$> keys) |}.

Definition failure : JsError := {| message := "NetworkingError" |}.

(** Strategy B, every service answering, no face matching any other;
    [keys] is what the store lists. *)
Definition quietB (keys : list string) : StrategyB.Env :=
  {| StrategyB.S3_BUCKET_NAME := "bucket";
     StrategyB.eventId := "party";
     StrategyB.selectedEvent := None;
     StrategyB.listCollections := Fulfilled {| CollectionIds := Some ["party"] |};
     StrategyB.createCollection := Fulfilled tt;
     StrategyB.searchFacesByImage := fun _ => Fulfilled {| FaceMatches := Some [] |};
     StrategyB.indexFaces := fun _ => Fulfilled {| FaceRecords := Some [] |};
     StrategyB.mintNow := fun i => (1700000000000 + Z.of_nat i)%Z;
     StrategyB.mintRandom := fun _ => "k3x9qz";
     StrategyB.listObjects := fun _ => Fulfilled (listing keys);
     StrategyB.deleteObject := Fulfilled tt;
     StrategyB.now := fun _ => 1700000009999%Z;
     StrategyB.uploadEvents :=
       [(0, {| loaded := Some 512%Z; total := Some 1024%Z |});
        (0, {| loaded := Some 1024%Z; total := Some 1024%Z |})];
     StrategyB.uploadDone := fun _ => Fulfilled tt |}.

(** The component after its first load of the event. *)
Definition loadedB : StrategyB.World :=
  (StrategyB.fetchEventImages (quietB [keyA]) StrategyB.initial).2.

(** ... and after the user has then uploaded [b.jpg]. *)
Definition uploadedB : StrategyB.World :=
  (StrategyB.handleFileChange (quietB [keyA; keyB]) (quietB [keyA; keyB])
     (Some [{| name := "b.jpg"; type := "image/jpeg" |}]) (Some "guest@example.org")
     loadedB).2.

(** The photo object of the first load. *)
Definition photoA : EventImage :=
  {| oid := 0; url := "https://bucket.s3.amazonaws.com/" +:+ keyA; key := keyA |}.

(** Strategy A with two photos of the same person: the search of the
    second face, which answers last, matches an unknown face and then the
    first face; the storage delete fails. *)
Definition faceOf (id : string) : Face := {| FaceId := Some id; ExternalImageId := None |}.

Definition twinsA : StrategyA.Env :=
  {| StrategyA.S3_BUCKET_NAME := "bucket";
     StrategyA.eventId := "party";
     StrategyA.selectedEvent := None;
     StrategyA.listCollections := Fulfilled {| CollectionIds := Some [] |};
     StrategyA.createCollection := Fulfilled tt;
     StrategyA.indexFaces := fun i =>
       Fulfilled {| FaceRecords :=
                      Some [{| rec_Face := Some (faceOf ("face-" +:+ pretty i)) |}] |};
     StrategyA.indexLatency := fun _ => 0;
     StrategyA.searchFaces := fun j =>
       match j with
       | 0 => Fulfilled {| FaceMatches := Some [] |}
       | _ => Fulfilled {| FaceMatches :=
                             Some [{| match_Face := Some (faceOf "face-9") |};
                                   {| match_Face := Some (faceOf "face-0") |}] |}
       end;
     StrategyA.searchLatency := fun j => j;
     StrategyA.listObjects := fun _ => Fulfilled (listing [keyA; keyB]);
     StrategyA.deleteObject := Rejected failure;
     StrategyA.now := fun _ => 1700000009999%Z;
     StrategyA.uploadEvents :=
       [(0, {| loaded := Some 900%Z; total := Some 1000%Z |});
        (1, {| loaded := Some 100%Z; total := Some 1000%Z |});
        (0, {| loaded := Some 1000%Z; total := Some 1000%Z |});
        (1, {| loaded := Some 1000%Z; total := Some 1000%Z |})];
     StrategyA.uploadDone := fun _ => Fulfilled tt |}.

(** The component after its first load of the event. *)
Definition loadedA : StrategyA.World :=
  (StrategyA.fetchEventImages twinsA StrategyA.initial).2.

(** The photo objects and the face records of that load. *)
Definition photoB : EventImage :=
  {| oid := 1; url := "https://bucket.s3.amazonaws.com/" +:+ keyB; key := keyB |}.

Definition face0 : StrategyA.FaceRecordWithImage :=
  {| StrategyA.faceId := "face-0"; StrategyA.image := photoA |}.

Definition face1 : StrategyA.FaceRecordWithImage :=
  {| StrategyA.faceId := "face-1"; StrategyA.image := photoB |}.

(** Strategy A on three photos with one face each, every call answering
    in issue order: [matches j] is what the search of the face at position
    [j] returns, [None] standing for a failed search. *)
Definition trioA (matches : nat -> option (list string)) : StrategyA.Env :=
  {| StrategyA.S3_BUCKET_NAME := "bucket";
     StrategyA.eventId := "party";
     StrategyA.selectedEvent := None;
     StrategyA.listCollections := Fulfilled {| CollectionIds := Some ["party"] |};
     StrategyA.createCollection := Fulfilled tt;
     StrategyA.indexFaces := fun i =>
       Fulfilled {| FaceRecords :=
                      Some [{| rec_Face := Some (faceOf ("face-" +:+ pretty i)) |}] |};
     StrategyA.indexLatency := fun _ => 0;
     StrategyA.searchFaces := fun j =>
       match matches j with
       | Some ids =>
           Fulfilled {| FaceMatches :=
                          Some ((fun id => {| match_Face := Some (faceOf id) |}) <$> ids) |}
       | None => Rejected failure
       end;
     StrategyA.searchLatency := fun _ => 0;
     StrategyA.listObjects := fun _ => Fulfilled (listing []);
     StrategyA.deleteObject := Fulfilled tt;
     StrategyA.now := fun _ => 0%Z;
     StrategyA.uploadEvents := [];
     StrategyA.uploadDone := fun _ => Fulfilled tt |}.

Definition photo (i : nat) (k : string) : EventImage :=
  {| oid := i; url := "https://bucket.s3.amazonaws.com/" +:+ k; key := k |}.

Definition trio : list EventImage := [photo 0 "a.jpg"; photo 1 "b.jpg"; photo 2 "c.jpg"].

(** The groups published by a pass of strategy A over [trio]: the photo
    keys in the buckets of the first three group ids, and the number of
    groups. *)
Definition groupsOfTrio (matches : nat -> option (list string))
  : list (option (list string)) * nat :=
  let groups :=
    StrategyA.faceGroups
      (StrategyA.detectAndGroupFaces (trioA matches) trio StrategyA.initial).2 in
  ((fun gid => fmap (M := list) (fun fr => key (StrategyA.image fr)) <$> groups !! gid)
     <$> ["group_1"; "group_2"; "group_3"],
   size groups).

(** A match whose face carries the external tag [tag]. *)
Definition tagged (tag : string) : FaceMatch :=
  {| match_Face := Some {| FaceId := None; ExternalImageId := Some tag |} |}.

(** Strategy B where every search answers with a match of the image
    itself followed by matches of two known groups. *)
Definition matchingB : StrategyB.Env :=
  {| StrategyB.S3_BUCKET_NAME := "bucket";
     StrategyB.eventId := "party";
     StrategyB.selectedEvent := None;
     StrategyB.listCollections := Fulfilled {| CollectionIds := Some ["party"] |};
     StrategyB.createCollection := Fulfilled tt;
     StrategyB.searchFacesByImage := fun _ =>
       Fulfilled {| FaceMatches :=
                      Some [tagged "a.jpg"; tagged "group_1_x"; tagged "group_2_y"] |};
     StrategyB.indexFaces := fun _ => Rejected failure;
     StrategyB.mintNow := fun _ => 1700000000000%Z;
     StrategyB.mintRandom := fun _ => "k3x9qz";
     StrategyB.listObjects := fun _ => Fulfilled (listing []);
     StrategyB.deleteObject := Fulfilled tt;
     StrategyB.now := fun _ => 0%Z;
     StrategyB.uploadEvents := [];
     StrategyB.uploadDone := fun _ => Fulfilled tt |}.

(** A batch of two files. *)
Definition twoFiles : list File :=
  [{| name := "c.jpg"; type := "image/jpeg" |};
   {| name := "d.jpg"; type := "image/jpeg" |}].

End Examples.

(** * Further concrete inputs *)
Module MoreExamples.

(** A chosen file. *)
Definition fileB : File := {| name := "b.jpg"; type := "image/jpeg" |}.

(** The records of a group with two faces of one photo and one face of
    another, and the image set. *)
Definition faceTwice : list StrategyA.FaceRecordWithImage :=
  [Examples.face0;
   {| StrategyA.faceId := "face-2"; StrategyA.image := Examples.photoA |};
   Examples.face1].

Definition twoPhotos : list EventImage := [Examples.photoA; Examples.photoB].

(** Strategy A where the upload of the second file of a batch fails. *)
Definition brokenUploadA : StrategyA.Env :=
  {| StrategyA.S3_BUCKET_NAME := "bucket";
     StrategyA.eventId := "party";
     StrategyA.selectedEvent := None;
     StrategyA.listCollections := Fulfilled {| CollectionIds := Some ["party"] |};
     StrategyA.createCollection := Fulfilled tt;
     StrategyA.indexFaces := fun _ => Fulfilled {| FaceRecords := Some [] |};
     StrategyA.indexLatency := fun _ => 0;
     StrategyA.searchFaces := fun _ => Fulfilled {| FaceMatches := Some [] |};
     StrategyA.searchLatency := fun _ => 0;
     StrategyA.listObjects := fun _ => Fulfilled (Examples.listing [Examples.keyA]);
     StrategyA.deleteObject := Fulfilled tt;
     StrategyA.now := fun _ => 1700000009999%Z;
     StrategyA.uploadEvents := [];
     StrategyA.uploadDone := fun i =>
       match i with
       | 1 => Rejected Examples.failure
       | _ => Fulfilled tt
       end |}.

(** Strategy A shown for the event [party] while the event [wedding] is
    selected. *)
Definition otherEventA : StrategyA.Env :=
  {| StrategyA.S3_BUCKET_NAME := "bucket";
     StrategyA.eventId := "party";
     StrategyA.selectedEvent := Some "wedding";
     StrategyA.listCollections := Fulfilled {| CollectionIds := Some ["party"] |};
     StrategyA.createCollection := Fulfilled tt;
     StrategyA.indexFaces := fun _ => Fulfilled {| FaceRecords := Some [] |};
     StrategyA.indexLatency := fun _ => 0;
     StrategyA.searchFaces := fun _ => Fulfilled {| FaceMatches := Some [] |};
     StrategyA.searchLatency := fun _ => 0;
     StrategyA.listObjects := fun _ => Fulfilled (Examples.listing []);
     StrategyA.deleteObject := Fulfilled tt;
     StrategyA.now := fun _ => 1700000009999%Z;
     StrategyA.uploadEvents := [];
     StrategyA.uploadDone := fun _ => Fulfilled tt |}.

(** Strategy B where every search answers with a face that was indexed
    under the tag [constructor]; the store lists one photo. *)
Definition inheritedTagB : StrategyB.Env :=
  {| StrategyB.S3_BUCKET_NAME := "bucket";
     StrategyB.eventId := "party";
     StrategyB.selectedEvent := None;
     StrategyB.listCollections := Fulfilled {| CollectionIds := Some ["party"] |};
     StrategyB.createCollection := Fulfilled tt;
     StrategyB.searchFacesByImage := fun _ =>
       Fulfilled {| FaceMatches := Some [Examples.tagged "constructor"] |};
     StrategyB.indexFaces := fun _ => Fulfilled {| FaceRecords := Some [] |};
     StrategyB.mintNow := fun _ => 1700000000000%Z;
     StrategyB.mintRandom := fun _ => "k3x9qz";
     StrategyB.listObjects := fun _ => Fulfilled (Examples.listing [Examples.keyA]);
     StrategyB.deleteObject := Fulfilled tt;
     StrategyB.now := fun _ => 1700000009999%Z;
     StrategyB.uploadEvents := [];
     StrategyB.uploadDone := fun _ => Fulfilled tt |}.

(** Strategy B where every search fails. *)
Definition failingSearchB : StrategyB.Env :=
  {| StrategyB.S3_BUCKET_NAME := "bucket";
     StrategyB.eventId := "party";
     StrategyB.selectedEvent := None;
     StrategyB.listCollections := Fulfilled {| CollectionIds := Some ["party"] |};
     StrategyB.createCollection := Fulfilled tt;
     StrategyB.searchFacesByImage := fun _ => Rejected Examples.failure;
     StrategyB.indexFaces := fun _ => Rejected Examples.failure;
     StrategyB.mintNow := fun i => (1700000000000 + Z.of_nat i)%Z;
     StrategyB.mintRandom := fun _ => "k3x9qz";
     StrategyB.listObjects := fun _ => Fulfilled (Examples.listing [Examples.keyA]);
     StrategyB.deleteObject := Fulfilled tt;
     StrategyB.now := fun _ => 1700000009999%Z;
     StrategyB.uploadEvents := [];
     StrategyB.uploadDone := fun _ => Fulfilled tt |}.

End MoreExamples.

(** * Properties *)

(** ** The monad *)

Ltac js_unfold :=
  unfold mbind, mret, js_bind, js_ret, throw, await, modify, try_catch,
    try_finally, for_of in *.

Section Monad.
Context {S : Type}.

Lemma promise_all_fold_app {Acc X} (k : Acc -> X -> js S Acc) acc (l1 l2 : list X) s :
  promise_all_fold k acc (l1 ++ l2) s =
  match promise_all_fold k acc l1 s with
  | (Fulfilled acc', s') => promise_all_fold k acc' l2 s'
  | (Rejected e, s') => (Rejected e, s')
  end.
Proof.
  revert acc s. induction l1 as [|x l1 IH]; intros acc s; simpl.
  - reflexivity.
  - js_unfold. destruct (k acc x s) as [[acc'|e] s']; [apply IH|reflexivity].
Qed.

(** Callbacks that never throw and leave the state alone: the batch is
    a plain fold. *)
Lemma promise_all_fold_pure {Acc X} (k : Acc -> X -> js S Acc)
    (f : Acc -> X -> Acc) acc (l : list X) s :
  (forall a x s', k a x s' = (Fulfilled (f a x), s')) ->
  promise_all_fold k acc l s = (Fulfilled (fold_left f l acc), s).
Proof.
  intros Hk. revert acc. induction l as [|x l IH]; intros acc; simpl.
  - reflexivity.
  - js_unfold. rewrite Hk. apply IH.
Qed.

(** Callbacks that never throw and update the state on their own. *)
Lemma promise_all_fold_run {Acc X} (k : Acc -> X -> js S Acc)
    (f : Acc -> X -> Acc) (h : X -> S -> S) acc (l : list X) s :
  (forall a x s', k a x s' = (Fulfilled (f a x), h x s')) ->
  promise_all_fold k acc l s =
  (Fulfilled (fold_left f l acc), fold_left (fun s' x => h x s') l s).
Proof.
  intros Hk. revert acc s. induction l as [|x l IH]; intros acc s; simpl.
  - reflexivity.
  - js_unfold. rewrite Hk. apply IH.
Qed.

Lemma promise_all_fold_ext {Acc X} (k k' : Acc -> X -> js S Acc) acc (l : list X) s :
  (forall a x s', k a x s' = k' a x s') ->
  promise_all_fold k acc l s = promise_all_fold k' acc l s.
Proof.
  intros Hk. revert acc s. induction l as [|x l IH]; intros acc s; simpl.
  - reflexivity.
  - js_unfold. rewrite Hk. destruct (k' acc x s) as [[a|e] s']; [apply IH|reflexivity].
Qed.
(** Callbacks that never throw: the results are those of each member,
    in input order. *)
Lemma promise_all_map_run {X A} (task : X -> js S A) (g : X -> A)
    (h : X -> S -> S) (l : list X) s :
  (forall x s', task x s' = (Fulfilled (g x), h x s')) ->
  promise_all_map task l s =
  (Fulfilled (g <$> l), fold_left (fun s' x => h x s') l s).
Proof.
  intros Htask. revert s. induction l as [|x l IH]; intros s; simpl.
  - reflexivity.
  - js_unfold. rewrite Htask, IH. reflexivity.
Qed.
End Monad.

(** ** Batches in completion order *)

Lemma completion_order_perm latency n :
  completion_order latency n ≡ₚ seq 0 n.
Proof. unfold completion_order. apply merge_sort_Permutation. Qed.

Lemma omap_lookup_seq {A} (l : list A) :
  omap (fun i => (fun x => (i, x)) <$> l !! i) (seq 0 (length l)) = imap pair l.
Proof.
  induction l as [|x l IH] using rev_ind; [reflexivity|].
  rewrite length_app. simpl. replace (length l + 1) with (S (length l)) by lia.
  rewrite seq_S, omap_app, imap_app. simpl.
  f_equal.
  - rewrite <- IH. apply list_omap_ext, Forall_Forall2_diag, Forall_forall.
    intros i Hi. apply elem_of_seq in Hi.
    rewrite lookup_app_l by lia. reflexivity.
  - rewrite list_lookup_middle by reflexivity. simpl.
    rewrite Nat.add_0_r. reflexivity.
Qed.

(** Every member of the batch completes, once. *)
Lemma completed_perm {A} latency (l : list A) :
  completed latency l ≡ₚ imap pair l.
Proof.
  unfold completed. rewrite <- omap_lookup_seq.
  apply omap_Permutation, completion_order_perm.
Qed.

(** ** Buckets built by [push_group] *)

Section Buckets.
Context {A : Type} (f : A -> string).

Lemma lookup_push_group gid x (g : gmap string (list A)) gid' :
  push_group gid x g !! gid' =
  if decide (gid = gid') then Some (default [] (g !! gid) ++ [x]) else g !! gid'.
Proof.
  unfold push_group. destruct (g !! gid) as [l|] eqn:Hg; case_decide; subst.
  - rewrite lookup_insert_eq, Hg. reflexivity.
  - rewrite lookup_insert_ne by done. reflexivity.
  - rewrite !lookup_insert_eq. reflexivity.
  - rewrite !lookup_insert_ne by done. reflexivity.
Qed.

(** The bucket of [gid] is what it held before followed by the members
    of the list that map to [gid], in list order; a bucket that receives
    nothing is not created. *)
Lemma lookup_fold_push (l : list A) (acc : gmap string (list A)) gid :
  fold_left (fun g x => push_group (f x) x g) l acc !! gid =
  match acc !! gid, filter (fun x => f x = gid) l with
  | None, [] => None
  | o, fl => Some (default [] o ++ fl)
  end.
Proof.
  revert acc. induction l as [|x l IH]; intros acc; simpl.
  - destruct (acc !! gid); simpl; [rewrite app_nil_r|]; reflexivity.
  - rewrite IH, lookup_push_group, filter_cons.
    destruct (decide (f x = gid)) as [->|Hne].
    + destruct (acc !! gid) as [pre|]; simpl;
        rewrite <- ?app_assoc; simpl;
        destruct (filter _ l); reflexivity.
    + reflexivity.
Qed.

Lemma lookup_bucket (l : list A) gid :
  fold_left (fun g x => push_group (f x) x g) l ∅ !! gid =
  match filter (fun x => f x = gid) l with
  | [] => None
  | fl => Some fl
  end.
Proof.
  rewrite lookup_fold_push, lookup_empty. destruct (filter _ l); reflexivity.
Qed.

(** Every member of the list is in the bucket of its own group id. *)
Lemma bucket_of (l : list A) x :
  x ∈ l ->
  exists bucket,
    fold_left (fun g y => push_group (f y) y g) l ∅ !! f x = Some bucket /\
    x ∈ bucket.
Proof.
  intros Hx. rewrite lookup_bucket.
  assert (x ∈ filter (fun y => f y = f x) l) as Hin.
  { apply list_elem_of_filter. split; [reflexivity|exact Hx]. }
  destruct (filter _ l) as [|y l']; [inversion Hin|].
  eexists. split; [reflexivity|exact Hin].
Qed.
End Buckets.

Lemma fold_left_ext {A B} (f g : A -> B -> A) (l : list B) (a : A) :
  (forall a' x, f a' x = g a' x) -> fold_left f l a = fold_left g l a.
Proof.
  intros Hfg. revert a. induction l as [|x l IH]; intros a; simpl; [reflexivity|].
  rewrite Hfg. apply IH.
Qed.

(** ** Strategy A: what the handlers compute *)

Section StrategyA_runs.
Import StrategyA.

Lemma A_with_issued_app cmds1 cmds2 w :
  with_issued cmds2 (with_issued cmds1 w) = with_issued (cmds1 ++ cmds2) w.
Proof. unfold with_issued. simpl. rewrite app_assoc. reflexivity. Qed.

Lemma A_ensureCollection_run env cid w :
  ensureCollection env cid w =
  (Fulfilled tt, with_issued (ensureCommands (listCollections env) cid) w).
Proof.
  unfold ensureCollection, ensureCommands, send. js_unfold.
  destruct (listCollections env) as [listResponse|e]; [|reflexivity].
  case_bool_decide; [reflexivity|].
  pose proof (A_with_issued_app [ListCollectionsCommand]
                [CreateCollectionCommand cid] w) as Happ.
  destruct (createCollection env) as [[]|e]; simpl in *; congruence.
Qed.

Lemma A_indexTask_run env acc item w :
  indexTask env acc item w = (Fulfilled (indexStep env acc item), w).
Proof.
  unfold indexTask, indexStep. js_unfold.
  destruct (indexFaces env item.1); reflexivity.
Qed.

Lemma A_searchTask_run env st item w :
  searchTask env st item w = (Fulfilled (searchStep env st item), w).
Proof.
  unfold searchTask, searchStep. js_unfold.
  destruct (searchFaces env item.1); reflexivity.
Qed.

Lemma A_phase1_run env cid imgs w :
  phase1 env cid imgs w =
  (Fulfilled (tempFaceRecordsOf env imgs),
   with_issued (indexCommand env cid <$> imgs) w).
Proof.
  unfold phase1, send. js_unfold.
  apply promise_all_fold_pure. apply A_indexTask_run.
Qed.

Lemma A_phase2_run env cid recs w :
  phase2 env cid recs w =
  (Fulfilled (resolvedOf env recs),
   with_issued (searchCommand cid <$> recs) w).
Proof.
  unfold phase2, send. js_unfold.
  apply promise_all_fold_pure. apply A_searchTask_run.
Qed.

(** The world published by a grouping pass. *)
Lemma A_detectAndGroupFaces_run env imgs w :
  let temp := tempFaceRecordsOf env imgs in
  detectAndGroupFaces env imgs w =
  (Fulfilled tt,
   with_faceGroups (fun _ => buildGroups temp (resolvedOf env temp).1)
     (with_issued (searchCommand (eventId env) <$> temp)
        (with_allFaceRecords (fun _ => temp)
           (with_issued (indexCommand env (eventId env) <$> imgs)
              (with_issued (ensureCommands (listCollections env) (eventId env)) w))))).
Proof.
  intros temp. unfold detectAndGroupFaces.
  unfold mbind at 1. unfold js_bind at 1. rewrite A_ensureCollection_run.
  unfold mbind at 1. unfold js_bind at 1. rewrite A_phase1_run.
  unfold setAllFaceRecords, setFaceGroups. js_unfold.
  rewrite A_phase2_run. reflexivity.
Qed.
End StrategyA_runs.

(** ** Strategy A: the two phases *)

Section StrategyA_phases.
Import StrategyA.

Lemma A_fold_indexStep env l acc :
  fold_left (indexStep env) l acc = acc ++ (l ≫= yieldOf env).
Proof.
  revert acc. induction l as [|item l IH]; intros acc; simpl.
  - rewrite app_nil_r. reflexivity.
  - rewrite IH. unfold indexStep, yieldOf.
    destruct (indexFaces env item.1); simpl; rewrite <- ?app_assoc; reflexivity.
Qed.

(** Phase 1 collects the records of every image, whatever the order in
    which the answers arrive. *)
Lemma A_tempFaceRecords_perm env imgs :
  tempFaceRecordsOf env imgs ≡ₚ imap pair imgs ≫= yieldOf env.
Proof.
  unfold tempFaceRecordsOf. rewrite A_fold_indexStep. simpl.
  rewrite completed_perm. reflexivity.
Qed.

Lemma A_recordsOf_truthy image indexResponse fr :
  fr ∈ recordsOf image indexResponse -> truthy (faceId fr) = true.
Proof.
  unfold recordsOf. destruct (FaceRecords indexResponse) as [recs|].
  - rewrite list_elem_of_omap. intros (rec & _ & Hrec).
    destruct (rec_Face rec ≫= FaceId) as [id|]; simpl in Hrec; [|discriminate].
    destruct (truthy id) eqn:Hid; simpl in Hrec; [|discriminate].
    injection Hrec as <-. exact Hid.
  - intros H. inversion H.
Qed.

(** Every record of phase 1 carries a non-empty face id. *)
Lemma A_tempFaceRecords_truthy env imgs fr :
  fr ∈ tempFaceRecordsOf env imgs -> truthy (faceId fr) = true.
Proof.
  rewrite A_tempFaceRecords_perm, list_elem_of_bind.
  intros (item & Hfr & _). unfold yieldOf in Hfr.
  destruct (indexFaces env item.1); [|inversion Hfr].
  eapply A_recordsOf_truthy, Hfr.
Qed.

Lemma truthy_group s : truthy ("group_" +:+ s) = true.
Proof. reflexivity. Qed.

Lemma filter_truthy_elem l s : s ∈ filter_truthy l -> truthy s = true.
Proof.
  unfold filter_truthy. rewrite list_elem_of_omap. intros (o & _ & Ho).
  destruct o as [s'|]; simpl in Ho; [|discriminate].
  destruct (truthy s') eqn:Hs; [|discriminate]. congruence.
Qed.

(** One callback of phase 2 records a non-empty group id for its own
    face and changes nothing else in the mapping. *)
Lemma A_searchStep_shape env st item :
  exists gid n,
    searchStep env st item = (<[faceId item.2 := gid]> st.1, n) /\
    truthy gid = true.
Proof.
  unfold searchStep, resolve, newGroup.
  destruct (searchFaces env item.1) as [resp|e].
  - destruct (FaceMatches resp) as [[|m ms]|].
    + eexists _, _. split; [reflexivity|apply truthy_group].
    + destruct (matchedGroupIds st.1 (m :: ms)) as [|gid gids] eqn:Hm.
      * eexists _, _. split; [reflexivity|apply truthy_group].
      * exists gid, st.2. split; [reflexivity|].
        eapply filter_truthy_elem. unfold matchedGroupIds in Hm.
        rewrite Hm. left.
    + eexists _, _. split; [reflexivity|apply truthy_group].
  - eexists _, _. split; [reflexivity|apply truthy_group].
Qed.

Lemma A_wellFormed_fold env l st :
  wellFormed st.1 ->
  (forall item, item ∈ l -> truthy (faceId item.2) = true) ->
  wellFormed (fold_left (searchStep env) l st).1.
Proof.
  revert st. induction l as [|item l IH]; intros st Hst Hl; simpl; [exact Hst|].
  apply IH.
  - destruct (A_searchStep_shape env st item) as (gid & n & -> & Hgid).
    simpl. intros k v. rewrite lookup_insert. case_decide.
    + intros [= <-]. subst k. split; [apply Hl; left|exact Hgid].
    + apply Hst.
  - intros item' Hitem'. apply Hl. right. exact Hitem'.
Qed.

(** A face that phase 2 has processed stays resolved. *)
Lemma A_resolved_fold env l st k :
  is_Some (st.1 !! k) \/ (exists item, item ∈ l /\ faceId item.2 = k) ->
  is_Some ((fold_left (searchStep env) l st).1 !! k).
Proof.
  revert st. induction l as [|item l IH]; intros st H; simpl.
  - destruct H as [H|(item & Hitem & _)]; [exact H|inversion Hitem].
  - apply IH.
    destruct (A_searchStep_shape env st item) as (gid & n & -> & _). simpl.
    destruct (decide (faceId item.2 = k)) as [<-|Hne].
    + left. rewrite lookup_insert_eq. eauto.
    + rewrite lookup_insert_ne by done.
      destruct H as [H|(item' & Hitem' & Hk)]; [left; exact H|].
      apply elem_of_cons in Hitem' as [->|Hitem']; [done|].
      right. eauto.
Qed.

(** At the end of phase 2 every face record has a resolved group id. *)
Lemma A_all_resolved env recs fr :
  fr ∈ recs -> is_Some ((resolvedOf env recs).1 !! faceId fr).
Proof.
  intros Hfr. unfold resolvedOf. apply A_resolved_fold. right.
  apply list_elem_of_lookup in Hfr as [i Hi].
  exists (i, fr). split; [|reflexivity].
  rewrite completed_perm. apply (elem_of_lookup_imap_2 pair _ _ _ Hi).
Qed.
End StrategyA_phases.

(** ** Strategy A: the partition and the tie-break *)

Lemma filter_ext_in {A} (P Q : A -> Prop) `{!forall x, Decision (P x)}
    `{!forall x, Decision (Q x)} (l : list A) :
  (forall x, x ∈ l -> P x <-> Q x) -> filter P l = filter Q l.
Proof.
  induction l as [|x l IH]; intros Hext; [reflexivity|].
  rewrite !filter_cons.
  assert (filter P l = filter Q l) as ->.
  { apply IH. intros y Hy. apply Hext. right. exact Hy. }
  pose proof (Hext x ltac:(left)) as Hx.
  destruct (decide (P x)), (decide (Q x)); tauto.
Qed.

Section StrategyA_partition.
Import StrategyA.

(** C8. Once every face record has a resolved group id, the partition is
    built by one pass over the list of all face records: the bucket of a
    group id holds exactly the records resolved to it, in the order in
    which they appear in that list, and a group id to which no record is
    resolved has no bucket. *)
Theorem A_partition_in_first_seen_order env imgs w :
  let run := detectAndGroupFaces env imgs w in
  let records := allFaceRecords run.2 in
  let faceIdToGroupId := (resolvedOf env records).1 in
  run.1 = Fulfilled tt /\
  (forall fr, fr ∈ records -> is_Some (faceIdToGroupId !! faceId fr)) /\
  faceGroups run.2 = buildGroups records faceIdToGroupId /\
  forall gid,
    faceGroups run.2 !! gid =
    match filter (fun fr => faceIdToGroupId !! faceId fr = Some gid) records with
    | [] => None
    | bucket => Some bucket
    end.
Proof.
  intros run records faceIdToGroupId. subst run records faceIdToGroupId.
  rewrite A_detectAndGroupFaces_run. simpl.
  set (temp := tempFaceRecordsOf env imgs).
  split; [reflexivity|]. split; [apply A_all_resolved|]. split; [reflexivity|].
  intros gid. unfold buildGroups. rewrite lookup_bucket.
  erewrite filter_ext_in; [reflexivity|].
  intros fr Hfr. unfold gidOf.
  destruct (A_all_resolved env temp fr Hfr) as [g ->]. simpl.
  split; congruence.
Qed.

Lemma A_matchedGroupIds_app m l1 l2 :
  matchedGroupIds m (l1 ++ l2) = matchedGroupIds m l1 ++ matchedGroupIds m l2.
Proof.
  unfold matchedGroupIds, filter_truthy.
  rewrite fmap_app, omap_app, fmap_app, omap_app. reflexivity.
Qed.

Lemma A_matchedGroupIds_unassigned (m : gmap string string) pre :
  (forall m' id', m' ∈ pre -> match_Face m' ≫= FaceId = Some id' -> m !! id' = None) ->
  matchedGroupIds m pre = [].
Proof.
  induction pre as [|m' pre IH]; intros H; [reflexivity|].
  change (m' :: pre) with ([m'] ++ pre). rewrite A_matchedGroupIds_app, IH.
  - rewrite app_nil_r. unfold matchedGroupIds, filter_truthy. simpl.
    destruct (match_Face m' ≫= FaceId) as [id'|] eqn:Hid; simpl; [|reflexivity].
    destruct (truthy id'); simpl; [|reflexivity].
    rewrite (H m' id' ltac:(left) Hid). reflexivity.
  - intros m'' id'' Hm''. apply H. right. exact Hm''.
Qed.

Lemma A_matchedGroupIds_assigned (m : gmap string string) mt post id gid :
  match_Face mt ≫= FaceId = Some id -> m !! id = Some gid ->
  truthy id = true -> truthy gid = true ->
  exists gids, matchedGroupIds m (mt :: post) = gid :: gids.
Proof.
  intros Hid Hgid Tid Tgid.
  change (mt :: post) with ([mt] ++ post). rewrite A_matchedGroupIds_app.
  unfold matchedGroupIds at 1. unfold filter_truthy. simpl.
  rewrite Hid. simpl. rewrite Tid. simpl. rewrite Hgid. simpl. rewrite Tgid.
  simpl. eauto.
Qed.

End StrategyA_partition.

(** ** Strategy B: what a grouping pass computes *)

Section StrategyB_runs.
Import StrategyB.

Lemma B_with_issued_app cmds1 cmds2 w :
  with_issued cmds2 (with_issued cmds1 w) = with_issued (cmds1 ++ cmds2) w.
Proof. unfold with_issued. simpl. rewrite app_assoc. reflexivity. Qed.

Lemma B_with_issued_nil w : with_issued [] w = w.
Proof. destruct w. unfold with_issued. simpl. rewrite app_nil_r. reflexivity. Qed.

Lemma B_ensureCollection_run env cid w :
  ensureCollection env cid w =
  (Fulfilled tt, with_issued (ensureCommands (listCollections env) cid) w).
Proof.
  unfold ensureCollection, ensureCommands, send. js_unfold.
  destruct (listCollections env) as [listResponse|e]; [|reflexivity].
  case_bool_decide; [reflexivity|].
  pose proof (B_with_issued_app [ListCollectionsCommand]
                [CreateCollectionCommand cid] w) as Happ.
  destruct (createCollection env) as [[]|e]; simpl in *; congruence.
Qed.

(** The callback of an image never throws: it returns the resolved
    group id and has sent the search and then the index command. *)
Lemma B_imageTask_run env cid item w :
  imageTask env cid item w =
  (Fulfilled {| result_key := key item.2; groupId := groupIdOf env item.1 item.2 |},
   with_issued (commandsOf env cid item.1 item.2) w).
Proof.
  unfold imageTask, commandsOf, groupIdOf, send. js_unfold.
  destruct (searchFacesByImage env item.1) as [searchResponse|e];
    destruct (indexFaces env item.1) as [indexResponse|e'];
    rewrite B_with_issued_app; reflexivity.
Qed.

Lemma B_fold_with_issued {X} (c : X -> list Command) (l : list X) w :
  fold_left (fun w' x => with_issued (c x) w') l w = with_issued (l ≫= c) w.
Proof.
  revert w. induction l as [|x l IH]; intros w; simpl.
  - rewrite B_with_issued_nil. reflexivity.
  - rewrite IH, B_with_issued_app. reflexivity.
Qed.

(** The loop that builds the groups throws exactly when an image is to
    be filed under an inherited name, and else builds [groupsOf]. *)
Lemma B_filing_loop results imgs acc w :
  promise_all_fold (fileUnder results) acc imgs w =
  (if throwsOn results imgs then Rejected pushIsNotAFunction
   else Fulfilled
          (fold_left (fun groups image => push_group (gidOf results image) image groups)
             imgs acc),
   w).
Proof.
  revert acc. induction imgs as [|image imgs IH]; intros acc; [reflexivity|].
  cbn [promise_all_fold throwsOn existsb fold_left].
  unfold mbind, js_bind, fileUnder at 1.
  destruct (inherited (gidOf results image)); [reflexivity|].
  unfold mret, js_ret. cbn [orb]. apply IH.
Qed.

Lemma B_buildGroups_run imgs results w :
  buildGroups imgs results w =
  (if throwsOn results imgs then Rejected pushIsNotAFunction
   else Fulfilled (groupsOf imgs results), w).
Proof. unfold buildGroups, for_of, groupsOf. apply B_filing_loop. Qed.

(** The world left by a grouping pass: the commands are sent in every
    case, the groups are published when the loop over the images
    completes. *)
Lemma B_detectAndGroupFaces_run env imgs w :
  detectAndGroupFaces env imgs w =
  if throwsOn (resultsOf env imgs) imgs then
    (Rejected pushIsNotAFunction,
     with_issued (passCommands env (eventId env) imgs)
       (with_issued (ensureCommands (listCollections env) (eventId env)) w))
  else
    (Fulfilled tt,
     with_faceGroups (fun _ => groupsOf imgs (resultsOf env imgs))
       (with_issued (passCommands env (eventId env) imgs)
          (with_issued (ensureCommands (listCollections env) (eventId env)) w))).
Proof.
  unfold detectAndGroupFaces.
  unfold mbind at 1. unfold js_bind at 1. rewrite B_ensureCollection_run.
  unfold mbind at 1. unfold js_bind at 1.
  rewrite (promise_all_map_run _ _ _ _ _ (B_imageTask_run env (eventId env))).
  rewrite B_fold_with_issued.
  unfold mbind at 1. unfold js_bind at 1. rewrite B_buildGroups_run.
  unfold resultsOf, passCommands. rewrite fmap_imap.
  destruct (throwsOn _ imgs); reflexivity.
Qed.

(** A pass that completes. *)
Lemma B_detectAndGroupFaces_completes env imgs w :
  throwsOn (resultsOf env imgs) imgs = false ->
  detectAndGroupFaces env imgs w =
  (Fulfilled tt,
   with_faceGroups (fun _ => groupsOf imgs (resultsOf env imgs))
     (with_issued (passCommands env (eventId env) imgs)
        (with_issued (ensureCommands (listCollections env) (eventId env)) w))).
Proof. intros H. rewrite B_detectAndGroupFaces_run, H. reflexivity. Qed.

(** The bucket of a group id holds the images resolved to it, in input
    order. *)
Lemma B_lookup_groupsOf imgs results gid :
  groupsOf imgs results !! gid =
  match filter (fun image => gidOf results image = gid) imgs with
  | [] => None
  | bucket => Some bucket
  end.
Proof. unfold groupsOf. apply lookup_bucket. Qed.

Lemma B_elem_of_groupsOf imgs results gid bucket x :
  groupsOf imgs results !! gid = Some bucket ->
  x ∈ bucket <-> gidOf results x = gid /\ x ∈ imgs.
Proof.
  rewrite B_lookup_groupsOf.
  destruct (filter _ imgs) as [|y l] eqn:Hf; intros [= <-].
  rewrite <- Hf, list_elem_of_filter. reflexivity.
Qed.

Lemma B_bucket_of imgs results x :
  x ∈ imgs ->
  exists bucket,
    groupsOf imgs results !! gidOf results x = Some bucket /\ x ∈ bucket.
Proof. apply (bucket_of (gidOf results)). Qed.

(** A minted id is not an inherited name. *)
Lemma inherited_group (s : string) : inherited ("group_" +:+ s) = false.
Proof.
  unfold inherited. apply bool_decide_eq_false. unfold inheritedNames.
  change ("group_" +:+ s)
    with (String "g" (String "r" (String "o" (String "u" (String "p" (String "_" s)))))).
  intros Hin.
  repeat (apply elem_of_cons in Hin as [Heq|Hin]; [discriminate Heq|]).
  inversion Hin.
Qed.

(** With plain tags no resolved id is an inherited name, and no pass
    throws. *)
Lemma B_plain_groupIdOf env i image :
  plainTags env -> inherited (groupIdOf env i image) = false.
Proof.
  intros Hplain. unfold groupIdOf, mint.
  destruct (searchFacesByImage env i) as [searchResponse|e] eqn:Hsearch;
    [|apply inherited_group].
  destruct (truthy (matchedTag image searchResponse)) eqn:Htag;
    [|apply inherited_group].
  unfold matchedTag in *.
  destruct (FaceMatches searchResponse) as [[|m0 matches]|] eqn:Hmatches;
    [discriminate Htag| |discriminate Htag].
  destruct (find (hasOtherTag image) (m0 :: matches)) as [m|] eqn:Hfind;
    [|discriminate Htag].
  apply find_some in Hfind as [Hin _].
  destruct (match_Face m ≫= ExternalImageId) as [tag|] eqn:Hm; [|discriminate Htag].
  simpl. apply (Hplain i searchResponse m tag Hsearch); [|exact Hm].
  rewrite Hmatches. simpl. apply list_elem_of_In. exact Hin.
Qed.

Lemma B_plain_throwsOn env imgs :
  plainTags env -> throwsOn (resultsOf env imgs) imgs = false.
Proof.
  intros Hplain. unfold throwsOn. apply not_true_is_false.
  intros (x & _ & Hx)%existsb_exists.
  unfold gidOf, resultsOf in Hx.
  destruct (find _ _) as [result|] eqn:Hfind.
  - apply find_some in Hfind as [Hin _].
    apply list_elem_of_In, elem_of_lookup_imap_1 in Hin as (j & y & -> & _).
    simpl in Hx. rewrite (B_plain_groupIdOf env j y Hplain) in Hx. discriminate.
  - vm_compute in Hx. discriminate.
Qed.

(** An environment whose searches find no match has plain tags. *)
Lemma B_quiet_plain keys : plainTags (Examples.quietB keys).
Proof. intros i searchResponse m tag [= <-] Hm. inversion Hm. Qed.

Lemma includes_elem arr x : x ∈ arr -> includes arr x = true.
Proof.
  intros Hx. unfold includes. apply existsb_exists. exists x.
  split; [apply list_elem_of_In, Hx|apply Nat.eqb_refl].
Qed.

Lemma B_grouped_elem (groups : gmap string (list EventImage)) gid bucket x :
  groups !! gid = Some bucket -> x ∈ bucket -> x ∈ groupedImages groups.
Proof.
  intros Hg Hx. unfold groupedImages. apply list_elem_of_join.
  exists bucket. split; [exact Hx|].
  apply list_elem_of_fmap. exists (gid, bucket). split; [reflexivity|].
  apply elem_of_map_to_list. exact Hg.
Qed.
End StrategyB_runs.

(** ** Strategy B: the group id of one image *)

Lemma truthy_true_iff s : truthy s = true <-> s ≠ "".
Proof.
  unfold truthy. destruct (String.eqb_spec s ""); simpl; split; congruence.
Qed.

Section StrategyB_group_id.
Import StrategyB.

Lemma B_hasOtherTag_true image m :
  hasOtherTag image m = true <->
  exists tag, match_Face m ≫= ExternalImageId = Some tag /\
              tag ≠ "" /\ tag ≠ key image.
Proof.
  unfold hasOtherTag.
  destruct (match_Face m ≫= ExternalImageId) as [tag|].
  - rewrite andb_true_iff, truthy_true_iff, negb_true_iff.
    destruct (String.eqb_spec tag (key image)); split.
    + intros [_ ?]. discriminate.
    + intros (tag' & [= <-] & _ & Hne). contradiction.
    + intros [? _]. eauto.
    + intros (tag' & [= <-] & ? & _). eauto.
  - split; [discriminate|]. intros (tag & ? & _). discriminate.
Qed.

Lemma B_find_first image pre m post :
  hasOtherTag image m = true ->
  (forall m', m' ∈ pre -> hasOtherTag image m' = false) ->
  find (hasOtherTag image) (pre ++ m :: post) = Some m.
Proof.
  intros Hm. induction pre as [|m' pre IH]; intros Hpre; simpl.
  - rewrite Hm. reflexivity.
  - rewrite (Hpre m') by left. apply IH. intros m'' Hm''. apply Hpre. right.
    exact Hm''.
Qed.

Lemma B_find_none image (matches : list FaceMatch) :
  (forall m, m ∈ matches -> hasOtherTag image m = false) ->
  find (hasOtherTag image) matches = None.
Proof.
  induction matches as [|m l IH]; intros H; simpl; [reflexivity|].
  rewrite (H m) by left. apply IH. intros m' Hm'. apply H. right. exact Hm'.
Qed.

Lemma B_hasOtherTag_false image m :
  (forall tag, match_Face m ≫= ExternalImageId = Some tag ->
               tag = "" \/ tag = key image) ->
  hasOtherTag image m = false.
Proof.
  intros H. destruct (hasOtherTag image m) eqn:Hm; [|reflexivity].
  apply B_hasOtherTag_true in Hm as (tag & Htag & Hne & Hkey).
  destruct (H tag Htag); contradiction.
Qed.

(** C7. The callback of an image never throws.  If the search answers
    with a match whose external tag is set and differs from the key of
    the image, the tag of the first such match is the group id of the
    image; if the search fails or answers with no such match, the group
    id is minted as [group_<timestamp>_<random suffix>].  In every case
    the index command tagged with the resolved group id is sent, after
    the search command. *)
Theorem B_image_group_id env cid i image w :
  let run := imageTask env cid (i, image) w in
  exists gid,
    run.1 = Fulfilled {| result_key := key image; groupId := gid |} /\
    issued run.2 =
      issued w ++
      [SearchFacesByImageCommand cid (S3_BUCKET_NAME env) (key image) 80 10;
       IndexFacesCommand cid (S3_BUCKET_NAME env) (key image) gid] /\
    (forall searchResponse pre m post tag,
       searchFacesByImage env i = Fulfilled searchResponse ->
       FaceMatches searchResponse = Some (pre ++ m :: post) ->
       match_Face m ≫= ExternalImageId = Some tag ->
       tag ≠ "" -> tag ≠ key image ->
       (forall m' tag', m' ∈ pre ->
          match_Face m' ≫= ExternalImageId = Some tag' ->
          tag' = "" \/ tag' = key image) ->
       gid = tag) /\
    ((forall searchResponse m tag,
        searchFacesByImage env i = Fulfilled searchResponse ->
        m ∈ default [] (FaceMatches searchResponse) ->
        match_Face m ≫= ExternalImageId = Some tag ->
        tag = "" \/ tag = key image) ->
     gid = "group_" +:+ pretty (mintNow env i) +:+ "_" +:+ mintRandom env i).
Proof.
  intros run. subst run. rewrite B_imageTask_run. simpl.
  exists (groupIdOf env i image).
  split; [reflexivity|]. split; [reflexivity|]. split.
  - intros searchResponse pre m post tag Hsearch Hmatches Htag Hne Hkey Hpre.
    unfold groupIdOf. rewrite Hsearch. unfold matchedTag. rewrite Hmatches.
    assert (find (hasOtherTag image) (pre ++ m :: post) = Some m) as Hfind.
    { apply B_find_first.
      - apply B_hasOtherTag_true. eauto.
      - intros m' Hm'. apply B_hasOtherTag_false. intros tag'. apply Hpre, Hm'. }
    destruct (pre ++ m :: post) as [|m0 ms] eqn:Happ.
    { destruct pre; discriminate. }
    rewrite Hfind, Htag. simpl.
    apply truthy_true_iff in Hne. rewrite Hne. reflexivity.
  - intros Hnone. unfold groupIdOf.
    destruct (searchFacesByImage env i) as [searchResponse|e]; [|reflexivity].
    unfold matchedTag.
    destruct (FaceMatches searchResponse) as [[|m0 ms]|] eqn:Hmatches;
      [reflexivity| |reflexivity].
    rewrite B_find_none; [reflexivity|].
    intros m Hm. apply B_hasOtherTag_false. intros tag.
    apply (Hnone searchResponse m tag eq_refl). rewrite Hmatches. exact Hm.
Qed.
End StrategyB_group_id.

(** ** Recognition failures *)

Section Failures.

(** A pass under failing recognition calls is, step for step, the pass
    in which those calls answer that nothing was found. *)
Lemma A_degraded_run (env : StrategyA.Env) imgs w :
  StrategyA.detectAndGroupFaces env imgs w =
  StrategyA.detectAndGroupFaces (StrategyA.degraded env) imgs w.
Proof.
  assert (forall acc item,
             StrategyA.indexStep (StrategyA.degraded env) acc item =
             StrategyA.indexStep env acc item) as Hindex.
  { intros acc item. unfold StrategyA.indexStep. simpl.
    destruct (StrategyA.indexFaces env item.1); simpl;
      rewrite ?app_nil_r; reflexivity. }
  assert (forall st item,
             StrategyA.searchStep (StrategyA.degraded env) st item =
             StrategyA.searchStep env st item) as Hsearch.
  { intros st item. unfold StrategyA.searchStep. simpl.
    destruct (StrategyA.searchFaces env item.1); reflexivity. }
  assert (StrategyA.tempFaceRecordsOf (StrategyA.degraded env) imgs =
          StrategyA.tempFaceRecordsOf env imgs) as Htemp.
  { unfold StrategyA.tempFaceRecordsOf. simpl. apply fold_left_ext, Hindex. }
  assert (forall recs, StrategyA.resolvedOf (StrategyA.degraded env) recs =
                       StrategyA.resolvedOf env recs) as Hres.
  { intros recs. unfold StrategyA.resolvedOf. simpl.
    apply fold_left_ext, Hsearch. }
  rewrite !A_detectAndGroupFaces_run. simpl. rewrite Htemp, Hres. reflexivity.
Qed.

Lemma B_degraded_groupIdOf (env : StrategyB.Env) i image :
  StrategyB.groupIdOf (StrategyB.degraded env) i image = StrategyB.groupIdOf env i image.
Proof.
  unfold StrategyB.groupIdOf. simpl.
  destruct (StrategyB.searchFacesByImage env i); reflexivity.
Qed.

Lemma B_degraded_run (env : StrategyB.Env) imgs w :
  StrategyB.detectAndGroupFaces env imgs w =
  StrategyB.detectAndGroupFaces (StrategyB.degraded env) imgs w.
Proof.
  assert (StrategyB.resultsOf (StrategyB.degraded env) imgs =
          StrategyB.resultsOf env imgs) as Hresults.
  { unfold StrategyB.resultsOf. apply imap_ext. intros i x _.
    rewrite B_degraded_groupIdOf. reflexivity. }
  assert (forall cid, StrategyB.passCommands (StrategyB.degraded env) cid imgs =
                      StrategyB.passCommands env cid imgs) as Hcmds.
  { intros cid. unfold StrategyB.passCommands.
    induction (imap pair imgs) as [|item l IH]; [reflexivity|].
    set (cmds := StrategyB.commandsOf) in *.
    change (cmds (StrategyB.degraded env) cid item.1 item.2 ++
              (l ≫= fun it => cmds (StrategyB.degraded env) cid it.1 it.2) =
            cmds env cid item.1 item.2 ++ (l ≫= fun it => cmds env cid it.1 it.2)).
    subst cmds.
    rewrite IH. unfold StrategyB.commandsOf at 1 3.
    rewrite B_degraded_groupIdOf. reflexivity. }
  rewrite !B_detectAndGroupFaces_run. simpl. rewrite Hresults, Hcmds. reflexivity.
Qed.

End Failures.

(** ** Deletion *)

Section Deletion.

(** The three parts of [handleDelete] fit together. *)
Lemma A_handleDelete_split env image w :
  StrategyA.handleDelete env image w =
  StrategyA.handleDelete_settled image (StrategyA.deleteObject env)
    (StrategyA.handleDelete_request env image w).2.
Proof.
  unfold StrategyA.handleDelete, StrategyA.handleDelete_settled,
    StrategyA.handleDelete_request, StrategyA.setDeleting, StrategyA.send.
  js_unfold. reflexivity.
Qed.

Lemma B_handleDelete_split env image w :
  StrategyB.handleDelete env image w =
  StrategyB.handleDelete_settled image (StrategyB.deleteObject env)
    (StrategyB.handleDelete_request env image w).2.
Proof.
  unfold StrategyB.handleDelete, StrategyB.handleDelete_settled,
    StrategyB.handleDelete_request, StrategyB.setDeleting, StrategyB.send.
  js_unfold. reflexivity.
Qed.

(** What settles in strategy A, in any world. *)
Lemma A_handleDelete_settled_run image answer w :
  StrategyA.handleDelete_settled image answer w =
  (Fulfilled tt,
   StrategyA.with_deleting (filter (fun k => k ≠ key image))
     match answer with
     | Fulfilled _ =>
         StrategyA.with_allFaceRecords
           (filter (fun fr => key (StrategyA.image fr) ≠ key image))
           (StrategyA.with_faceGroups (StrategyA.removeFromGroups (key image))
              (StrategyA.with_images (filter (fun img => key img ≠ key image)) w))
     | Rejected _ => w
     end).
Proof.
  unfold StrategyA.handleDelete_settled, StrategyA.handleDelete_removal,
    StrategyA.handleDelete_finally, StrategyA.setDeleting, StrategyA.setImages,
    StrategyA.setFaceGroups, StrategyA.setAllFaceRecords.
  js_unfold. destruct answer as [[]|e]; reflexivity.
Qed.

(** What settles in strategy B, in any world. *)
Lemma B_handleDelete_settled_run image answer w :
  StrategyB.handleDelete_settled image answer w =
  (Fulfilled tt,
   StrategyB.with_deleting (filter (fun k => k ≠ key image))
     match answer with
     | Fulfilled _ =>
         StrategyB.with_faceGroups (StrategyB.removeFromGroups (key image))
           (StrategyB.with_images (filter (fun img => key img ≠ key image)) w)
     | Rejected _ => w
     end).
Proof.
  unfold StrategyB.handleDelete_settled, StrategyB.handleDelete_removal,
    StrategyB.handleDelete_finally, StrategyB.setDeleting, StrategyB.setImages,
    StrategyB.setFaceGroups.
  js_unfold. destruct answer as [[]|e]; reflexivity.
Qed.

(** Strategy A: a group keeps the records of the other images, and a
    group left without records is gone. *)
Lemma A_lookup_removeFromGroups k
    (prev : gmap string (list StrategyA.FaceRecordWithImage)) gid :
  StrategyA.removeFromGroups k prev !! gid =
  match filter (fun fr => key (StrategyA.image fr) ≠ k) <$> prev !! gid with
  | Some [] => None
  | kept => kept
  end.
Proof.
  unfold StrategyA.removeFromGroups.
  destruct (prev !! gid) as [recs|] eqn:Hp; simpl.
  - destruct (filter _ recs) as [|fr l] eqn:Hf.
    + apply map_lookup_filter_None. right. intros x.
      rewrite lookup_fmap, Hp. simpl. rewrite Hf. intros [= <-] Hlen.
      apply Hlen. reflexivity.
    + apply map_lookup_filter_Some. split.
      * rewrite lookup_fmap, Hp. simpl. rewrite Hf. reflexivity.
      * simpl. discriminate.
  - apply map_lookup_filter_None. left. rewrite lookup_fmap, Hp. reflexivity.
Qed.

(** Strategy B: every group keeps its images of other keys, and every
    group stays. *)
Lemma B_lookup_removeFromGroups k (prev : gmap string (list EventImage)) gid :
  StrategyB.removeFromGroups k prev !! gid =
  filter (fun img => key img ≠ k) <$> prev !! gid.
Proof. unfold StrategyB.removeFromGroups. apply lookup_fmap. Qed.

(** A successful delete in strategy A: the image leaves the image set
    and every group, and no group is left empty. *)
Lemma A_delete_success env image w :
  StrategyA.deleteObject env = Fulfilled tt ->
  let w' := (StrategyA.handleDelete env image w).2 in
  StrategyA.images w' = filter (fun img => key img ≠ key image) (StrategyA.images w) /\
  (forall gid bucket,
     StrategyA.faceGroups w' !! gid = Some bucket ->
     bucket ≠ [] /\
     exists recs, StrategyA.faceGroups w !! gid = Some recs /\
       bucket = filter (fun fr => key (StrategyA.image fr) ≠ key image) recs) /\
  (forall gid recs,
     StrategyA.faceGroups w !! gid = Some recs ->
     filter (fun fr => key (StrategyA.image fr) ≠ key image) recs = [] ->
     StrategyA.faceGroups w' !! gid = None).
Proof.
  intros Hok w'. subst w'.
  rewrite A_handleDelete_split, A_handleDelete_settled_run, Hok. simpl.
  split; [reflexivity|]. split.
  - intros gid bucket. rewrite A_lookup_removeFromGroups.
    destruct (StrategyA.faceGroups w !! gid) as [recs|]; simpl; [|discriminate].
    destruct (filter _ recs) as [|fr l] eqn:Hf; [discriminate|].
    intros [= <-]. split; [discriminate|]. exists recs. rewrite Hf. done.
  - intros gid recs Hrecs Hempty. rewrite A_lookup_removeFromGroups, Hrecs.
    simpl. rewrite Hempty. reflexivity.
Qed.

(** A successful delete in strategy B: the image leaves the image set and
    the member list of every group, and every group stays, with the
    members it has left, if any. *)
Lemma B_delete_success env image w :
  StrategyB.deleteObject env = Fulfilled tt ->
  let w' := (StrategyB.handleDelete env image w).2 in
  StrategyB.images w' = filter (fun img => key img ≠ key image) (StrategyB.images w) /\
  forall gid,
    StrategyB.faceGroups w' !! gid =
    filter (fun img => key img ≠ key image) <$> StrategyB.faceGroups w !! gid.
Proof.
  intros Hok w'. subst w'.
  rewrite B_handleDelete_split, B_handleDelete_settled_run, Hok. simpl.
  split; [reflexivity|]. intros gid. apply B_lookup_removeFromGroups.
Qed.


(** C4, as the code has it.  The removal from the image set and from
    the groups is applied after the storage delete has succeeded.  When
    the storage delete fails, the image set and the groups are left as
    they were; in both cases the handler ends normally. *)
Theorem removal_follows_the_storage_delete :
  (forall (env : StrategyA.Env) image w,
     let w' := (StrategyA.handleDelete env image w).2 in
     (StrategyA.handleDelete env image w).1 = Fulfilled tt /\
     match StrategyA.deleteObject env with
     | Fulfilled _ =>
         StrategyA.images w' =
           filter (fun img => key img ≠ key image) (StrategyA.images w) /\
         StrategyA.faceGroups w' =
           StrategyA.removeFromGroups (key image) (StrategyA.faceGroups w) /\
         StrategyA.allFaceRecords w' =
           filter (fun fr => key (StrategyA.image fr) ≠ key image)
             (StrategyA.allFaceRecords w)
     | Rejected _ =>
         StrategyA.images w' = StrategyA.images w /\
         StrategyA.faceGroups w' = StrategyA.faceGroups w /\
         StrategyA.allFaceRecords w' = StrategyA.allFaceRecords w
     end) /\
  (forall (env : StrategyB.Env) image w,
     let w' := (StrategyB.handleDelete env image w).2 in
     (StrategyB.handleDelete env image w).1 = Fulfilled tt /\
     match StrategyB.deleteObject env with
     | Fulfilled _ =>
         StrategyB.images w' =
           filter (fun img => key img ≠ key image) (StrategyB.images w) /\
         StrategyB.faceGroups w' =
           StrategyB.removeFromGroups (key image) (StrategyB.faceGroups w)
     | Rejected _ =>
         StrategyB.images w' = StrategyB.images w /\
         StrategyB.faceGroups w' = StrategyB.faceGroups w
     end).
Proof.
  split; intros env image w w'; subst w'.
  - rewrite A_handleDelete_split, A_handleDelete_settled_run.
    destruct (StrategyA.deleteObject env); simpl; auto.
  - rewrite B_handleDelete_split, B_handleDelete_settled_run.
    destruct (StrategyB.deleteObject env); simpl; auto.
Qed.
End Deletion.

(** ** Listing the images of the event *)

Lemma key_imageItems bucket first keys :
  key <$> imageItems bucket first keys = keys.
Proof.
  unfold imageItems. rewrite fmap_imap.
  revert first. induction keys as [|k keys IH]; intros first; [reflexivity|].
  simpl. f_equal. rewrite <- (IH (S first)) at 2.
  apply imap_ext. intros j x _. simpl. f_equal.
Qed.

Lemma fst_imap_pair {A} (l : list A) : (imap pair l).*1 = seq 0 (length l).
Proof.
  rewrite fmap_imap. induction l as [|x l IH] using rev_ind; [reflexivity|].
  rewrite imap_app, length_app. simpl.
  replace (length l + 1) with (S (length l)) by lia.
  rewrite seq_S, IH. simpl. rewrite Nat.add_0_r. reflexivity.
Qed.

Lemma listedKeys_snoc listObjects positions i :
  listedKeys listObjects (positions ++ [i]) =
  listedKeys listObjects positions ++
  match listObjects i with
  | Fulfilled result => imageKeys (default [] (Contents result))
  | Rejected _ => []
  end.
Proof. unfold listedKeys. rewrite bind_app, bind_singleton. reflexivity. Qed.

Lemma lastListError_snoc listObjects positions i :
  lastListError listObjects (positions ++ [i]) =
  match listObjects i with
  | Fulfilled _ => lastListError listObjects positions
  | Rejected e => Some e
  end.
Proof.
  unfold lastListError. rewrite omap_app. simpl.
  destruct (listObjects i) as [r|e]; simpl.
  - rewrite app_nil_r. reflexivity.
  - apply last_snoc.
Qed.

Section StrategyA_listing.
Import StrategyA.

(** The loop over the prefixes never throws; it gathers the listed
    image keys in order, keeps the last error and leaves the image set
    of the component alone. *)
Lemma A_listing_loop env items st w :
  exists st' w',
    promise_all_fold (listPrefix env) st items w = (Fulfilled st', w') /\
    key <$> st'.1 = (key <$> st.1) ++ listedKeys (listObjects env) items.*1 /\
    st'.2 = match lastListError (listObjects env) items.*1 with
            | Some e => Some e
            | None => st.2
            end /\
    images w' = images w.
Proof.
  induction items as [|item items IH] using rev_ind.
  - exists st, w. simpl. rewrite app_nil_r. auto.
  - destruct IH as (st1 & w1 & Hrun & Hkeys & Herr & Himg).
    rewrite promise_all_fold_app, Hrun. simpl.
    rewrite fmap_app. change (fst <$> [item]) with [item.1].
    rewrite listedKeys_snoc, lastListError_snoc.
    unfold listPrefix, send, alloc. js_unfold.
    destruct (listObjects env item.1) as [result|e]; simpl.
    + destruct (Contents result) as [contents|]; simpl.
      * eexists _, _. split; [reflexivity|]. simpl.
        rewrite fmap_app, key_imageItems, Hkeys, app_assoc. auto.
      * eexists _, _. split; [reflexivity|]. simpl.
        rewrite Hkeys, !app_nil_r. auto.
    + eexists _, _. split; [reflexivity|]. simpl.
      rewrite Hkeys, !app_nil_r. auto.
Qed.

Lemma A_listPrefixes_run env prefixes w :
  exists allImages w',
    listPrefixes env prefixes w =
      (Fulfilled (allImages,
                  lastListError (listObjects env) (seq 0 (length prefixes))), w') /\
    key <$> allImages = listedKeys (listObjects env) (seq 0 (length prefixes)) /\
    images w' = images w.
Proof.
  unfold listPrefixes, for_of.
  destruct (A_listing_loop env (imap pair prefixes) ([], None) w)
    as ([allImages fetchError] & w' & Hrun & Hkeys & Herr & Himg).
  rewrite fst_imap_pair in *. simpl in *.
  exists allImages, w'. rewrite Hrun, Herr.
  destruct (lastListError _ _); auto.
Qed.

End StrategyA_listing.

Section StrategyB_listing.
Import StrategyB.

(** The loop over the prefixes never throws; it gathers the listed
    image keys in order, keeps the last error and leaves the image set
    of the component alone. *)
Lemma B_listing_loop env items st w :
  exists st' w',
    promise_all_fold (listPrefix env) st items w = (Fulfilled st', w') /\
    key <$> st'.1 = (key <$> st.1) ++ listedKeys (listObjects env) items.*1 /\
    st'.2 = match lastListError (listObjects env) items.*1 with
            | Some e => Some e
            | None => st.2
            end /\
    images w' = images w.
Proof.
  induction items as [|item items IH] using rev_ind.
  - exists st, w. simpl. rewrite app_nil_r. auto.
  - destruct IH as (st1 & w1 & Hrun & Hkeys & Herr & Himg).
    rewrite promise_all_fold_app, Hrun. simpl.
    rewrite fmap_app. change (fst <$> [item]) with [item.1].
    rewrite listedKeys_snoc, lastListError_snoc.
    unfold listPrefix, send, alloc. js_unfold.
    destruct (listObjects env item.1) as [result|e]; simpl.
    + destruct (Contents result) as [contents|]; simpl.
      * eexists _, _. split; [reflexivity|]. simpl.
        rewrite fmap_app, key_imageItems, Hkeys, app_assoc. auto.
      * eexists _, _. split; [reflexivity|]. simpl.
        rewrite Hkeys, !app_nil_r. auto.
    + eexists _, _. split; [reflexivity|]. simpl.
      rewrite Hkeys, !app_nil_r. auto.
Qed.

Lemma B_listPrefixes_run env prefixes w :
  exists allImages w',
    listPrefixes env prefixes w =
      (Fulfilled (allImages,
                  lastListError (listObjects env) (seq 0 (length prefixes))), w') /\
    key <$> allImages = listedKeys (listObjects env) (seq 0 (length prefixes)) /\
    images w' = images w.
Proof.
  unfold listPrefixes, for_of.
  destruct (B_listing_loop env (imap pair prefixes) ([], None) w)
    as ([allImages fetchError] & w' & Hrun & Hkeys & Herr & Himg).
  rewrite fst_imap_pair in *. simpl in *.
  exists allImages, w'. rewrite Hrun, Herr.
  destruct (lastListError _ _); auto.
Qed.

End StrategyB_listing.

(** ** Upload progress *)

Lemma percentage_range progress :
  reported progress -> (0 <= percentage progress <= 100)%Z.
Proof.
  intros (l & t & Hl & Ht & Hrange). unfold percentage, round_div, or_default.
  rewrite Hl, Ht.
  destruct (Z.eqb_spec l 0) as [->|Hl0]; destruct (Z.eqb_spec t 0) as [->|Ht0].
  - split; [apply Z.div_pos; lia|]. apply Z.lt_succ_r, Z.div_lt_upper_bound; lia.
  - split; [apply Z.div_pos; lia|]. apply Z.lt_succ_r, Z.div_lt_upper_bound; lia.
  - lia.
  - split; [apply Z.div_pos; lia|]. apply Z.lt_succ_r, Z.div_lt_upper_bound; lia.
Qed.

Lemma percentage_mono p q :
  reported p -> advances p q -> (percentage p <= percentage q)%Z.
Proof.
  intros (l & t & Hl & Ht & Hrange) (Htotal & l1 & l2 & Hl1 & Hl2 & Hle).
  unfold percentage, round_div, or_default.
  rewrite <- Htotal, Hl1, Hl2, Ht. rewrite Hl1 in Hl. injection Hl as ->.
  assert (0 < 2 * (if (t =? 0)%Z then 1 else t))%Z as Hpos.
  { destruct (Z.eqb_spec t 0); lia. }
  apply Z.div_le_mono; [exact Hpos|].
  destruct (Z.eqb_spec l 0), (Z.eqb_spec l2 0); lia.
Qed.

Lemma Sorted_percentage (ps : list Progress) :
  Forall reported ps -> Sorted advances ps -> Sorted Z.le (percentage <$> ps).
Proof.
  intros Hrep Hsorted. induction Hsorted as [|p ps Hps IH Hhd]; simpl.
  - constructor.
  - apply Forall_cons in Hrep as [Hp Hrep]. constructor; [apply IH, Hrep|].
    destruct Hhd as [|q ps' Hpq]; simpl; constructor.
    apply percentage_mono; assumption.
Qed.

Lemma await_all_state {S} (ps : list (outcome unit)) (s : S) :
  (await_all ps s).2 = s.
Proof.
  induction ps as [|p ps IH]; [reflexivity|].
  simpl. js_unfold. destruct p as [[]|e]; [exact IH|reflexivity].
Qed.

Lemma A_progress_loop events w :
  exists w',
    promise_all_fold (fun (_ : unit) (ev : nat * Progress) => StrategyA.onProgress ev.2)
      tt events w = (Fulfilled tt, w') /\
    StrategyA.progressTrace w' =
      StrategyA.progressTrace w ++ (percentage <$> events.*2).
Proof.
  rewrite (promise_all_fold_run _ (fun _ _ => tt)
             (fun ev => StrategyA.with_uploadProgress (percentage ev.2)))
    by reflexivity.
  eexists. split.
  - f_equal. induction events; simpl; auto.
  - revert w. induction events as [|ev events IH]; intros w; simpl.
    + rewrite app_nil_r. reflexivity.
    + rewrite IH. simpl. rewrite <- app_assoc. reflexivity.
Qed.

Lemma B_progress_loop events w :
  exists w',
    promise_all_fold (fun (_ : unit) (ev : nat * Progress) => StrategyB.onProgress ev.2)
      tt events w = (Fulfilled tt, w') /\
    StrategyB.progressTrace w' =
      StrategyB.progressTrace w ++ (percentage <$> events.*2).
Proof.
  rewrite (promise_all_fold_run _ (fun _ _ => tt)
             (fun ev => StrategyB.with_uploadProgress (percentage ev.2)))
    by reflexivity.
  eexists. split.
  - f_equal. induction events; simpl; auto.
  - revert w. induction events as [|ev events IH]; intros w; simpl.
    + rewrite app_nil_r. reflexivity.
    + rewrite IH. simpl. rewrite <- app_assoc. reflexivity.
Qed.

(** The values passed to [setUploadProgress] during the uploads of a
    batch are the percentages of its events, in arrival order. *)
Lemma A_uploadAll_trace env files w :
  StrategyA.progressTrace (StrategyA.uploadAll env files w).2 =
  StrategyA.progressTrace w ++ (percentage <$> (StrategyA.uploadEvents env).*2).
Proof.
  unfold StrategyA.uploadAll, StrategyA.start_uploads. js_unfold.
  destruct (A_progress_loop (StrategyA.uploadEvents env)
              (StrategyA.with_uploads (imap (StrategyA.newUpload env) files) w))
    as (w' & -> & Htrace).
  rewrite await_all_state. exact Htrace.
Qed.

Lemma B_uploadAll_trace env files w :
  StrategyB.progressTrace (StrategyB.uploadAll env files w).2 =
  StrategyB.progressTrace w ++ (percentage <$> (StrategyB.uploadEvents env).*2).
Proof.
  unfold StrategyB.uploadAll, StrategyB.start_uploads. js_unfold.
  destruct (B_progress_loop (StrategyB.uploadEvents env)
              (StrategyB.with_uploads (imap (StrategyB.newUpload env) files) w))
    as (w' & -> & Htrace).
  rewrite await_all_state. exact Htrace.
Qed.

(** C9, as the code has it.  During the uploads of one batch, each value
    passed to the presentation layer is the rounded percentage of the one
    event that raised it.  When every event reports [0 <= loaded <= total]
    the values lie in 0..100, and along the events of any one file, whose
    total stays the same and whose loaded count does not decrease, the
    values do not decrease. *)
Theorem upload_progress_is_per_file (events : list (nat * Progress)) :
  Forall (fun ev => reported ev.2) events ->
  (forall (env : StrategyA.Env) files w,
     StrategyA.uploadEvents env = events ->
     StrategyA.progressTrace (StrategyA.uploadAll env files w).2 =
     StrategyA.progressTrace w ++ (percentage <$> events.*2)) /\
  (forall (env : StrategyB.Env) files w,
     StrategyB.uploadEvents env = events ->
     StrategyB.progressTrace (StrategyB.uploadAll env files w).2 =
     StrategyB.progressTrace w ++ (percentage <$> events.*2)) /\
  Forall (fun v => 0 <= v <= 100)%Z (percentage <$> events.*2) /\
  forall i, Sorted advances (eventsOf i events) ->
            Sorted Z.le (percentage <$> eventsOf i events).
Proof.
  intros Hrep. repeat split.
  - intros env files w <-. apply A_uploadAll_trace.
  - intros env files w <-. apply B_uploadAll_trace.
  - rewrite Forall_fmap, Forall_fmap. eapply Forall_impl; [exact Hrep|].
    intros ev Hev. simpl. apply percentage_range, Hev.
  - intros i. apply Sorted_percentage. unfold eventsOf.
    rewrite Forall_fmap. apply Forall_forall. intros ev Hev.
    apply list_elem_of_filter in Hev as [_ Hev]. simpl.
    rewrite Forall_forall in Hrep. apply Hrep, Hev.
Qed.

(** C9, as stated, fails.  In a batch of two files whose events
    interleave, the first file reports 90% and then the second reports
    10%: the value passed to the presentation layer drops from 90 to 10
    while the batch is still uploading. *)
Lemma upload_progress_drops_between_files :
  let trace :=
    StrategyA.progressTrace
      (StrategyA.uploadAll Examples.twinsA Examples.twoFiles Examples.loadedA).2 in
  trace = [90; 10; 100; 100]%Z /\ ~ Sorted Z.le trace.
Proof.
  assert (StrategyA.progressTrace
            (StrategyA.uploadAll Examples.twinsA Examples.twoFiles Examples.loadedA).2
          = [90; 10; 100; 100]%Z) as Htrace by (vm_compute; reflexivity).
  intros trace. subst trace. rewrite Htrace. split; [reflexivity|].
  intros Hsorted. inversion Hsorted as [|? ? _ Hhd]; subst.
  inversion Hhd as [|? ? Hle]; subst. lia.
Qed.

Lemma upload_progress_is_per_file_witness :
  Forall (fun ev : nat * Progress => reported ev.2)
    (StrategyA.uploadEvents Examples.twinsA) /\
  Forall (fun v => 0 <= v <= 100)%Z
    (percentage <$> (StrategyA.uploadEvents Examples.twinsA).*2) /\
  Sorted Z.le (percentage <$> eventsOf 1 (StrategyA.uploadEvents Examples.twinsA)).
Proof.
  assert (Forall (fun ev : nat * Progress => reported ev.2)
            (StrategyA.uploadEvents Examples.twinsA)) as Hrep.
  { repeat constructor; eexists _, _; simpl; (split; [reflexivity|]);
      (split; [reflexivity|]); lia. }
  split; [exact Hrep|].
  destruct (upload_progress_is_per_file (StrategyA.uploadEvents Examples.twinsA) Hrep)
    as (_ & _ & Hrange & Hmono).
  split; [exact Hrange|]. apply Hmono.
  repeat constructor; simpl; eexists _, _; (split; [reflexivity|]);
    (split; [reflexivity|]); lia.
Defined.

(** ** The partition published by strategy B *)

Section StrategyB_partition.
Import StrategyB.

Lemma filter_none {A} (p : A -> bool) (l : list A) :
  (forall x, x ∈ l -> p x = false) -> List.filter p l = [].
Proof.
  induction l as [|x l IH]; intros H; simpl; [reflexivity|].
  rewrite (H x) by left. apply IH. intros y Hy. apply H. right. exact Hy.
Qed.

(** After a grouping pass that completes over the image list that the
    component holds, as in a load, every image of the list is a member of
    exactly one group, as often as it occurs in the list, and the bucket
    of other images is empty. *)
Lemma B_pass_partitions_its_input env imgs w :
  images w = imgs ->
  throwsOn (resultsOf env imgs) imgs = false ->
  let run := detectAndGroupFaces env imgs w in
  run.1 = Fulfilled tt /\
  images run.2 = imgs /\
  ungrouped run.2 = [] /\
  forall x, x ∈ imgs ->
    exists gid bucket,
      faceGroups run.2 !! gid = Some bucket /\ x ∈ bucket /\
      (NoDup imgs -> NoDup bucket) /\
      (forall y, y ∈ bucket -> y ∈ imgs) /\
      forall gid' bucket',
        faceGroups run.2 !! gid' = Some bucket' -> x ∈ bucket' -> gid' = gid.
Proof.
  intros Himgs Hplain run. subst run.
  rewrite (B_detectAndGroupFaces_completes env imgs w Hplain). simpl.
  split; [reflexivity|]. split; [exact Himgs|].
  assert (forall x, x ∈ imgs ->
            exists gid bucket,
              groupsOf imgs (resultsOf env imgs) !! gid = Some bucket /\
              x ∈ bucket /\ (NoDup imgs -> NoDup bucket) /\
              (forall y, y ∈ bucket -> y ∈ imgs) /\
              forall gid' bucket',
                groupsOf imgs (resultsOf env imgs) !! gid' = Some bucket' ->
                x ∈ bucket' -> gid' = gid) as Hpart.
  { intros x Hx.
    destruct (B_bucket_of imgs (resultsOf env imgs) x Hx) as (bucket & Hb & Hin).
    exists (gidOf (resultsOf env imgs) x), bucket.
    split; [exact Hb|]. split; [exact Hin|]. split; [|split].
    - intros Hnd. rewrite B_lookup_groupsOf in Hb.
      destruct (filter _ imgs) as [|y l] eqn:Hf; [discriminate|].
      injection Hb as <-. rewrite <- Hf. apply NoDup_filter, Hnd.
    - intros y Hy. apply (B_elem_of_groupsOf _ _ _ _ y Hb), Hy.
    - intros gid' bucket' Hb' Hx'.
      apply (B_elem_of_groupsOf _ _ _ _ x Hb') in Hx' as [<- _]. reflexivity. }
  split; [|exact Hpart].
  unfold ungrouped. simpl. rewrite Himgs. apply filter_none.
  intros x Hx. destruct (Hpart x Hx) as (gid & bucket & Hb & Hin & _).
  rewrite (includes_elem _ x); [reflexivity|].
  eapply B_grouped_elem; eassumption.
Qed.

Lemma await_all_fulfilled {S} (ps : list (outcome unit)) (s : S) :
  Forall (fun p => p = Fulfilled tt) ps -> await_all ps s = (Fulfilled tt, s).
Proof.
  induction 1 as [|p ps -> _ IH]; [reflexivity|].
  simpl. js_unfold. exact IH.
Qed.

(** The uploads of a batch end normally when every file arrives. *)
Lemma B_uploadAll_fulfilled env files w :
  (forall i, uploadDone env i = Fulfilled tt) ->
  (uploadAll env files w).1 = Fulfilled tt.
Proof.
  intros Hdone. unfold uploadAll, start_uploads.
  unfold mbind at 1. unfold js_bind at 1. unfold modify at 1.
  unfold mbind at 1. unfold js_bind at 1. unfold for_of.
  destruct (B_progress_loop (uploadEvents env)
              (with_uploads (imap (newUpload env) files) w)) as (w2 & -> & _).
  rewrite await_all_fulfilled; [reflexivity|].
  apply Forall_forall. intros p Hp.
  apply elem_of_lookup_imap_1 in Hp as (i & x & -> & _). apply Hdone.
Qed.

(** A load always ends normally. *)
Lemma B_fetch_ends_normally env prefixes w :
  (fetchEventImagesFrom env prefixes w).1 = Fulfilled tt.
Proof.
  destruct (B_listPrefixes_run env prefixes w) as (allImages & w1 & Hrun & _ & _).
  unfold fetchEventImagesFrom, try_finally, try_catch.
  unfold mbind at 1. unfold js_bind at 1. rewrite Hrun. simpl.
  destruct allImages as [|image allImages]; simpl.
  - destruct (lastListError _ _) as [e|]; reflexivity.
  - unfold setImages, setError, setLoading. js_unfold.
    rewrite B_detectAndGroupFaces_run.
    destruct (throwsOn _ _); reflexivity.
Qed.

(** After an upload whose files all arrive, the groups published by a
    second pass that completes are those of a pass over the image list
    that the component held when the handler started, whatever the
    refresh has listed in the meantime. *)
Lemma B_upload_regroups_the_captured_list env env' file files userEmail w :
  truthy_opt userEmail <> None ->
  (forall i, uploadDone env i = Fulfilled tt) ->
  throwsOn (resultsOf env' (images w)) (images w) = false ->
  let run := handleFileChange env env' (Some (file :: files)) userEmail w in
  run.1 = Fulfilled tt /\
  faceGroups run.2 = groupsOf (images w) (resultsOf env' (images w)).
Proof.
  intros Hemail Hdone Hplain run. subst run.
  destruct (handleFileChange env env' (Some (file :: files)) userEmail w)
    as [o w'] eqn:Hrun.
  unfold handleFileChange, handleFileChange_of in Hrun.
  destruct (truthy_opt userEmail) as [email|]; [clear Hemail|contradiction].
  unfold fetchEventImages, setUploading, setUploadProgress in Hrun. js_unfold.
  pose proof (B_uploadAll_fulfilled env (file :: files) (with_uploading true w) Hdone)
    as Hup.
  destruct (uploadAll env (file :: files) (with_uploading true w)) as [o1 w1].
  simpl in Hup. subst o1.
  pose proof (B_fetch_ends_normally env
                ["events/shared/" +:+ default (eventId env) (truthy_opt (selectedEvent env))
                 +:+ "/images"] w1) as Hfetch.
  destruct (fetchEventImagesFrom env _ w1) as [o2 w2]. simpl in Hfetch. subst o2.
  rewrite (B_detectAndGroupFaces_completes env' (images w) w2 Hplain) in Hrun.
  injection Hrun as <- <-.
  split; reflexivity.
Qed.

(** C1, at the input on which the code breaks it.  The event holds one
    photo, which the first load puts in a group, with no other image
    left over.  The user then uploads a second photo.  The upload handler
    refreshes the image set and then runs one more grouping pass over
    the image list of the render in which it was created.  That pass
    publishes a partition built from the objects of the first load,
    while the image set now holds the objects of the refresh; the
    filter of the other images compares objects, so the first photo is
    shown as the member of its group and again among the other images. *)
Theorem B_upload_shows_a_grouped_photo_among_the_other_images :
  images Examples.loadedB = [Examples.photoA] /\
  faceGroups Examples.loadedB !! "group_1700000000000_k3x9qz"
    = Some [Examples.photoA] /\
  ungrouped Examples.loadedB = [] /\
  faceGroups Examples.uploadedB !! "group_1700000000000_k3x9qz"
    = Some [Examples.photoA] /\
  key <$> ungrouped Examples.uploadedB = [Examples.keyA; Examples.keyB] /\
  exists x y,
    x ∈ images Examples.loadedB /\
    x ∈ groupedImages (faceGroups Examples.uploadedB) /\
    y ∈ ungrouped Examples.uploadedB /\
    key x = key y.
Proof.
  assert (ungrouped Examples.uploadedB =
          [{| oid := 1; url := url Examples.photoA; key := Examples.keyA |};
           {| oid := 2; url := "https://bucket.s3.amazonaws.com/" +:+ Examples.keyB;
              key := Examples.keyB |}]) as Hother by (vm_compute; reflexivity).
  assert (groupedImages (faceGroups Examples.uploadedB) = [Examples.photoA])
    as Hgrouped by (vm_compute; reflexivity).
  assert (images Examples.loadedB = [Examples.photoA]) as Himages
      by (vm_compute; reflexivity).
  split; [exact Himages|].
  split; [vm_compute; reflexivity|].
  split; [vm_compute; reflexivity|].
  split; [vm_compute; reflexivity|].
  split; [rewrite Hother; reflexivity|].
  eexists Examples.photoA, _.
  rewrite Himages, Hgrouped, Hother.
  split; [left|]. split; [left|]. split; [left|]. reflexivity.
Qed.

(** C3, as stated, fails.  In strategy B the only member of a group is
    deleted and the storage delete succeeds: the image leaves the image
    set and the member list of its group, and the group stays in the
    partition with no member. *)
Lemma B_delete_leaves_an_empty_group :
  let w' := (handleDelete (Examples.quietB [Examples.keyA]) Examples.photoA
               Examples.loadedB).2 in
  faceGroups Examples.loadedB !! "group_1700000000000_k3x9qz"
    = Some [Examples.photoA] /\
  images w' = [] /\
  faceGroups w' !! "group_1700000000000_k3x9qz" = Some [].
Proof. vm_compute. auto. Qed.
End StrategyB_partition.

(** C4, as stated, fails.  The storage delete of a photo fails: the photo
    is still in the image set and its face record is still in its group
    when the handler has finished. *)
Lemma failed_delete_keeps_the_image :
  let w' := (StrategyA.handleDelete Examples.twinsA Examples.photoA
               Examples.loadedA).2 in
  StrategyA.deleteObject Examples.twinsA = Rejected Examples.failure /\
  Examples.photoA ∈ StrategyA.images w' /\
  exists bucket,
    StrategyA.faceGroups w' !! "group_1" = Some bucket /\ Examples.face0 ∈ bucket.
Proof.
  assert (StrategyA.images
            (StrategyA.handleDelete Examples.twinsA Examples.photoA
               Examples.loadedA).2 = [Examples.photoA; Examples.photoB]) as Himages
      by (vm_compute; reflexivity).
  assert (StrategyA.faceGroups
            (StrategyA.handleDelete Examples.twinsA Examples.photoA
               Examples.loadedA).2 !! "group_1"
          = Some [Examples.face0; Examples.face1]) as Hgroup
      by (vm_compute; reflexivity).
  intros w'. subst w'. rewrite Himages, Hgroup.
  split; [reflexivity|]. split; [left|]. eexists. split; [reflexivity|left].
Qed.



Lemma B_image_group_id_witness :
  (StrategyB.imageTask Examples.matchingB "party" (0, Examples.photo 0 "a.jpg")
     StrategyB.initial).1
  = Fulfilled {| StrategyB.result_key := "a.jpg"; StrategyB.groupId := "group_1_x" |}.
Proof.
  destruct (B_image_group_id Examples.matchingB "party" 0 (Examples.photo 0 "a.jpg")
              StrategyB.initial) as (gid & Hrun & _ & Hadopt & _).
  rewrite Hrun. f_equal. f_equal.
  apply (Hadopt _ [Examples.tagged "a.jpg"] (Examples.tagged "group_1_x")
           [Examples.tagged "group_2_y"] "group_1_x" eq_refl eq_refl eq_refl).
  - discriminate.
  - discriminate.
  - intros m' tag' Hm' Htag'. apply list_elem_of_singleton in Hm'. subst m'.
    injection Htag' as <-. right. reflexivity.
Defined.

(** ** Worked examples *)

Example is_image_key_examples :
  is_image_key "events/shared/e/images/1-a.JPG" = true /\
  is_image_key "a.jpeg" = true /\
  is_image_key "a.Png" = true /\
  is_image_key "a.png.txt" = false /\
  is_image_key "jpg" = false /\
  is_image_key "a.gif" = false.
Proof. repeat split; reflexivity. Qed.

(** Halves round up; a missing total counts as 1 and a missing loaded
    count as 0. *)
Example percentage_examples :
  percentage {| loaded := Some 1; total := Some 200 |}%Z = 1%Z /\
  percentage {| loaded := Some 1; total := Some 201 |}%Z = 0%Z /\
  percentage {| loaded := Some 512; total := Some 1024 |}%Z = 50%Z /\
  percentage {| loaded := None; total := Some 1024 |}%Z = 0%Z /\
  percentage {| loaded := Some 0; total := Some 0 |}%Z = 0%Z /\
  percentage {| loaded := Some 7; total := None |}%Z = 700%Z.
Proof. repeat split; reflexivity. Qed.

(** Photos a and b show the same person and c another one: a and b end in
    one group, c in its own. *)
Example A_two_alike_and_a_stranger :
  Examples.groupsOfTrio
    (fun j => match j with
              | 0 => Some ["face-1"]
              | 1 => Some ["face-0"]
              | _ => Some []
              end)
  = ([Some ["a.jpg"; "b.jpg"]; Some ["c.jpg"]; None], 2).
Proof. vm_compute. reflexivity. Qed.

(** The search for b fails while a and c find no match: three groups. *)
Example A_failed_search_gets_its_own_group :
  Examples.groupsOfTrio
    (fun j => match j with
              | 1 => None
              | _ => Some []
              end)
  = ([Some ["a.jpg"]; Some ["b.jpg"]; Some ["c.jpg"]], 3).
Proof. vm_compute. reflexivity. Qed.

(** The first match with an assigned group wins, not the best group. *)
Example A_first_assigned_match_wins :
  Examples.groupsOfTrio
    (fun j => match j with
              | 2 => Some ["face-7"; "face-1"; "face-0"]
              | _ => Some []
              end)
  = ([Some ["a.jpg"]; Some ["b.jpg"; "c.jpg"]; None], 2).
Proof. vm_compute. reflexivity. Qed.

(** Matches tagged with the image's own key or with no tag are skipped;
    the first other tag is taken. *)
Example B_first_other_tag_wins :
  StrategyB.matchedTag (Examples.photo 0 "a.jpg")
    {| FaceMatches :=
         Some [Examples.tagged "a.jpg"; Examples.tagged ""; {| match_Face := None |};
               Examples.tagged "group_1_x"; Examples.tagged "group_2_y"] |}
  = "group_1_x".
Proof. reflexivity. Qed.

(** * Further properties of the component *)

(** ** Strings *)

Lemma append_cons (x : ascii) (a b : string) : String x a +:+ b = String x (a +:+ b).
Proof. reflexivity. Qed.

Lemma append_nil_l (b : string) : "" +:+ b = b.
Proof. reflexivity. Qed.

Lemma append_assoc (a b c : string) : (a +:+ b) +:+ c = a +:+ (b +:+ c).
Proof.
  induction a as [|x a IH]; [reflexivity|]. rewrite !append_cons, IH. reflexivity.
Qed.

Lemma append_nil_r (a : string) : a +:+ "" = a.
Proof.
  induction a as [|x a IH]; [reflexivity|]. rewrite append_cons, IH. reflexivity.
Qed.

Lemma length_append (a b : string) :
  String.length (a +:+ b) = String.length a + String.length b.
Proof.
  induction a as [|x a IH]; [reflexivity|]. rewrite append_cons. simpl.
  rewrite IH. reflexivity.
Qed.

Lemma lower_append (a b : string) : lower (a +:+ b) = lower a +:+ lower b.
Proof.
  induction a as [|x a IH]; [reflexivity|]. rewrite append_cons. simpl.
  rewrite IH. reflexivity.
Qed.

(** A string whose lower-case form is [p +:+ q] splits the same way. *)
Lemma lower_split (k p q : string) :
  lower k = p +:+ q -> exists a b, k = a +:+ b /\ lower a = p /\ lower b = q.
Proof.
  revert k. induction p as [|c p IH]; intros k Hk.
  - exists "", k. auto.
  - rewrite append_cons in Hk. destruct k as [|x k]; simpl in Hk; [discriminate|].
    injection Hk as Hx Hk. destruct (IH k Hk) as (a & b & -> & Ha & Hb).
    exists (String x a), b. rewrite append_cons. simpl. rewrite Hx, Ha. auto.
Qed.

Lemma substring_all (s : string) : substring 0 (String.length s) s = s.
Proof. induction s as [|c s IH]; simpl; [reflexivity|]. rewrite IH. reflexivity. Qed.

Lemma substring_append_r (p q : string) :
  substring (String.length p) (String.length q) (p +:+ q) = q.
Proof.
  induction p as [|c p IH]; [apply substring_all|].
  rewrite append_cons. simpl. exact IH.
Qed.

Lemma substring_suffix (s : string) (m : nat) :
  m <= String.length s ->
  exists p, s = p +:+ substring m (String.length s - m) s /\ String.length p = m.
Proof.
  revert m. induction s as [|c s IH]; intros m Hm; simpl in Hm.
  - exists "". destruct m; [auto|lia].
  - destruct m as [|m].
    + exists "". rewrite Nat.sub_0_r, substring_all. auto.
    + destruct (IH m ltac:(lia)) as (p & Hp & Hlen).
      exists (String c p). rewrite append_cons. simpl. rewrite <- Hp, Hlen. auto.
Qed.

(** [ends_with] decides whether the string ends in the suffix. *)
Lemma ends_with_spec (suffix s : string) :
  ends_with suffix s = true <-> exists p, s = p +:+ suffix.
Proof.
  unfold ends_with. rewrite andb_true_iff, Nat.leb_le, String.eqb_eq. split.
  - intros [Hle Hsub].
    destruct (substring_suffix s (String.length s - String.length suffix) ltac:(lia))
      as (p & Hp & _).
    replace (String.length s - (String.length s - String.length suffix))
      with (String.length suffix) in Hp by lia.
    rewrite Hsub in Hp. eauto.
  - intros [p ->]. rewrite length_append. split; [lia|].
    replace (String.length p + String.length suffix - String.length suffix)
      with (String.length p) by lia.
    apply substring_append_r.
Qed.

(** X3. The listing keeps a key exactly when the key ends in [.jpg],
    [.jpeg] or [.png], in any mix of upper and lower case. *)
Theorem is_image_key_spec (k : string) :
  is_image_key k = true <->
  exists stem ext,
    k = stem +:+ ext /\
    (lower ext = ".jpg" \/ lower ext = ".jpeg" \/ lower ext = ".png").
Proof.
  unfold is_image_key. rewrite !orb_true_iff, !ends_with_spec. split.
  - intros [[[p Hp]|[p Hp]]|[p Hp]];
      destruct (lower_split _ _ _ Hp) as (a & b & -> & _ & Hb); eauto 6.
  - intros (stem & ext & -> & Hext). rewrite lower_append.
    destruct Hext as [Hext|[Hext|Hext]]; rewrite Hext; eauto.
Qed.

(** ** Download names *)

Lemma split_slash_nonempty (s : string) : split_slash s <> [].
Proof.
  induction s as [|c s IH]; simpl; [discriminate|].
  destruct (Ascii.eqb c "/"); [discriminate|].
  destruct (split_slash s); discriminate.
Qed.

(** Splitting distributes over a slash. *)
Lemma split_slash_append (a b : string) :
  split_slash (a +:+ "/" +:+ b) = split_slash a ++ split_slash b.
Proof.
  induction a as [|c a IH]; [reflexivity|].
  rewrite append_cons. simpl. rewrite IH.
  destruct (Ascii.eqb c "/"); [reflexivity|].
  pose proof (split_slash_nonempty a) as Ha.
  destruct (split_slash a); [contradiction|reflexivity].
Qed.

Lemma split_slash_slashless (b : string) :
  slashless b = true -> split_slash b = [b].
Proof.
  induction b as [|c b IH]; simpl; [reflexivity|].
  intros [Hc Hb]%andb_true_iff. apply negb_true_iff in Hc. rewrite Hc, (IH Hb).
  reflexivity.
Qed.

Lemma slashless_append (a b : string) :
  slashless (a +:+ b) = slashless a && slashless b.
Proof.
  induction a as [|c a IH]; [reflexivity|].
  rewrite append_cons. simpl. rewrite IH, andb_assoc. reflexivity.
Qed.

(** The decimal form of a number has no slash. *)
Lemma slashless_pretty_N_go (x : N) (s : string) :
  slashless s = true -> slashless (pretty_N_go x s) = true.
Proof.
  revert s. induction (N.lt_wf_0 x) as [x _ IH]; intros s Hs.
  assert (x = 0 \/ 0 < x)%N as [->|Hx] by lia.
  - rewrite pretty_N_go_0. exact Hs.
  - rewrite pretty_N_go_step by exact Hx. apply IH.
    + apply N.div_lt; lia.
    + simpl. rewrite Hs. unfold pretty_N_char.
      repeat case_match; reflexivity.
Qed.

Lemma slashless_pretty_Z (z : Z) : slashless (pretty z) = true.
Proof.
  assert (forall n : N, slashless (pretty n) = true) as HN.
  { intros n. unfold pretty, pretty_N. case_decide; [reflexivity|].
    apply slashless_pretty_N_go. reflexivity. }
  destruct z as [|p|p]; [reflexivity|apply (HN (Npos p))|].
  change (pretty (Zneg p)) with ("-" +:+ pretty (Npos p)).
  rewrite slashless_append, (HN (Npos p)). reflexivity.
Qed.

Lemma downloadName_segment (dir base fallback : string) :
  slashless base = true -> base <> "" ->
  downloadName (dir +:+ "/" +:+ base) fallback = base.
Proof.
  intros Hbase Hne. apply truthy_true_iff in Hne. unfold downloadName.
  rewrite split_slash_append, (split_slash_slashless base Hbase), last_snoc.
  simpl. rewrite Hne. reflexivity.
Qed.

(** X4. The name offered for a download is the part of the key after its
    last slash, and the whole key when it has no slash; a key that is
    empty or ends in a slash gets the fallback name. *)
Theorem downloadName_is_the_last_segment (dir fallback : string) :
  downloadName "" fallback = fallback /\
  downloadName (dir +:+ "/") fallback = fallback /\
  forall base,
    slashless base = true -> base <> "" ->
    downloadName base fallback = base /\
    downloadName (dir +:+ "/" +:+ base) fallback = base.
Proof.
  split; [reflexivity|]. split.
  - unfold downloadName.
    pose proof (split_slash_append dir "") as Hsplit.
    change ("/" +:+ "") with "/" in Hsplit.
    change (split_slash "") with [""] in Hsplit.
    rewrite Hsplit, last_snoc. reflexivity.
  - intros base Hbase Hne. split; [|apply downloadName_segment; assumption].
    apply truthy_true_iff in Hne. unfold downloadName.
    rewrite (split_slash_slashless base Hbase). simpl. rewrite Hne. reflexivity.
Qed.

Lemma upload_key_name (e stamp fname fallback : string) :
  slashless stamp = true -> slashless fname = true ->
  downloadName ("events/shared/" +:+ e +:+ "/images/" +:+ stamp +:+ "-" +:+ fname)
    fallback
  = stamp +:+ "-" +:+ fname.
Proof.
  intros Hstamp Hname.
  change ("/images/" +:+ stamp +:+ "-" +:+ fname)
    with ("/images" +:+ "/" +:+ stamp +:+ "-" +:+ fname).
  rewrite <- (append_assoc e "/images"), <- (append_assoc "events/shared/").
  apply downloadName_segment.
  - rewrite !slashless_append, Hstamp, Hname. reflexivity.
  - destruct stamp; discriminate.
Qed.

(** X5. A file uploaded under a name without a slash is offered for
    download under [<timestamp>-<name>]: the upload key ends in that
    segment, whatever the event id is. *)
Theorem uploaded_file_download_name (file : File) (fallback : string) :
  slashless (name file) = true ->
  (forall (env : StrategyA.Env) i,
     downloadName (upload_Key (StrategyA.newUpload env i file)) fallback
     = pretty (StrategyA.now env i) +:+ "-" +:+ name file) /\
  (forall (env : StrategyB.Env) i,
     downloadName (upload_Key (StrategyB.newUpload env i file)) fallback
     = pretty (StrategyB.now env i) +:+ "-" +:+ name file).
Proof.
  intros Hname. split; intros env i; simpl;
    apply upload_key_name; auto using slashless_pretty_Z.
Qed.

Lemma uploaded_file_download_name_witness :
  downloadName (upload_Key (StrategyA.newUpload Examples.twinsA 0 MoreExamples.fileB))
    "image-0"
  = "1700000009999-b.jpg".
Proof.
  destruct (uploaded_file_download_name MoreExamples.fileB "image-0" eq_refl)
    as [HA _].
  rewrite HA. reflexivity.
Defined.

(** ** The first effect *)

(** X2. The first effect never redirects twice: the only place it
    redirects to is [/upload-selfie/<eventId>], it does so only for a
    logged-in user, and on that path it does nothing.  Without a login it
    never redirects: it does nothing or demands the login. *)
Theorem authEffect_redirects_once (eventId path : string) (userEmail : option string) :
  (forall to,
     authEffect eventId path userEmail = Redirect to ->
     to = "/upload-selfie/" +:+ eventId /\
     path <> to /\
     truthy_opt userEmail <> None /\
     authEffect eventId to userEmail = Stay) /\
  (truthy_opt userEmail = None ->
   authEffect eventId path userEmail = Stay \/
   authEffect eventId path userEmail
   = RequireLogin "Authentication required. Please log in.").
Proof.
  unfold authEffect. split.
  - intros to.
    destruct (str_includes "upload_selfie" path || str_includes "upload-selfie" path);
      [|discriminate].
    destruct (truthy_opt userEmail) as [email|]; [|discriminate].
    destruct (String.eqb_spec path ("/upload-selfie/" +:+ eventId)) as [|Hne];
      [discriminate|].
    intros [= <-]. split; [reflexivity|]. split; [exact Hne|]. split; [discriminate|].
    assert (str_includes "upload-selfie" ("/upload-selfie/" +:+ eventId) = true)
      as -> by reflexivity.
    rewrite orb_true_r, String.eqb_refl. reflexivity.
  - intros ->. destruct (_ || _); auto.
Qed.

Lemma authEffect_redirects_once_witness :
  authEffect "party" "/upload_selfie/party" (Some "guest@example.org")
    = Redirect "/upload-selfie/party" /\
  authEffect "party" "/upload-selfie/party" (Some "guest@example.org") = Stay.
Proof.
  split; [reflexivity|].
  destruct (authEffect_redirects_once "party" "/upload_selfie/party"
              (Some "guest@example.org")) as [Hredirect _].
  apply (Hredirect "/upload-selfie/party" eq_refl).
Defined.

(** ** The collection of the event *)

(** X1. [ensureCollection] never throws, whatever the two service calls
    answer.  It always lists the collections first, and it asks for the
    collection to be created exactly when the listing succeeded and does
    not contain the collection id.  It changes nothing of the component's
    state. *)
Theorem ensureCollection_creates_only_when_absent :
  (forall (env : StrategyA.Env) cid w,
     let run := StrategyA.ensureCollection env cid w in
     run.1 = Fulfilled tt /\
     stateA run.2 = stateA w /\
     exists more,
       StrategyA.issued run.2 = StrategyA.issued w ++ ListCollectionsCommand :: more /\
       (more = [] \/ more = [CreateCollectionCommand cid]) /\
       (more = [CreateCollectionCommand cid] <->
        exists listResponse,
          StrategyA.listCollections env = Fulfilled listResponse /\
          cid ∉ default [] (CollectionIds listResponse))) /\
  (forall (env : StrategyB.Env) cid w,
     let run := StrategyB.ensureCollection env cid w in
     run.1 = Fulfilled tt /\
     stateB run.2 = stateB w /\
     exists more,
       StrategyB.issued run.2 = StrategyB.issued w ++ ListCollectionsCommand :: more /\
       (more = [] \/ more = [CreateCollectionCommand cid]) /\
       (more = [CreateCollectionCommand cid] <->
        exists listResponse,
          StrategyB.listCollections env = Fulfilled listResponse /\
          cid ∉ default [] (CollectionIds listResponse))).
Proof.
  split; intros env cid w run; subst run.
  - rewrite A_ensureCollection_run. simpl.
    split; [reflexivity|]. split; [reflexivity|].
    unfold StrategyA.ensureCommands.
    destruct (StrategyA.listCollections env) as [listResponse|e].
    + case_bool_decide as Hin.
      * exists []. split; [reflexivity|]. split; [auto|].
        split; [discriminate|]. intros (r & [= <-] & Hnot). contradiction.
      * exists [CreateCollectionCommand cid]. split; [reflexivity|]. split; [auto|].
        split; [eauto|reflexivity].
    + exists []. split; [reflexivity|]. split; [auto|].
      split; [discriminate|]. intros (r & Hr & _). discriminate.
  - rewrite B_ensureCollection_run. simpl.
    split; [reflexivity|]. split; [reflexivity|].
    unfold StrategyB.ensureCommands.
    destruct (StrategyB.listCollections env) as [listResponse|e].
    + case_bool_decide as Hin.
      * exists []. split; [reflexivity|]. split; [auto|].
        split; [discriminate|]. intros (r & [= <-] & Hnot). contradiction.
      * exists [CreateCollectionCommand cid]. split; [reflexivity|]. split; [auto|].
        split; [eauto|reflexivity].
    + exists []. split; [reflexivity|]. split; [auto|].
      split; [discriminate|]. intros (r & Hr & _). discriminate.
Qed.

(** ** Strategy A: the group ids of a pass *)

Section StrategyA_group_ids.
Import StrategyA.

Lemma A_matchedGroupIds_elem (m : gmap string string) matches gid :
  gid ∈ matchedGroupIds m matches -> exists id, m !! id = Some gid.
Proof.
  unfold matchedGroupIds, filter_truthy. rewrite list_elem_of_omap.
  intros (o & Ho & Hgid). apply list_elem_of_fmap in Ho as (id & -> & _).
  exists id. destruct (m !! id) as [g|]; simpl in Hgid; [|discriminate].
  destruct (truthy g); congruence.
Qed.

(** Every group id in the mapping is [group_k] for a [k] between 1 and
    the counter, and one callback raises the counter by at most one. *)
Lemma A_numbered_step env st item :
  (forall id gid, st.1 !! id = Some gid ->
     exists k, 1 <= k <= st.2 /\ gid = "group_" +:+ pretty k) ->
  let st' := searchStep env st item in
  st.2 <= st'.2 <= S st.2 /\
  forall id gid, st'.1 !! id = Some gid ->
    exists k, 1 <= k <= st'.2 /\ gid = "group_" +:+ pretty k.
Proof.
  intros Hst st'. subst st'.
  assert (forall id gid,
             (<[faceId item.2 := "group_" +:+ pretty (S st.2)]> st.1) !! id = Some gid ->
             exists k, 1 <= k <= S st.2 /\ gid = "group_" +:+ pretty k) as Hnew.
  { intros id gid. rewrite lookup_insert. case_decide.
    - intros [= <-]. exists (S st.2). split; [lia|reflexivity].
    - intros Hid. destruct (Hst id gid Hid) as (k & Hk & ->). exists k. split; [lia|done]. }
  unfold searchStep, resolve, newGroup.
  destruct (searchFaces env item.1) as [resp|e]; simpl; [|split; [lia|exact Hnew]].
  destruct (FaceMatches resp) as [[|m ms]|]; simpl; try (split; [lia|exact Hnew]).
  destruct (matchedGroupIds st.1 (m :: ms)) as [|g gs] eqn:Hm; simpl;
    [split; [lia|exact Hnew]|].
  split; [lia|]. intros id gid. rewrite lookup_insert. case_decide.
  - intros [= <-].
    destruct (A_matchedGroupIds_elem st.1 (m :: ms) g) as [id' Hid'].
    { rewrite Hm. left. }
    apply (Hst id' g Hid').
  - apply Hst.
Qed.

Lemma A_numbered_fold env l st :
  (forall id gid, st.1 !! id = Some gid ->
     exists k, 1 <= k <= st.2 /\ gid = "group_" +:+ pretty k) ->
  let st' := fold_left (searchStep env) l st in
  st'.2 <= st.2 + length l /\
  forall id gid, st'.1 !! id = Some gid ->
    exists k, 1 <= k <= st'.2 /\ gid = "group_" +:+ pretty k.
Proof.
  revert st. induction l as [|item l IH]; intros st Hst; simpl.
  - split; [lia|exact Hst].
  - destruct (A_numbered_step env st item Hst) as [Hcount Hst'].
    destruct (IH _ Hst') as [Hcount' Hfinal]. split; [lia|exact Hfinal].
Qed.

Lemma A_length_completed {A} latency (l : list A) :
  length (completed latency l) = length l.
Proof.
  rewrite (Permutation_length (completed_perm latency l)). apply length_imap.
Qed.

(** The groups of a pass, by what a bucket holds. *)
Lemma A_lookup_faceGroups env imgs w gid :
  let run := detectAndGroupFaces env imgs w in
  let temp := tempFaceRecordsOf env imgs in
  allFaceRecords run.2 = temp /\
  faceGroups run.2 !! gid =
  match filter (fun fr => gidOf (resolvedOf env temp).1 fr = gid) temp with
  | [] => None
  | bucket => Some bucket
  end.
Proof.
  intros run temp. subst run. rewrite A_detectAndGroupFaces_run. simpl.
  split; [reflexivity|]. unfold buildGroups. apply lookup_bucket.
Qed.

(** X6. The group ids that a pass of strategy A publishes are numbered:
    each is [group_k] for some [k] from 1 up to the number of face
    records, so a pass never publishes more groups than it has face
    records, and never the group of an unresolved face. *)
Theorem A_group_ids_are_numbered env imgs w :
  let run := detectAndGroupFaces env imgs w in
  let n := length (allFaceRecords run.2) in
  (forall gid bucket,
     faceGroups run.2 !! gid = Some bucket ->
     exists k, 1 <= k <= n /\ gid = "group_" +:+ pretty k) /\
  faceGroups run.2 !! "undefined" = None /\
  size (faceGroups run.2) <= n.
Proof.
  intros run n. subst run n.
  set (temp := tempFaceRecordsOf env imgs).
  assert (forall gid bucket,
             faceGroups (detectAndGroupFaces env imgs w).2 !! gid = Some bucket ->
             exists k, 1 <= k <= length temp /\ gid = "group_" +:+ pretty k) as Hids.
  { intros gid bucket.
    destruct (A_lookup_faceGroups env imgs w gid) as [_ ->]. fold temp.
    destruct (filter _ temp) as [|fr l] eqn:Hf; [discriminate|]. intros _.
    assert (fr ∈ filter (fun fr => gidOf (resolvedOf env temp).1 fr = gid) temp)
      as Hfr by (rewrite Hf; left).
    apply list_elem_of_filter in Hfr as [Hgid Hfr].
    destruct (A_all_resolved env temp fr Hfr) as [g Hg].
    unfold gidOf in Hgid. rewrite Hg in Hgid. simpl in Hgid. subst g.
    destruct (A_numbered_fold env (completed (searchLatency env) temp) (∅, 0))
      as [Hcount Hnum].
    { intros id g. simpl. rewrite lookup_empty. discriminate. }
    rewrite A_length_completed in Hcount.
    destruct (Hnum _ _ Hg) as (k & Hk & ->). exists k. split; [|reflexivity].
    unfold resolvedOf in Hk. simpl in *. lia. }
  destruct (A_lookup_faceGroups env imgs w "undefined") as [Hrecs _].
  rewrite Hrecs. fold temp. split; [exact Hids|]. split.
  - destruct (faceGroups (detectAndGroupFaces env imgs w).2 !! "undefined")
      as [bucket|] eqn:Hu; [|reflexivity].
    destruct (Hids _ _ Hu) as (k & _ & Hk). discriminate.
  - set (groups := faceGroups (detectAndGroupFaces env imgs w).2) in *.
    assert (dom groups ⊆
            list_to_set ((fun k => "group_" +:+ pretty k) <$> seq 1 (length temp)))
      as Hdom.
    { intros gid Hgid. apply elem_of_dom in Hgid as [bucket Hb].
      destruct (Hids _ _ Hb) as (k & Hk & ->).
      apply elem_of_list_to_set, list_elem_of_fmap. exists k. split; [reflexivity|].
      apply elem_of_seq. lia. }
    rewrite <- size_dom.
    etransitivity; [apply (subseteq_size _ _ Hdom)|].
    rewrite size_list_to_set, length_fmap, length_seq; [reflexivity|].
    apply NoDup_fmap_2; [|apply NoDup_seq].
    intros j k Hjk. injection Hjk as Hjk. apply pretty_nat_inj. exact Hjk.
Qed.

(** X7. The groups that a pass of strategy A publishes partition its face
    records: every record is a member of exactly one group, every group
    has at least one member, and every member is a record of the pass. *)
Theorem A_groups_partition_the_face_records env imgs w :
  let run := detectAndGroupFaces env imgs w in
  (forall fr, fr ∈ allFaceRecords run.2 ->
     exists gid bucket,
       faceGroups run.2 !! gid = Some bucket /\ fr ∈ bucket /\
       forall gid' bucket',
         faceGroups run.2 !! gid' = Some bucket' -> fr ∈ bucket' -> gid' = gid) /\
  (forall gid bucket,
     faceGroups run.2 !! gid = Some bucket ->
     bucket <> [] /\ forall fr, fr ∈ bucket -> fr ∈ allFaceRecords run.2).
Proof.
  intros run. subst run.
  set (temp := tempFaceRecordsOf env imgs).
  set (m := (resolvedOf env temp).1).
  assert (forall gid bucket,
             faceGroups (detectAndGroupFaces env imgs w).2 !! gid = Some bucket ->
             bucket <> [] /\
             forall fr, fr ∈ bucket <-> gidOf m fr = gid /\ fr ∈ temp) as Hbucket.
  { intros gid bucket.
    destruct (A_lookup_faceGroups env imgs w gid) as [_ ->]. fold temp m.
    destruct (filter _ temp) as [|fr l] eqn:Hf; [discriminate|].
    intros [= <-]. split; [discriminate|]. intros fr'.
    rewrite <- Hf, list_elem_of_filter. reflexivity. }
  destruct (A_lookup_faceGroups env imgs w "") as [Hrecs _]. rewrite Hrecs.
  fold temp. split.
  - intros fr Hfr.
    destruct (bucket_of (gidOf m) temp fr Hfr) as (bucket & Hb & Hin).
    assert (faceGroups (detectAndGroupFaces env imgs w).2 !! gidOf m fr = Some bucket)
      as Hb'.
    { rewrite A_detectAndGroupFaces_run. exact Hb. }
    exists (gidOf m fr), bucket. split; [exact Hb'|]. split; [exact Hin|].
    intros gid' bucket' Hb'' Hin'.
    destruct (Hbucket _ _ Hb'') as [_ Hiff]. apply Hiff in Hin' as [<- _].
    reflexivity.
  - intros gid bucket Hb. destruct (Hbucket _ _ Hb) as [Hne Hiff].
    split; [exact Hne|]. intros fr Hfr. apply Hiff in Hfr as [_ Hfr]. exact Hfr.
Qed.
End StrategyA_group_ids.

(** ** Strategy A: the tiles of a group *)

Lemma elem_of_dedupe (xs : list string) x : x ∈ dedupe xs <-> x ∈ xs.
Proof.
  induction xs as [|y xs IH]; simpl; [reflexivity|].
  rewrite !elem_of_cons, list_elem_of_filter, IH.
  destruct (decide (x = y)); tauto.
Qed.

Lemma NoDup_dedupe (xs : list string) : NoDup (dedupe xs).
Proof.
  induction xs as [|y xs IH]; simpl; constructor.
  - rewrite list_elem_of_filter. tauto.
  - apply NoDup_filter, IH.
Qed.

Lemma find_by_key (images : list EventImage) k :
  k ∈ key <$> images ->
  exists img,
    find (fun img => String.eqb (key img) k) images = Some img /\
    key img = k /\ img ∈ images.
Proof.
  induction images as [|x images IH]; simpl; intros Hk; [inversion Hk|].
  destruct (String.eqb_spec (key x) k) as [Heq|Hne].
  - exists x. split; [reflexivity|]. split; [exact Heq|left].
  - apply elem_of_cons in Hk as [Hk|Hk]; [congruence|].
    destruct (IH Hk) as (img & Hfind & Hkey & Hin). exists img.
    split; [exact Hfind|]. split; [exact Hkey|right; exact Hin].
Qed.

Lemma tiles_of_known_keys (images : list EventImage) (ks : list string) :
  (forall k, k ∈ ks -> k ∈ key <$> images) ->
  Forall (fun t => exists img, t = Some img /\ img ∈ images)
    ((fun k => find (fun img => String.eqb (key img) k) images) <$> ks) /\
  key <$> omap id ((fun k => find (fun img => String.eqb (key img) k) images) <$> ks)
    = ks /\
  length (omap id ((fun k => find (fun img => String.eqb (key img) k) images) <$> ks))
    = length ((fun k => find (fun img => String.eqb (key img) k) images) <$> ks).
Proof.
  set (tile := fun k => find (fun img => String.eqb (key img) k) images).
  induction ks as [|k ks IH]; intros Hks.
  - split; [constructor|]. auto.
  - destruct (find_by_key images k (Hks k ltac:(left))) as (img & Hfind & Hkey & Hin).
    destruct IH as (Hall & Hkeys & Hlen).
    { intros k' Hk'. apply Hks. right. exact Hk'. }
    change (tile <$> k :: ks) with (tile k :: (tile <$> ks)).
    replace (tile k) with (Some img) by (symmetry; exact Hfind).
    change (omap id (Some img :: (tile <$> ks)))
      with (img :: omap id (tile <$> ks)).
    split; [constructor; eauto|]. split.
    + change (key img :: (key <$> omap id (tile <$> ks)) = k :: ks).
      rewrite Hkeys, Hkey. reflexivity.
    + change (S (length (omap id (tile <$> ks))) = S (length (tile <$> ks))).
      rewrite Hlen. reflexivity.
Qed.

(** X8. When every face record of a group belongs to an image of the
    image set, the group shows no empty tile: there is one tile per
    distinct image key of the group, in the order in which the keys first
    occur among its records, each tile is an image of the set with that
    key, and the count under the title is the number of tiles.  An image
    with several faces in the group is shown once. *)
Theorem uniqueImages_shows_each_image_once
    (faceRecs : list StrategyA.FaceRecordWithImage) (images : list EventImage) :
  (forall fr, fr ∈ faceRecs -> key (StrategyA.image fr) ∈ key <$> images) ->
  let tiles := uniqueImages faceRecs images in
  Forall (fun t => exists img, t = Some img /\ img ∈ images) tiles /\
  key <$> omap id tiles = dedupe ((fun fr => key (StrategyA.image fr)) <$> faceRecs) /\
  NoDup (key <$> omap id tiles) /\
  foundCount tiles = length tiles /\
  forall fr, fr ∈ faceRecs -> key (StrategyA.image fr) ∈ key <$> omap id tiles.
Proof.
  intros Hrecs tiles. subst tiles. unfold uniqueImages, foundCount.
  destruct (tiles_of_known_keys images
              (dedupe ((fun fr => key (StrategyA.image fr)) <$> faceRecs)))
    as (Hall & Hkeys & Hlen).
  { intros k Hk. apply elem_of_dedupe, list_elem_of_fmap in Hk as (fr & -> & Hfr).
    apply Hrecs, Hfr. }
  split; [exact Hall|]. split; [exact Hkeys|]. rewrite Hkeys.
  split; [apply NoDup_dedupe|]. split; [exact Hlen|].
  intros fr Hfr. apply elem_of_dedupe, list_elem_of_fmap. eauto.
Qed.

Lemma uniqueImages_shows_each_image_once_witness :
  uniqueImages MoreExamples.faceTwice MoreExamples.twoPhotos
    = [Some Examples.photoA; Some Examples.photoB] /\
  foundCount (uniqueImages MoreExamples.faceTwice MoreExamples.twoPhotos) = 2.
Proof.
  split; [reflexivity|].
  destruct (uniqueImages_shows_each_image_once MoreExamples.faceTwice
              MoreExamples.twoPhotos) as (_ & _ & _ & Hcount & _).
  - intros fr Hfr. repeat (apply elem_of_cons in Hfr as [->|Hfr]);
      [left|left|right; left|inversion Hfr].
  - rewrite Hcount. reflexivity.
Defined.

(** ** Whole runs of the listing and of the uploads *)

Lemma imageKeys_spec (contents : list S3Object) (k : string) :
  k ∈ imageKeys contents <->
  exists item, item ∈ contents /\ Key item = Some k /\ k <> "" /\ is_image_key k = true.
Proof.
  unfold imageKeys. rewrite list_elem_of_omap. split.
  - intros (item & Hin & Hk). exists item. split; [exact Hin|].
    destruct (Key item) as [k0|]; simpl in Hk; [|discriminate].
    destruct (truthy k0) eqn:Htruthy; simpl in Hk; [|discriminate].
    destruct (is_image_key k0) eqn:Himg; [|discriminate].
    injection Hk as <-. apply truthy_true_iff in Htruthy. auto.
  - intros (item & Hin & Hk & Hne & Himg). exists item. split; [exact Hin|].
    rewrite Hk. simpl. apply truthy_true_iff in Hne. rewrite Hne. simpl.
    rewrite Himg. reflexivity.
Qed.

Lemma oid_imageItems bucket first keys :
  oid <$> imageItems bucket first keys = seq first (length keys).
Proof.
  unfold imageItems. rewrite fmap_imap.
  revert first. induction keys as [|k keys IH]; intros first; [reflexivity|].
  simpl. rewrite Nat.add_0_r. f_equal. rewrite <- (IH (S first)).
  apply imap_ext. intros j x _. simpl. lia.
Qed.

Lemma wellBuilt_imageItems bucket first contents :
  Forall (wellBuilt bucket) (imageItems bucket first (imageKeys contents)).
Proof.
  apply Forall_forall. intros img Himg. unfold imageItems in Himg.
  apply elem_of_lookup_imap_1 in Himg as (j & k & -> & Hk).
  apply list_elem_of_lookup_2, imageKeys_spec in Hk as (item & _ & _ & Hne & Hkey).
  repeat split; simpl; auto.
Qed.

Lemma await_all_outcome {S S'} (ps : list (outcome unit)) (s : S) (s' : S') :
  (await_all ps s).1 = (await_all ps s').1.
Proof.
  induction ps as [|p ps IH]; [reflexivity|].
  simpl. js_unfold. destruct p as [[]|e]; [exact IH|reflexivity].
Qed.

(** How a batch of promises settles as a whole. *)
Lemma await_all_cases {S} (ps : list (outcome unit)) (s : S) :
  ((await_all ps s).1 = Fulfilled tt /\ Forall (fun p => p = Fulfilled tt) ps) \/
  (exists e, (await_all ps s).1 = Rejected e /\ Rejected e ∈ ps).
Proof.
  induction ps as [|p ps IH]; [left; split; [reflexivity|constructor]|].
  simpl. js_unfold. destruct p as [[]|e].
  - destruct IH as [[Hall Hps]|(e & He & Hin)].
    + left. split; [exact Hall|]. constructor; [reflexivity|exact Hps].
    + right. exists e. split; [exact He|]. right. exact Hin.
  - right. exists e. split; [reflexivity|]. left.
Qed.

Lemma fmap_snd_imap_pair {A B} (f : A -> B) (l : list A) :
  (fun item : nat * A => f item.2) <$> imap pair l = f <$> l.
Proof.
  rewrite fmap_imap, <- (imap_const f l). apply imap_ext. intros; reflexivity.
Qed.

Lemma length_imageItems bucket first keys :
  length (imageItems bucket first keys) = length keys.
Proof. unfold imageItems. apply length_imap. Qed.

Section StrategyA_whole_runs.
Import StrategyA.

(** The loop over the prefixes, in full: the objects it builds, the keys
    and identities they get, the commands it sends, and the world it
    leaves. *)
Lemma A_listing_loop_run env items st w :
  exists new,
    promise_all_fold (listPrefix env) st items w =
      (Fulfilled (st.1 ++ new,
                  match lastListError (listObjects env) items.*1 with
                  | Some e => Some e
                  | None => st.2
                  end),
       (alloc (length new)
          (with_issued
             ((fun item : nat * string =>
                 ListObjectsV2Command (S3_BUCKET_NAME env) item.2) <$> items) w)).2) /\
    key <$> new = listedKeys (listObjects env) items.*1 /\
    oid <$> new = seq (next_oid w) (length new) /\
    Forall (wellBuilt (S3_BUCKET_NAME env)) new.
Proof.
  induction items as [|item items IH] using rev_ind.
  - exists []. simpl. rewrite app_nil_r. split; [|repeat split; constructor].
    destruct st as [a b]. destruct w. unfold alloc, with_issued. simpl.
    rewrite app_nil_r, Nat.add_0_r. reflexivity.
  - destruct IH as (new & Hrun & Hkeys & Hoids & Hbuilt).
    rewrite promise_all_fold_app, Hrun.
    rewrite !fmap_app. change (fst <$> [item]) with [item.1].
    rewrite listedKeys_snoc, lastListError_snoc.
    cbn [promise_all_fold]. unfold listPrefix, send, alloc. js_unfold.
    cbn [fst snd].
    destruct (listObjects env item.1) as [result|e]; cbn [fst snd].
    + destruct (Contents result) as [contents|]; cbn [default].
      * exists (new ++ imageItems (S3_BUCKET_NAME env) (next_oid w + length new)
                  (imageKeys contents)).
        split; [|split; [|split]].
        -- unfold with_issued. cbn. rewrite <- !app_assoc.
           rewrite length_app, length_imageItems, Nat.add_assoc. reflexivity.
        -- rewrite fmap_app, key_imageItems, Hkeys. reflexivity.
        -- rewrite fmap_app, oid_imageItems, Hoids, length_app, length_imageItems.
           rewrite seq_app. reflexivity.
        -- apply Forall_app. split; [exact Hbuilt|]. apply wellBuilt_imageItems.
      * exists new. split; [|split; [|split]]; auto.
        -- unfold with_issued. cbn. rewrite <- !app_assoc. reflexivity.
        -- rewrite Hkeys, app_nil_r. reflexivity.
    + exists new. split; [|split; [|split]]; auto.
      -- unfold with_issued. cbn. rewrite <- !app_assoc. reflexivity.
      -- rewrite Hkeys, app_nil_r. reflexivity.
Qed.

Lemma A_fetch_run env prefixes w :
  exists allImages,
    key <$> allImages = listedKeys (listObjects env) (seq 0 (length prefixes)) /\
    oid <$> allImages = seq (next_oid w) (length allImages) /\
    Forall (wellBuilt (S3_BUCKET_NAME env)) allImages /\
    fetchEventImagesFrom env prefixes w =
      (Fulfilled tt,
       with_loading false
         (let w1 :=
            (alloc (length allImages)
               (with_issued (ListObjectsV2Command (S3_BUCKET_NAME env) <$> prefixes)
                  w)).2 in
          match allImages with
          | [] =>
              with_error
                (Some match lastListError (listObjects env) (seq 0 (length prefixes)) with
                      | Some e => message e
                      | None => "No images found for this event."
                      end) w1
          | _ =>
              with_error None
                (detectAndGroupFaces env allImages
                   (with_images (fun _ => allImages) w1)).2
          end)).
Proof.
  destruct (A_listing_loop_run env (imap pair prefixes) ([], None) w)
    as (allImages & Hrun & Hkeys & Hoids & Hbuilt).
  rewrite fst_imap_pair in *.
  rewrite (fmap_snd_imap_pair (ListObjectsV2Command (S3_BUCKET_NAME env))) in Hrun.
  cbn [fst snd app] in Hrun.
  exists allImages. split; [exact Hkeys|]. split; [exact Hoids|]. split; [exact Hbuilt|].
  unfold fetchEventImagesFrom, try_finally, try_catch, listPrefixes, for_of.
  unfold mbind at 1. unfold js_bind at 1. rewrite Hrun. cbn [fst snd].
  destruct allImages as [|image allImages]; cbn [length Nat.ltb Nat.leb].
  - destruct (lastListError _ _) as [e|]; reflexivity.
  - unfold setImages, setError, setLoading. js_unfold.
    rewrite A_detectAndGroupFaces_run. reflexivity.
Qed.

(** A load always ends normally. *)
Lemma A_fetch_ends_normally env prefixes w :
  (fetchEventImagesFrom env prefixes w).1 = Fulfilled tt.
Proof.
  destruct (A_fetch_run env prefixes w) as (allImages & _ & _ & _ & ->). reflexivity.
Qed.

(** The world after the values [ps] have been passed to
    [setUploadProgress], one after the other. *)
Lemma A_fold_progress (ps : list Z) w :
  fold_left (fun w' p => with_uploadProgress p w') ps w =
  {| deleting := deleting w; images := images w; loading := loading w;
     error := error w; uploading := uploading w;
     uploadProgress := default (uploadProgress w) (last ps);
     faceGroups := faceGroups w; allFaceRecords := allFaceRecords w;
     issued := issued w; uploads := uploads w;
     progressTrace := progressTrace w ++ ps; next_oid := next_oid w |}.
Proof.
  revert w. induction ps as [|p ps IH] using rev_ind; intros w.
  - destruct w. simpl. rewrite app_nil_r. reflexivity.
  - rewrite fold_left_app, IH, last_snoc. unfold with_uploadProgress. cbn.
    rewrite <- app_assoc. reflexivity.
Qed.

Lemma A_uploadAll_run env files w :
  uploadAll env files w =
  ((await_all (imap (fun i _ => uploadDone env i) files) w).1,
   fold_left (fun w' p => with_uploadProgress p w')
     (percentage <$> (uploadEvents env).*2)
     (with_uploads (imap (newUpload env) files) w)).
Proof.
  unfold uploadAll, start_uploads.
  unfold mbind at 1. unfold js_bind at 1. unfold modify at 1.
  unfold mbind at 1. unfold js_bind at 1. unfold for_of.
  rewrite (promise_all_fold_run _ (fun _ _ => tt)
             (fun (ev : nat * Progress) w' => with_uploadProgress (percentage ev.2) w'))
    by reflexivity.
  set (w1 := with_uploads _ w).
  replace (fold_left (fun w' (x : nat * Progress) =>
                        with_uploadProgress (percentage x.2) w') (uploadEvents env) w1)
    with (fold_left (fun w' p => with_uploadProgress p w')
            (percentage <$> (uploadEvents env).*2) w1).
  - rewrite (surjective_pairing (await_all _ _)), await_all_state.
    f_equal. apply await_all_outcome.
  - generalize w1. induction (uploadEvents env) as [|ev evs IH]; intros w2;
      [reflexivity|]. cbn. apply IH.
Qed.

(** The handler of the file input for a logged-in user and at least one
    file: what it leaves, from the way the uploads settle. *)
Lemma A_handleFileChange_run env file files userEmail w :
  truthy_opt userEmail <> None ->
  let up := uploadAll env (file :: files) (with_uploading true w) in
  handleFileChange env (Some (file :: files)) userEmail w =
  (Fulfilled tt,
   with_uploadProgress 0
     (with_uploading false
        match up.1 with
        | Fulfilled _ => (fetchEventImages env up.2).2
        | Rejected e =>
            with_error
              (Some (if truthy (message e) then message e
                     else "Failed to upload images. Please try again.")) up.2
        end)).
Proof.
  intros Hemail up. subst up. unfold handleFileChange.
  destruct (truthy_opt userEmail) as [email|]; [clear Hemail|contradiction].
  unfold setUploading, setUploadProgress, setError. js_unfold.
  destruct (uploadAll env (file :: files) (with_uploading true w)) as [[[]|e] w1];
    cbn [fst snd]; [|reflexivity].
  unfold fetchEventImages.
  pose proof (A_fetch_ends_normally env
                ["events/shared/" +:+ default (eventId env) (truthy_opt (selectedEvent env))
                 +:+ "/images"] w1) as Hfetch.
  destruct (fetchEventImagesFrom env _ w1) as [o2 w2]. simpl in Hfetch. subst o2.
  reflexivity.
Qed.

End StrategyA_whole_runs.

Section StrategyB_whole_runs.
Import StrategyB.

(** The loop over the prefixes, in full: the objects it builds, the keys
    and identities they get, the commands it sends, and the world it
    leaves. *)
Lemma B_listing_loop_run env items st w :
  exists new,
    promise_all_fold (listPrefix env) st items w =
      (Fulfilled (st.1 ++ new,
                  match lastListError (listObjects env) items.*1 with
                  | Some e => Some e
                  | None => st.2
                  end),
       (alloc (length new)
          (with_issued
             ((fun item : nat * string =>
                 ListObjectsV2Command (S3_BUCKET_NAME env) item.2) <$> items) w)).2) /\
    key <$> new = listedKeys (listObjects env) items.*1 /\
    oid <$> new = seq (next_oid w) (length new) /\
    Forall (wellBuilt (S3_BUCKET_NAME env)) new.
Proof.
  induction items as [|item items IH] using rev_ind.
  - exists []. simpl. rewrite app_nil_r. split; [|repeat split; constructor].
    destruct st as [a b]. destruct w. unfold alloc, with_issued. simpl.
    rewrite app_nil_r, Nat.add_0_r. reflexivity.
  - destruct IH as (new & Hrun & Hkeys & Hoids & Hbuilt).
    rewrite promise_all_fold_app, Hrun.
    rewrite !fmap_app. change (fst <$> [item]) with [item.1].
    rewrite listedKeys_snoc, lastListError_snoc.
    cbn [promise_all_fold]. unfold listPrefix, send, alloc. js_unfold.
    cbn [fst snd].
    destruct (listObjects env item.1) as [result|e]; cbn [fst snd].
    + destruct (Contents result) as [contents|]; cbn [default].
      * exists (new ++ imageItems (S3_BUCKET_NAME env) (next_oid w + length new)
                  (imageKeys contents)).
        split; [|split; [|split]].
        -- unfold with_issued. cbn. rewrite <- !app_assoc.
           rewrite length_app, length_imageItems, Nat.add_assoc. reflexivity.
        -- rewrite fmap_app, key_imageItems, Hkeys. reflexivity.
        -- rewrite fmap_app, oid_imageItems, Hoids, length_app, length_imageItems.
           rewrite seq_app. reflexivity.
        -- apply Forall_app. split; [exact Hbuilt|]. apply wellBuilt_imageItems.
      * exists new. split; [|split; [|split]]; auto.
        -- unfold with_issued. cbn. rewrite <- !app_assoc. reflexivity.
        -- rewrite Hkeys, app_nil_r. reflexivity.
    + exists new. split; [|split; [|split]]; auto.
      -- unfold with_issued. cbn. rewrite <- !app_assoc. reflexivity.
      -- rewrite Hkeys, app_nil_r. reflexivity.
Qed.

Lemma B_fetch_run env prefixes w :
  exists allImages,
    key <$> allImages = listedKeys (listObjects env) (seq 0 (length prefixes)) /\
    oid <$> allImages = seq (next_oid w) (length allImages) /\
    Forall (wellBuilt (S3_BUCKET_NAME env)) allImages /\
    fetchEventImagesFrom env prefixes w =
      (Fulfilled tt,
       with_loading false
         (let w1 :=
            (alloc (length allImages)
               (with_issued (ListObjectsV2Command (S3_BUCKET_NAME env) <$> prefixes)
                  w)).2 in
          match allImages with
          | [] =>
              with_error
                (Some match lastListError (listObjects env) (seq 0 (length prefixes)) with
                      | Some e => message e
                      | None => "No images found for this event."
                      end) w1
          | _ =>
              let pass := detectAndGroupFaces env allImages
                            (with_images (fun _ => allImages) w1) in
              with_error
                match pass.1 with
                | Fulfilled _ => None
                | Rejected e => Some (message e)
                end pass.2
          end)).
Proof.
  destruct (B_listing_loop_run env (imap pair prefixes) ([], None) w)
    as (allImages & Hrun & Hkeys & Hoids & Hbuilt).
  rewrite fst_imap_pair in *.
  rewrite (fmap_snd_imap_pair (ListObjectsV2Command (S3_BUCKET_NAME env))) in Hrun.
  cbn [fst snd app] in Hrun.
  exists allImages. split; [exact Hkeys|]. split; [exact Hoids|]. split; [exact Hbuilt|].
  unfold fetchEventImagesFrom, try_finally, try_catch, listPrefixes, for_of.
  unfold mbind at 1. unfold js_bind at 1. rewrite Hrun. cbn [fst snd].
  destruct allImages as [|image allImages]; cbn [length Nat.ltb Nat.leb].
  - destruct (lastListError _ _) as [e|]; reflexivity.
  - unfold setImages, setError, setLoading. js_unfold. cbv zeta.
    destruct (detectAndGroupFaces env (image :: allImages) _) as [[[]|e] w2];
      reflexivity.
Qed.



(** The world after the values [ps] have been passed to
    [setUploadProgress], one after the other. *)
Lemma B_fold_progress (ps : list Z) w :
  fold_left (fun w' p => with_uploadProgress p w') ps w =
  {| deleting := deleting w; images := images w; loading := loading w;
     error := error w; uploading := uploading w;
     uploadProgress := default (uploadProgress w) (last ps);
     faceGroups := faceGroups w; issued := issued w; uploads := uploads w;
     progressTrace := progressTrace w ++ ps; next_oid := next_oid w |}.
Proof.
  revert w. induction ps as [|p ps IH] using rev_ind; intros w.
  - destruct w. simpl. rewrite app_nil_r. reflexivity.
  - rewrite fold_left_app, IH, last_snoc. unfold with_uploadProgress. cbn.
    rewrite <- app_assoc. reflexivity.
Qed.

Lemma B_uploadAll_run env files w :
  uploadAll env files w =
  ((await_all (imap (fun i _ => uploadDone env i) files) w).1,
   fold_left (fun w' p => with_uploadProgress p w')
     (percentage <$> (uploadEvents env).*2)
     (with_uploads (imap (newUpload env) files) w)).
Proof.
  unfold uploadAll, start_uploads.
  unfold mbind at 1. unfold js_bind at 1. unfold modify at 1.
  unfold mbind at 1. unfold js_bind at 1. unfold for_of.
  rewrite (promise_all_fold_run _ (fun _ _ => tt)
             (fun (ev : nat * Progress) w' => with_uploadProgress (percentage ev.2) w'))
    by reflexivity.
  set (w1 := with_uploads _ w).
  replace (fold_left (fun w' (x : nat * Progress) =>
                        with_uploadProgress (percentage x.2) w') (uploadEvents env) w1)
    with (fold_left (fun w' p => with_uploadProgress p w')
            (percentage <$> (uploadEvents env).*2) w1).
  - rewrite (surjective_pairing (await_all _ _)), await_all_state.
    f_equal. apply await_all_outcome.
  - generalize w1. induction (uploadEvents env) as [|ev evs IH]; intros w2;
      [reflexivity|]. cbn. apply IH.
Qed.

(** The handler of the file input for a logged-in user and at least one
    file: what it leaves, from the way the uploads settle. *)
Lemma B_handleFileChange_run env env' file files userEmail w :
  truthy_opt userEmail <> None ->
  let up := uploadAll env (file :: files) (with_uploading true w) in
  handleFileChange env env' (Some (file :: files)) userEmail w =
  (Fulfilled tt,
   with_uploadProgress 0
     (with_uploading false
        match up.1 with
        | Fulfilled _ =>
            let pass := detectAndGroupFaces env' (images w)
                          (fetchEventImages env up.2).2 in
            match pass.1 with
            | Fulfilled _ => pass.2
            | Rejected e =>
                with_error
                  (Some (if truthy (message e) then message e
                         else "Failed to upload images. Please try again.")) pass.2
            end
        | Rejected e =>
            with_error
              (Some (if truthy (message e) then message e
                     else "Failed to upload images. Please try again.")) up.2
        end)).
Proof.
  intros Hemail up. subst up. unfold handleFileChange, handleFileChange_of.
  destruct (truthy_opt userEmail) as [email|]; [clear Hemail|contradiction].
  unfold setUploading, setUploadProgress, setError. js_unfold.
  destruct (uploadAll env (file :: files) (with_uploading true w)) as [[[]|e] w1];
    cbn [fst snd]; [|reflexivity].
  unfold fetchEventImages.
  pose proof (B_fetch_ends_normally env
                ["events/shared/" +:+ default (eventId env) (truthy_opt (selectedEvent env))
                 +:+ "/images"] w1) as Hfetch.
  destruct (fetchEventImagesFrom env _ w1) as [o2 w2]. simpl in Hfetch. subst o2.
  cbn [snd]. cbv zeta.
  destruct (detectAndGroupFaces env' (images w) w2) as [[[]|e] w3]; reflexivity.
Qed.

End StrategyB_whole_runs.

(** ** The handler of the file input *)

Section StrategyA_upload_handler.
Import StrategyA.

(** The uploads of a batch start one upload per file and touch nothing
    but the progress value. *)
Lemma A_uploadAll_frame env files w :
  let w' := (uploadAll env files w).2 in
  uploads w' = uploads w ++ imap (newUpload env) files /\
  progressTrace w' = progressTrace w ++ (percentage <$> (uploadEvents env).*2) /\
  (deleting w', images w', loading w', error w', uploading w', faceGroups w',
   allFaceRecords w', issued w', next_oid w')
  = (deleting w, images w, loading w, error w, uploading w, faceGroups w,
     allFaceRecords w, issued w, next_oid w).
Proof.
  rewrite A_uploadAll_run, A_fold_progress. cbn. auto.
Qed.

(** A load touches neither the deleting marks nor the upload cells. *)
Lemma A_fetch_frame env prefixes w :
  let w' := (fetchEventImagesFrom env prefixes w).2 in
  (deleting w', uploading w', uploadProgress w', uploads w', progressTrace w')
  = (deleting w, uploading w, uploadProgress w, uploads w, progressTrace w).
Proof.
  destruct (A_fetch_run env prefixes w) as (allImages & _ & _ & _ & ->).
  destruct allImages as [|image allImages]; cbn [snd].
  - reflexivity.
  - rewrite A_detectAndGroupFaces_run. reflexivity.
Qed.

End StrategyA_upload_handler.

Section StrategyB_upload_handler.
Import StrategyB.

(** The uploads of a batch start one upload per file and touch nothing
    but the progress value. *)
Lemma B_uploadAll_frame env files w :
  let w' := (uploadAll env files w).2 in
  uploads w' = uploads w ++ imap (newUpload env) files /\
  progressTrace w' = progressTrace w ++ (percentage <$> (uploadEvents env).*2) /\
  (deleting w', images w', loading w', error w', uploading w', faceGroups w',
   issued w', next_oid w')
  = (deleting w, images w, loading w, error w, uploading w, faceGroups w,
     issued w, next_oid w).
Proof.
  rewrite B_uploadAll_run, B_fold_progress. cbn. auto.
Qed.

(** A load touches neither the deleting marks nor the upload cells. *)
Lemma B_fetch_frame env prefixes w :
  let w' := (fetchEventImagesFrom env prefixes w).2 in
  (deleting w', uploading w', uploadProgress w', uploads w', progressTrace w')
  = (deleting w, uploading w, uploadProgress w, uploads w, progressTrace w).
Proof.
  destruct (B_fetch_run env prefixes w) as (allImages & _ & _ & _ & ->).
  destruct allImages as [|image allImages]; cbn [snd].
  - reflexivity.
  - cbv zeta. rewrite B_detectAndGroupFaces_run.
    destruct (throwsOn _ _); reflexivity.
Qed.

End StrategyB_upload_handler.

(** X9. For a logged-in user and at least one chosen file, the handler of
    the file input always ends normally and always cleans up, however the
    uploads, the refresh and the regrouping went: when it ends, the
    uploading flag is off and the progress is 0.  It leaves the deleting
    marks alone, and every upload it started is the upload of one of the
    chosen files, into the bucket, under the key
    [events/shared/<eventId>/images/<Date.now()>-<file name>] and with
    the type of the file.  How many of the uploads have been started by
    then is left open, and so is what the uploads that are still running
    after a failed batch report once the handler has ended. *)
Theorem upload_handler_cleans_up (file : File) (files : list File)
    (userEmail : option string) :
  truthy_opt userEmail <> None ->
  (forall (env : StrategyA.Env) w,
     let run := StrategyA.handleFileChange env (Some (file :: files)) userEmail w in
     run.1 = Fulfilled tt /\
     StrategyA.uploading run.2 = false /\
     StrategyA.uploadProgress run.2 = 0%Z /\
     StrategyA.deleting run.2 = StrategyA.deleting w /\
     exists started,
       StrategyA.uploads run.2 = StrategyA.uploads w ++ started /\
       forall u, u ∈ started ->
         exists i f,
           (file :: files) !! i = Some f /\
           u = {| upload_Bucket := StrategyA.S3_BUCKET_NAME env;
                  upload_Key := "events/shared/" +:+ StrategyA.eventId env +:+ "/images/"
                                +:+ pretty (StrategyA.now env i) +:+ "-" +:+ name f;
                  upload_ContentType := type f |}) /\
  (forall (env env' : StrategyB.Env) w,
     let run := StrategyB.handleFileChange env env' (Some (file :: files)) userEmail w in
     run.1 = Fulfilled tt /\
     StrategyB.uploading run.2 = false /\
     StrategyB.uploadProgress run.2 = 0%Z /\
     StrategyB.deleting run.2 = StrategyB.deleting w /\
     exists started,
       StrategyB.uploads run.2 = StrategyB.uploads w ++ started /\
       forall u, u ∈ started ->
         exists i f,
           (file :: files) !! i = Some f /\
           u = {| upload_Bucket := StrategyB.S3_BUCKET_NAME env;
                  upload_Key := "events/shared/" +:+ StrategyB.eventId env +:+ "/images/"
                                +:+ pretty (StrategyB.now env i) +:+ "-" +:+ name f;
                  upload_ContentType := type f |}).
Proof.
  intros Hemail. split.
  - intros env w run. subst run.
    rewrite (A_handleFileChange_run env file files userEmail w Hemail).
    cbn [fst snd].
    destruct (A_uploadAll_frame env (file :: files) (StrategyA.with_uploading true w))
      as (Hups & _ & Hframe).
    injection Hframe as Hdel _ _ _ _ _ _ _ _.
    set (up := StrategyA.uploadAll env (file :: files) (StrategyA.with_uploading true w))
      in *.
    match goal with
    | |- context [StrategyA.with_uploading false ?X] => set (w4 := X)
    end.
    assert (StrategyA.deleting w4 = StrategyA.deleting w /\
            StrategyA.uploads w4
            = StrategyA.uploads w ++ imap (StrategyA.newUpload env) (file :: files))
      as [Hd Hu].
    { subst w4. destruct up.1 as [[]|e].
      - unfold StrategyA.fetchEventImages.
        pose proof (A_fetch_frame env
                      ["events/shared/"
                       +:+ default (StrategyA.eventId env)
                             (truthy_opt (StrategyA.selectedEvent env))
                       +:+ "/images"] up.2) as Hfetch.
        cbv zeta in Hfetch. injection Hfetch as Hdel' _ _ Hups' _.
        rewrite Hdel', Hups', Hdel, Hups. auto.
      - cbn. rewrite Hdel, Hups. auto. }
    clearbody w4.
    split; [reflexivity|]. split; [reflexivity|]. split; [reflexivity|].
    split; [exact Hd|].
    exists (imap (StrategyA.newUpload env) (file :: files)).
    split; [exact Hu|].
    intros u (i & f & -> & Hf)%elem_of_lookup_imap_1. exists i, f. auto.
  - intros env env' w run. subst run.
    rewrite (B_handleFileChange_run env env' file files userEmail w Hemail).
    cbn [fst snd].
    destruct (B_uploadAll_frame env (file :: files) (StrategyB.with_uploading true w))
      as (Hups & _ & Hframe).
    injection Hframe as Hdel _ _ _ _ _ _ _.
    set (up := StrategyB.uploadAll env (file :: files) (StrategyB.with_uploading true w))
      in *.
    match goal with
    | |- context [StrategyB.with_uploading false ?X] => set (w4 := X)
    end.
    assert (StrategyB.deleting w4 = StrategyB.deleting w /\
            StrategyB.uploads w4
            = StrategyB.uploads w ++ imap (StrategyB.newUpload env) (file :: files))
      as [Hd Hu].
    { subst w4. destruct up.1 as [[]|e].
      - unfold StrategyB.fetchEventImages.
        pose proof (B_fetch_frame env
                      ["events/shared/"
                       +:+ default (StrategyB.eventId env)
                             (truthy_opt (StrategyB.selectedEvent env))
                       +:+ "/images"] up.2) as Hfetch.
        cbv zeta in Hfetch. injection Hfetch as Hdel' _ _ Hups' _.
        cbv zeta. rewrite B_detectAndGroupFaces_run.
        destruct (StrategyB.throwsOn _ _); cbn; rewrite Hdel', Hups', Hdel, Hups; auto.
      - cbn. rewrite Hdel, Hups. auto. }
    clearbody w4.
    split; [reflexivity|]. split; [reflexivity|]. split; [reflexivity|].
    split; [exact Hd|].
    exists (imap (StrategyB.newUpload env) (file :: files)).
    split; [exact Hu|].
    intros u (i & f & -> & Hf)%elem_of_lookup_imap_1. exists i, f. auto.
Qed.

Lemma upload_handler_cleans_up_witness :
  let run := StrategyA.handleFileChange Examples.twinsA (Some [MoreExamples.fileB])
               (Some "guest@example.org") Examples.loadedA in
  run.1 = Fulfilled tt /\
  StrategyA.uploading run.2 = false /\
  StrategyA.uploadProgress run.2 = 0%Z.
Proof.
  destruct (upload_handler_cleans_up MoreExamples.fileB [] (Some "guest@example.org"))
    as [HA _]; [discriminate|].
  destruct (HA Examples.twinsA Examples.loadedA) as (H1 & H2 & H3 & _). auto.
Defined.

Lemma rejected_upload_is_thrown {S} (files : list File) (uploadDone : nat -> outcome unit)
    (i : nat) (e : JsError) (s : S) :
  i < length files -> uploadDone i = Rejected e ->
  exists j e',
    j < length files /\ uploadDone j = Rejected e' /\
    (await_all (imap (fun i _ => uploadDone i) files) s).1 = Rejected e'.
Proof.
  intros Hi He.
  destruct (await_all_cases (imap (fun i (_ : File) => uploadDone i) files) s)
    as [[_ Hall]|(e' & Hrun & Hin)].
  - exfalso. apply lookup_lt_is_Some in Hi as [file Hfile].
    rewrite Forall_forall in Hall.
    specialize (Hall (uploadDone i)). rewrite He in Hall.
    assert (Rejected e = Fulfilled tt) as Habs; [|discriminate].
    apply Hall. rewrite <- He.
    apply (elem_of_lookup_imap_2 (fun i (_ : File) => uploadDone i) files file i Hfile).
  - apply elem_of_lookup_imap_1 in Hin as (j & file & Hj & Hfile).
    exists j, e'. split; [eapply lookup_lt_Some; exact Hfile|].
    split; [symmetry; exact Hj|exact Hrun].
Qed.

(** X10. When the upload of one of the chosen files fails, the handler of
    the file input ends normally, shows the message of a failed upload
    (or the fixed text when that message is empty) as the error, and skips
    the refresh: no command is sent, and the image set and the groups are
    those from before the upload.  Unless the component is still loading,
    the error panel then replaces the gallery. *)
Theorem failed_upload_skips_the_refresh (files : list File) (i : nat) (e : JsError)
    (userEmail : option string) :
  truthy_opt userEmail <> None ->
  i < length files ->
  (forall (env : StrategyA.Env) w,
     StrategyA.uploadDone env i = Rejected e ->
     let run := StrategyA.handleFileChange env (Some files) userEmail w in
     run.1 = Fulfilled tt /\
     StrategyA.issued run.2 = StrategyA.issued w /\
     StrategyA.images run.2 = StrategyA.images w /\
     StrategyA.faceGroups run.2 = StrategyA.faceGroups w /\
     StrategyA.allFaceRecords run.2 = StrategyA.allFaceRecords w /\
     (exists j e',
        j < length files /\ StrategyA.uploadDone env j = Rejected e' /\
        StrategyA.error run.2 =
          Some (if truthy (message e') then message e'
                else "Failed to upload images. Please try again.")) /\
     (StrategyA.loading w = false ->
      exists msg, msg <> "" /\ screenA run.2 = ErrorPanel msg)) /\
  (forall (env env' : StrategyB.Env) w,
     StrategyB.uploadDone env i = Rejected e ->
     let run := StrategyB.handleFileChange env env' (Some files) userEmail w in
     run.1 = Fulfilled tt /\
     StrategyB.issued run.2 = StrategyB.issued w /\
     StrategyB.images run.2 = StrategyB.images w /\
     StrategyB.faceGroups run.2 = StrategyB.faceGroups w /\
     (exists j e',
        j < length files /\ StrategyB.uploadDone env j = Rejected e' /\
        StrategyB.error run.2 =
          Some (if truthy (message e') then message e'
                else "Failed to upload images. Please try again.")) /\
     (StrategyB.loading w = false ->
      exists msg, msg <> "" /\ screenB run.2 = ErrorPanel msg)).
Proof.
  intros Hemail Hi.
  assert (forall m : string,
            truthy (if truthy m then m
                    else "Failed to upload images. Please try again.") = true)
    as Htruthy by (intros m; destruct (truthy m) eqn:Hm; [exact Hm|reflexivity]).
  destruct files as [|file files]; [simpl in Hi; lia|]. split.
  - intros env w He run. subst run.
    rewrite (A_handleFileChange_run env file files userEmail w Hemail).
    destruct (A_uploadAll_frame env (file :: files) (StrategyA.with_uploading true w))
      as (_ & _ & Hframe).
    injection Hframe as _ Himg Hload _ _ Hgroups Hrecs Hissued _.
    destruct (rejected_upload_is_thrown (file :: files) (StrategyA.uploadDone env) i e
                (StrategyA.with_uploading true w) Hi He) as (j & e' & Hj & He' & Hrun).
    pose proof (A_uploadAll_run env (file :: files) (StrategyA.with_uploading true w))
      as Hup.
    set (up := StrategyA.uploadAll env (file :: files) (StrategyA.with_uploading true w))
      in *.
    assert (up.1 = Rejected e') as -> by (rewrite Hup; exact Hrun).
    unfold screenA, screenOf. cbn. rewrite Himg, Hgroups, Hrecs, Hissued, Hload.
    repeat (split; [reflexivity|]). split; [exists j, e'; auto|].
    intros ->. rewrite (Htruthy (message e')).
    eexists. split; [|reflexivity]. apply truthy_true_iff, Htruthy.
  - intros env env' w He run. subst run.
    rewrite (B_handleFileChange_run env env' file files userEmail w Hemail).
    destruct (B_uploadAll_frame env (file :: files) (StrategyB.with_uploading true w))
      as (_ & _ & Hframe).
    injection Hframe as _ Himg Hload _ _ Hgroups Hissued _.
    destruct (rejected_upload_is_thrown (file :: files) (StrategyB.uploadDone env) i e
                (StrategyB.with_uploading true w) Hi He) as (j & e' & Hj & He' & Hrun).
    pose proof (B_uploadAll_run env (file :: files) (StrategyB.with_uploading true w))
      as Hup.
    set (up := StrategyB.uploadAll env (file :: files) (StrategyB.with_uploading true w))
      in *.
    assert (up.1 = Rejected e') as -> by (rewrite Hup; exact Hrun).
    unfold screenB, screenOf. cbn. rewrite Himg, Hgroups, Hissued, Hload.
    repeat (split; [reflexivity|]). split; [exists j, e'; auto|].
    intros ->. rewrite (Htruthy (message e')).
    eexists. split; [|reflexivity]. apply truthy_true_iff, Htruthy.
Qed.

Lemma failed_upload_skips_the_refresh_witness :
  let run := StrategyA.handleFileChange MoreExamples.brokenUploadA
               (Some Examples.twoFiles) (Some "guest@example.org") Examples.loadedA in
  StrategyA.issued run.2 = StrategyA.issued Examples.loadedA /\
  StrategyA.images run.2 = StrategyA.images Examples.loadedA /\
  StrategyA.error run.2 = Some "NetworkingError".
Proof.
  destruct (failed_upload_skips_the_refresh Examples.twoFiles 1 Examples.failure
              (Some "guest@example.org")) as [HA _]; [discriminate|simpl; lia|].
  destruct (HA MoreExamples.brokenUploadA Examples.loadedA) as (_ & H1 & H2 & _);
    [reflexivity|].
  split; [exact H1|]. split; [exact H2|]. vm_compute. reflexivity.
Defined.

(** ** Strategy A: groups, face records and images fit together *)

Section StrategyA_consistent.
Import StrategyA.

Lemma consistentA_ext w w' :
  faceGroups w' = faceGroups w -> allFaceRecords w' = allFaceRecords w ->
  images w' = images w -> consistentA w -> consistentA w'.
Proof.
  unfold consistentA. intros -> -> ->. auto.
Qed.

Lemma A_recordsOf_image img indexResponse fr :
  fr ∈ recordsOf img indexResponse -> image fr = img.
Proof.
  unfold recordsOf. destruct (FaceRecords indexResponse) as [recs|];
    [|intros H; inversion H].
  intros (rec & _ & Hrec)%list_elem_of_omap.
  destruct (truthy_opt (rec_Face rec ≫= FaceId)); simpl in Hrec; [|discriminate].
  injection Hrec as <-. reflexivity.
Qed.

(** Every face record of a pass points at one of the images processed. *)
Lemma A_tempFaceRecords_image env imgs fr :
  fr ∈ tempFaceRecordsOf env imgs -> image fr ∈ imgs.
Proof.
  rewrite A_tempFaceRecords_perm.
  intros ([i img] & Hfr & Hitem)%list_elem_of_bind.
  apply elem_of_lookup_imap_1 in Hitem as (j & y & [= -> ->] & Hy).
  unfold yieldOf in Hfr. simpl in Hfr.
  destruct (indexFaces env j) as [indexResponse|e]; [|inversion Hfr].
  apply A_recordsOf_image in Hfr as ->. eapply list_elem_of_lookup_2, Hy.
Qed.

(** After a pass over the image set the state is consistent. *)
Lemma A_pass_consistent env w :
  consistentA (detectAndGroupFaces env (images w) w).2.
Proof.
  split.
  - intros gid bucket Hbucket.
    destruct (A_lookup_faceGroups env (images w) w gid) as [Hrecs Hlookup].
    rewrite Hlookup in Hbucket. rewrite Hrecs.
    destruct (filter _ _) as [|fr0 rest] eqn:Hfilter; [discriminate|].
    injection Hbucket as <-. split; [discriminate|].
    intros fr Hfr. rewrite <- Hfilter in Hfr.
    apply list_elem_of_filter in Hfr as [_ Hfr]. exact Hfr.
  - destruct (A_lookup_faceGroups env (images w) w "") as [Hrecs _].
    rewrite Hrecs. intros fr Hfr. apply A_tempFaceRecords_image in Hfr.
    rewrite A_detectAndGroupFaces_run. exact Hfr.
Qed.

Lemma A_fetch_consistent env prefixes w :
  consistentA w -> consistentA (fetchEventImagesFrom env prefixes w).2.
Proof.
  intros Hw.
  destruct (A_fetch_run env prefixes w) as (allImages & _ & _ & _ & ->).
  destruct allImages as [|image0 allImages]; cbn [snd].
  - revert Hw. apply consistentA_ext; reflexivity.
  - set (w1 := with_images _ _).
    change (image0 :: allImages) with (images w1) at 1.
    pose proof (A_pass_consistent env w1) as Hpass. revert Hpass.
    apply consistentA_ext; reflexivity.
Qed.

Lemma A_delete_consistent image answer w :
  consistentA w -> consistentA (handleDelete_settled image answer w).2.
Proof.
  intros [Hgroups Himages]. rewrite A_handleDelete_settled_run.
  destruct answer as [[]|e]; cbn [snd]; [|split; assumption].
  split.
  - intros gid bucket Hbucket. cbn in Hbucket.
    rewrite A_lookup_removeFromGroups in Hbucket.
    destruct (faceGroups w !! gid) as [recs|] eqn:Hrecs; [|discriminate].
    simpl in Hbucket.
    destruct (filter _ recs) as [|fr0 rest] eqn:Hfilter; [discriminate|].
    injection Hbucket as <-. split; [discriminate|].
    intros fr Hfr. rewrite <- Hfilter in Hfr.
    apply list_elem_of_filter in Hfr as [Hkey Hfr]. cbn.
    apply list_elem_of_filter. split; [exact Hkey|].
    destruct (Hgroups gid recs Hrecs) as [_ Hsub]. apply Hsub, Hfr.
  - intros fr Hfr. cbn in Hfr. apply list_elem_of_filter in Hfr as [Hkey Hfr]. cbn.
    apply list_elem_of_filter. split; [exact Hkey|]. apply Himages, Hfr.
Qed.

Lemma A_initial_consistent : consistentA initial.
Proof.
  split.
  - intros gid bucket Hbucket. cbn in Hbucket. rewrite lookup_empty in Hbucket.
    discriminate.
  - intros fr Hfr. inversion Hfr.
Qed.

End StrategyA_consistent.

(** X11. Strategy A keeps its groups, its face records and its image set
    consistent: in the initial state, and after a load, a delete (from the
    click or from the moment the storage call settles, whatever its
    answer) and an upload started in a consistent state, no group is
    empty, every member of a group is one of the face records, and every
    face record points at an image of the image set. *)
Theorem A_state_stays_consistent :
  consistentA StrategyA.initial /\
  forall w, consistentA w ->
    (forall env prefixes,
       consistentA (StrategyA.fetchEventImagesFrom env prefixes w).2) /\
    (forall env, consistentA (StrategyA.fetchEventImages env w).2) /\
    (forall env image, consistentA (StrategyA.handleDelete env image w).2) /\
    (forall image answer,
       consistentA (StrategyA.handleDelete_settled image answer w).2) /\
    (forall env files userEmail,
       consistentA (StrategyA.handleFileChange env files userEmail w).2).
Proof.
  split; [exact A_initial_consistent|].
  intros w Hw. split; [|split; [|split; [|split]]].
  - intros env prefixes. apply A_fetch_consistent, Hw.
  - intros env. apply A_fetch_consistent, Hw.
  - intros env image. rewrite A_handleDelete_split.
    apply A_delete_consistent. revert Hw. apply consistentA_ext; reflexivity.
  - intros image answer. apply A_delete_consistent, Hw.
  - intros env files userEmail.
    destruct files as [[|file files]|]; [exact Hw| |exact Hw].
    destruct (truthy_opt userEmail) as [email|] eqn:Hemail.
    + rewrite A_handleFileChange_run by (rewrite Hemail; discriminate).
      cbn [snd].
      destruct (A_uploadAll_frame env (file :: files)
                  (StrategyA.with_uploading true w)) as (_ & _ & Hframe).
      injection Hframe as _ Himg _ _ _ Hgroups Hrecs _ _.
      set (up := StrategyA.uploadAll env (file :: files)
                   (StrategyA.with_uploading true w)) in *.
      assert (consistentA up.2) as Hup
        by (revert Hw; apply consistentA_ext; assumption).
      destruct up.1 as [[]|e].
      * pose proof (A_fetch_consistent env
                      ["events/shared/"
                       +:+ default (StrategyA.eventId env)
                             (truthy_opt (StrategyA.selectedEvent env))
                       +:+ "/images"] up.2 Hup) as Hfetch.
        revert Hfetch. apply consistentA_ext; reflexivity.
      * revert Hup. apply consistentA_ext; reflexivity.
    + unfold StrategyA.handleFileChange. rewrite Hemail. exact Hw.
Qed.

Lemma A_state_stays_consistent_witness : consistentA Examples.loadedA.
Proof.
  destruct A_state_stays_consistent as [Hinitial Hstep].
  destruct (Hstep StrategyA.initial Hinitial) as (_ & Hfetch & _).
  apply (Hfetch Examples.twinsA).
Defined.

Lemma length_dedupe (xs : list string) : length (dedupe xs) <= length xs.
Proof.
  induction xs as [|x xs IH]; [reflexivity|]. simpl.
  pose proof (length_filter (fun y => y ≠ x) (dedupe xs)). lia.
Qed.

(** X12. Strategy A rendering in a consistent state: every group shows
    at least one image and no empty tile; each tile is an image of the
    image set, and the number of images announced for the group is the
    number of its tiles, between 1 and the number of its face records. *)
Theorem A_groups_show_no_empty_tile (w : StrategyA.World) (gid : string)
    (bucket : list StrategyA.FaceRecordWithImage) :
  consistentA w ->
  StrategyA.faceGroups w !! gid = Some bucket ->
  let tiles := uniqueImages bucket (StrategyA.images w) in
  Forall (fun t => exists img, t = Some img /\ img ∈ StrategyA.images w) tiles /\
  foundCount tiles = length tiles /\
  1 <= foundCount tiles <= length bucket.
Proof.
  intros [Hgroups Himages] Hbucket tiles. subst tiles.
  destruct (Hgroups gid bucket Hbucket) as [Hne Hsub].
  unfold uniqueImages, foundCount.
  destruct (tiles_of_known_keys (StrategyA.images w)
              (dedupe ((fun fr => key (StrategyA.image fr)) <$> bucket)))
    as (Hall & _ & Hlen).
  { intros k Hk. apply elem_of_dedupe, list_elem_of_fmap in Hk as (fr & -> & Hfr).
    apply list_elem_of_fmap. exists (StrategyA.image fr). split; [reflexivity|].
    apply Himages, Hsub, Hfr. }
  split; [exact Hall|]. split; [exact Hlen|]. rewrite Hlen, length_fmap.
  split.
  - destruct bucket as [|fr bucket]; [contradiction|]. simpl. lia.
  - etransitivity; [apply length_dedupe|]. rewrite length_fmap. reflexivity.
Qed.

Lemma A_groups_show_no_empty_tile_witness :
  StrategyA.faceGroups Examples.loadedA !! "group_1"
    = Some [Examples.face0; Examples.face1] /\
  1 <= foundCount (uniqueImages [Examples.face0; Examples.face1]
                     (StrategyA.images Examples.loadedA)) <= 2.
Proof.
  assert (StrategyA.faceGroups Examples.loadedA !! "group_1"
          = Some [Examples.face0; Examples.face1]) as Hgroup
    by (vm_compute; reflexivity).
  split; [exact Hgroup|].
  destruct (A_groups_show_no_empty_tile Examples.loadedA "group_1"
              [Examples.face0; Examples.face1]) as (_ & _ & Hcount).
  - apply A_fetch_consistent, A_initial_consistent.
  - exact Hgroup.
  - exact Hcount.
Defined.

(** ** Strategy B: every image has its group *)

Section StrategyB_grouped.
Import StrategyB.

Lemma allGroupedB_ungrouped w : allGroupedB w -> ungrouped w = [].
Proof.
  intros Hw. unfold ungrouped. apply filter_none. intros x Hx.
  destruct (Hw x Hx) as (gid & bucket & Hbucket & Hin).
  rewrite (includes_elem _ x (B_grouped_elem _ gid bucket x Hbucket Hin)).
  reflexivity.
Qed.

(** The world in which a load runs its grouping pass. *)
Lemma B_fetch_some env prefixes w :
  listedKeys (listObjects env) (seq 0 (length prefixes)) <> [] ->
  exists allImages w1,
    images w1 = allImages /\
    key <$> allImages = listedKeys (listObjects env) (seq 0 (length prefixes)) /\
    oid <$> allImages = seq (next_oid w) (length allImages) /\
    Forall (wellBuilt (S3_BUCKET_NAME env)) allImages /\
    next_oid w1 = next_oid w + length allImages /\
    issued w1 = issued w ++ (ListObjectsV2Command (S3_BUCKET_NAME env) <$> prefixes) /\
    (deleting w1, loading w1, error w1, uploading w1, uploadProgress w1, faceGroups w1,
     uploads w1, progressTrace w1)
    = (deleting w, loading w, error w, uploading w, uploadProgress w, faceGroups w,
       uploads w, progressTrace w) /\
    (fetchEventImagesFrom env prefixes w).2 =
      with_loading false
        (with_error
           match (detectAndGroupFaces env allImages w1).1 with
           | Fulfilled _ => None
           | Rejected e => Some (message e)
           end (detectAndGroupFaces env allImages w1).2).
Proof.
  intros Hlisted.
  destruct (B_fetch_run env prefixes w) as (allImages & Hkeys & Hoids & Hbuilt & ->).
  rewrite <- Hkeys in Hlisted.
  destruct allImages as [|image0 allImages]; [contradiction|].
  exists (image0 :: allImages),
    (with_images (fun _ => image0 :: allImages)
       (alloc (length (image0 :: allImages))
          (with_issued (ListObjectsV2Command (S3_BUCKET_NAME env) <$> prefixes) w)).2).
  split; [reflexivity|]. split; [exact Hkeys|]. split; [exact Hoids|].
  split; [exact Hbuilt|]. split; [reflexivity|]. split; [reflexivity|].
  split; reflexivity.
Qed.

(** A load that lists at least one image and whose pass completes. *)
Lemma B_fetch_some_plain env prefixes w :
  listedKeys (listObjects env) (seq 0 (length prefixes)) <> [] ->
  plainTags env ->
  exists allImages w1,
    images w1 = allImages /\
    key <$> allImages = listedKeys (listObjects env) (seq 0 (length prefixes)) /\
    oid <$> allImages = seq (next_oid w) (length allImages) /\
    throwsOn (resultsOf env allImages) allImages = false /\
    (fetchEventImagesFrom env prefixes w).2 =
      with_loading false
        (with_error None (detectAndGroupFaces env allImages w1).2).
Proof.
  intros Hlisted Hplain.
  destruct (B_fetch_some env prefixes w Hlisted)
    as (allImages & w1 & Himg & Hkeys & Hoids & _ & _ & _ & _ & ->).
  exists allImages, w1. split; [exact Himg|]. split; [exact Hkeys|].
  split; [exact Hoids|]. split; [apply B_plain_throwsOn, Hplain|].
  rewrite (B_detectAndGroupFaces_completes env allImages w1
             (B_plain_throwsOn env allImages Hplain)).
  reflexivity.
Qed.

Lemma B_fetch_allGrouped env prefixes w :
  listedKeys (listObjects env) (seq 0 (length prefixes)) <> [] ->
  plainTags env ->
  allGroupedB (fetchEventImagesFrom env prefixes w).2.
Proof.
  intros Hlisted Hplain.
  destruct (B_fetch_some_plain env prefixes w Hlisted Hplain)
    as (allImages & w1 & Himg & _ & _ & Hthrows & ->).
  destruct (B_pass_partitions_its_input env allImages w1 Himg Hthrows)
    as (_ & Himg' & _ & Hall).
  intros x Hx. cbn in Hx. rewrite Himg' in Hx.
  destruct (Hall x Hx) as (gid & bucket & Hbucket & Hin & _).
  exists gid, bucket. split; [exact Hbucket|exact Hin].
Qed.

Lemma B_delete_allGrouped image answer w :
  allGroupedB w -> allGroupedB (handleDelete_settled image answer w).2.
Proof.
  intros Hw. rewrite B_handleDelete_settled_run.
  destruct answer as [[]|e]; cbn [snd]; [|exact Hw].
  intros x Hx. cbn in Hx. apply list_elem_of_filter in Hx as [Hkey Hx].
  destruct (Hw x Hx) as (gid & bucket & Hbucket & Hin).
  exists gid, (filter (fun img => key img ≠ key image) bucket). split.
  - change (removeFromGroups (key image) (faceGroups w) !! gid
            = Some (filter (fun img => key img ≠ key image) bucket)).
    rewrite B_lookup_removeFromGroups, Hbucket. reflexivity.
  - apply list_elem_of_filter. split; [exact Hkey|exact Hin].
Qed.

End StrategyB_grouped.

(** X13. Strategy B: a load that lists at least one image, with searches
    that answer no tag naming an inherited property, clears the error and
    leaves every image of the image set in exactly one group, each group
    listing images of the set without repetition, so that nothing is shown
    under Other Images; the image objects are pairwise distinct. *)
Theorem B_load_groups_every_image (env : StrategyB.Env) (prefixes : list string)
    (w : StrategyB.World) :
  listedKeys (StrategyB.listObjects env) (seq 0 (length prefixes)) <> [] ->
  StrategyB.plainTags env ->
  let w' := (StrategyB.fetchEventImagesFrom env prefixes w).2 in
  StrategyB.error w' = None /\
  NoDup (StrategyB.images w') /\
  StrategyB.ungrouped w' = [] /\
  forall x, x ∈ StrategyB.images w' ->
    exists gid bucket,
      StrategyB.faceGroups w' !! gid = Some bucket /\ x ∈ bucket /\
      NoDup bucket /\
      (forall y, y ∈ bucket -> y ∈ StrategyB.images w') /\
      forall gid' bucket',
        StrategyB.faceGroups w' !! gid' = Some bucket' -> x ∈ bucket' -> gid' = gid.
Proof.
  intros Hlisted Hplain w'.
  assert (StrategyB.ungrouped w' = []) as Hnone
    by (apply allGroupedB_ungrouped, B_fetch_allGrouped; assumption).
  revert Hnone. subst w'.
  destruct (B_fetch_some_plain env prefixes w Hlisted Hplain)
    as (allImages & w1 & Himg & _ & Hoids & Hthrows & ->).
  destruct (B_pass_partitions_its_input env allImages w1 Himg Hthrows)
    as (_ & Himg' & _ & Hall).
  assert (NoDup allImages) as Hnodup.
  { apply (NoDup_fmap_1 oid). rewrite Hoids. apply NoDup_seq. }
  intros Hnone. split; [reflexivity|].
  split; [cbn; rewrite Himg'; exact Hnodup|]. split; [exact Hnone|].
  intros x Hx. cbn in Hx. rewrite Himg' in Hx.
  destruct (Hall x Hx) as (gid & bucket & Hbucket & Hin & Hdistinct & Hsub & Huniq).
  exists gid, bucket. split; [exact Hbucket|]. split; [exact Hin|].
  split; [apply Hdistinct, Hnodup|]. split; [|exact Huniq].
  intros y Hy. cbn. rewrite Himg'. apply Hsub, Hy.
Qed.

Lemma B_load_groups_every_image_witness :
  StrategyB.images Examples.loadedB = [Examples.photoA] /\
  StrategyB.ungrouped Examples.loadedB = [].
Proof.
  split; [reflexivity|].
  destruct (B_load_groups_every_image (Examples.quietB [Examples.keyA])
              ["events/shared/party/images"] StrategyB.initial) as (_ & _ & Hnone & _).
  - vm_compute. discriminate.
  - apply B_quiet_plain.
  - exact Hnone.
Defined.

(** X14. Strategy B: once every image of the image set is in a group,
    nothing is shown under Other Images, and a delete keeps it so,
    whatever the storage answers: every image that stays is still a
    member of a group. *)
Theorem B_deletes_keep_other_images_empty (w : StrategyB.World) :
  allGroupedB w ->
  StrategyB.ungrouped w = [] /\
  (forall env image,
     let w' := (StrategyB.handleDelete env image w).2 in
     allGroupedB w' /\ StrategyB.ungrouped w' = []) /\
  (forall image answer,
     let w' := (StrategyB.handleDelete_settled image answer w).2 in
     allGroupedB w' /\ StrategyB.ungrouped w' = []).
Proof.
  intros Hw. split; [apply allGroupedB_ungrouped, Hw|]. split.
  - intros env image w'. subst w'. rewrite B_handleDelete_split.
    assert (allGroupedB
              (StrategyB.handleDelete_settled image (StrategyB.deleteObject env)
                 (StrategyB.handleDelete_request env image w).2).2) as Hw'
      by (apply B_delete_allGrouped; exact Hw).
    split; [exact Hw'|apply allGroupedB_ungrouped, Hw'].
  - intros image answer w'. subst w'.
    pose proof (B_delete_allGrouped image answer w Hw) as Hw'.
    split; [exact Hw'|apply allGroupedB_ungrouped, Hw'].
Qed.

Lemma B_deletes_keep_other_images_empty_witness :
  StrategyB.ungrouped
    (StrategyB.handleDelete (Examples.quietB [Examples.keyA]) Examples.photoA
       Examples.loadedB).2 = [].
Proof.
  destruct (B_deletes_keep_other_images_empty Examples.loadedB) as (_ & Hdelete & _).
  - apply (B_fetch_allGrouped (Examples.quietB [Examples.keyA])
             ["events/shared/party/images"] StrategyB.initial).
    + vm_compute. discriminate.
    + apply B_quiet_plain.
  - apply (Hdelete (Examples.quietB [Examples.keyA]) Examples.photoA).
Defined.

(** ** The images of a load *)

Section StrategyA_load.
Import StrategyA.

(** The world in which a load runs its grouping pass. *)
Lemma A_fetch_some env prefixes w :
  listedKeys (listObjects env) (seq 0 (length prefixes)) <> [] ->
  exists allImages w1,
    images w1 = allImages /\
    key <$> allImages = listedKeys (listObjects env) (seq 0 (length prefixes)) /\
    oid <$> allImages = seq (next_oid w) (length allImages) /\
    Forall (wellBuilt (S3_BUCKET_NAME env)) allImages /\
    next_oid w1 = next_oid w + length allImages /\
    issued w1 = issued w ++ (ListObjectsV2Command (S3_BUCKET_NAME env) <$> prefixes) /\
    (fetchEventImagesFrom env prefixes w).2 =
      with_loading false
        (with_error None (detectAndGroupFaces env allImages w1).2).
Proof.
  intros Hlisted.
  destruct (A_fetch_run env prefixes w) as (allImages & Hkeys & Hoids & Hbuilt & ->).
  rewrite <- Hkeys in Hlisted.
  destruct allImages as [|image0 allImages]; [contradiction|].
  exists (image0 :: allImages),
    (with_images (fun _ => image0 :: allImages)
       (alloc (length (image0 :: allImages))
          (with_issued (ListObjectsV2Command (S3_BUCKET_NAME env) <$> prefixes) w)).2).
  split; [reflexivity|]. split; [exact Hkeys|]. split; [exact Hoids|].
  split; [exact Hbuilt|]. split; [reflexivity|]. split; reflexivity.
Qed.

End StrategyA_load.

(** X15. A load that lists at least one image replaces the image set by
    freshly built objects, one per listed image key and in listing order:
    the URL of each is derived from its key, which is a non-empty image
    key; the objects are new (their identities are the next ones to be
    allocated) and pairwise distinct.  Holds for both variants. *)
Theorem load_builds_fresh_images :
  (forall (env : StrategyA.Env) prefixes w,
     listedKeys (StrategyA.listObjects env) (seq 0 (length prefixes)) <> [] ->
     let w' := (StrategyA.fetchEventImagesFrom env prefixes w).2 in
     key <$> StrategyA.images w'
       = listedKeys (StrategyA.listObjects env) (seq 0 (length prefixes)) /\
     Forall (wellBuilt (StrategyA.S3_BUCKET_NAME env)) (StrategyA.images w') /\
     oid <$> StrategyA.images w'
       = seq (StrategyA.next_oid w) (length (StrategyA.images w')) /\
     StrategyA.next_oid w' = StrategyA.next_oid w + length (StrategyA.images w') /\
     NoDup (StrategyA.images w')) /\
  (forall (env : StrategyB.Env) prefixes w,
     listedKeys (StrategyB.listObjects env) (seq 0 (length prefixes)) <> [] ->
     let w' := (StrategyB.fetchEventImagesFrom env prefixes w).2 in
     key <$> StrategyB.images w'
       = listedKeys (StrategyB.listObjects env) (seq 0 (length prefixes)) /\
     Forall (wellBuilt (StrategyB.S3_BUCKET_NAME env)) (StrategyB.images w') /\
     oid <$> StrategyB.images w'
       = seq (StrategyB.next_oid w) (length (StrategyB.images w')) /\
     StrategyB.next_oid w' = StrategyB.next_oid w + length (StrategyB.images w') /\
     NoDup (StrategyB.images w')).
Proof.
  split.
  - intros env prefixes w Hlisted w'. subst w'.
    destruct (A_fetch_some env prefixes w Hlisted)
      as (allImages & w1 & Himg & Hkeys & Hoids & Hbuilt & Hnext & _ & ->).
    rewrite A_detectAndGroupFaces_run. cbn. rewrite Himg, Hnext.
    repeat (split; [assumption|]). split; [reflexivity|].
    apply (NoDup_fmap_1 oid). rewrite Hoids. apply NoDup_seq.
  - intros env prefixes w Hlisted w'. subst w'.
    destruct (B_fetch_some env prefixes w Hlisted)
      as (allImages & w1 & Himg & Hkeys & Hoids & Hbuilt & Hnext & _ & _ & ->).
    rewrite B_detectAndGroupFaces_run.
    destruct (StrategyB.throwsOn _ _); cbn; rewrite Himg, Hnext;
      (repeat (split; [assumption|])); (split; [reflexivity|]);
      apply (NoDup_fmap_1 oid); rewrite Hoids; apply NoDup_seq.
Qed.

Lemma load_builds_fresh_images_witness :
  StrategyA.images Examples.loadedA = [Examples.photoA; Examples.photoB] /\
  Forall (wellBuilt "bucket") (StrategyA.images Examples.loadedA).
Proof.
  split; [reflexivity|].
  destruct load_builds_fresh_images as [HA _].
  destruct (HA Examples.twinsA ["events/shared/party/images"] StrategyA.initial)
    as (_ & Hbuilt & _).
  - vm_compute. discriminate.
  - exact Hbuilt.
Defined.

(** ** The download names of listed images *)

Lemma slashless_lower (s : string) : slashless (lower s) = slashless s.
Proof.
  induction s as [|c s IH]; [reflexivity|]. simpl. rewrite IH. f_equal. f_equal.
  unfold lower_ascii.
  destruct (Ascii.eqb c "/") eqn:Hc.
  - apply Ascii.eqb_eq in Hc as ->. reflexivity.
  - destruct ((65 <=? nat_of_ascii c)%nat && (nat_of_ascii c <=? 90)%nat) eqn:Hupper;
      [|exact Hc].
    apply andb_true_iff in Hupper as [Hlo Hhi].
    apply Nat.leb_le in Hlo, Hhi.
    apply Ascii.eqb_neq. intros Heq.
    apply (f_equal nat_of_ascii) in Heq.
    rewrite nat_ascii_embedding in Heq by lia.
    change (nat_of_ascii "/") with 47 in Heq. lia.
Qed.

(** The last segment of a path, and what appending a slash-free text
    does to it. *)
Lemma split_slash_last (a : string) :
  exists front la dir,
    split_slash a = front ++ [la] /\
    a = dir +:+ la /\
    slashless la = true /\
    ((front = [] /\ dir = "") \/ (front <> [] /\ exists d, dir = d +:+ "/")) /\
    forall b, slashless b = true -> split_slash (a +:+ b) = front ++ [la +:+ b].
Proof.
  induction a as [|c a (front & la & dir & Hsplit & Ha & Hla & Hdir & Happ)].
  - exists [], "", "". repeat split; auto.
    intros b Hb. apply split_slash_slashless, Hb.
  - destruct (Ascii.eqb c "/") eqn:Hc.
    + apply Ascii.eqb_eq in Hc as ->.
      exists ("" :: front), la, (String "/" dir).
      split; [simpl; rewrite Hsplit; reflexivity|].
      split; [rewrite append_cons, <- Ha; reflexivity|].
      split; [exact Hla|]. split.
      * right. split; [discriminate|].
        destruct Hdir as [[_ ->]|[_ [d ->]]]; [exists ""|exists (String "/" d)];
          reflexivity.
      * intros b Hb. rewrite append_cons. simpl. rewrite (Happ b Hb). reflexivity.
    + destruct front as [|seg front].
      * destruct Hdir as [[_ ->]|[Hne _]]; [|contradiction].
        exists [], (String c la), "".
        split; [simpl; rewrite Hc, Hsplit; reflexivity|].
        split; [rewrite Ha; reflexivity|].
        split; [simpl; rewrite Hc, Hla; reflexivity|].
        split; [left; auto|].
        intros b Hb. rewrite append_cons. simpl. rewrite Hc, (Happ b Hb). reflexivity.
      * destruct Hdir as [[Hnil _]|[_ [d ->]]]; [discriminate|].
        exists (String c seg :: front), la, (String c d +:+ "/").
        split; [simpl; rewrite Hc, Hsplit; reflexivity|].
        split; [rewrite Ha, !append_cons; reflexivity|].
        split; [exact Hla|].
        split; [right; split; [discriminate|eauto]|].
        intros b Hb. rewrite append_cons. simpl. rewrite Hc, (Happ b Hb). reflexivity.
Qed.

(** The download name of an image key. *)
Lemma image_key_download_name (k fallback : string) :
  is_image_key k = true ->
  exists dir,
    k = dir +:+ downloadName k fallback /\
    (dir = "" \/ exists d, dir = d +:+ "/") /\
    downloadName k fallback <> "" /\
    slashless (downloadName k fallback) = true /\
    is_image_key (downloadName k fallback) = true.
Proof.
  intros Hk.
  assert (exists stem ext, k = stem +:+ ext /\ ext <> "" /\ slashless ext = true /\
                           is_image_key ext = true) as (stem & ext & -> & Hne & Hext & Himg).
  { unfold is_image_key in Hk. rewrite !orb_true_iff, !ends_with_spec in Hk.
    destruct Hk as [[[p Hp]|[p Hp]]|[p Hp]];
      destruct (lower_split _ _ _ Hp) as (a & b & -> & _ & Hb);
      exists a, b; (split; [reflexivity|]);
      (split; [intros ->; discriminate|]);
      (split; [rewrite <- slashless_lower, Hb; reflexivity|]);
      unfold is_image_key; rewrite Hb; reflexivity. }
  destruct (split_slash_last stem) as (front & la & dir & _ & Hstem & Hla & Hdir & Happ).
  assert (downloadName (stem +:+ ext) fallback = la +:+ ext) as ->.
  { unfold downloadName. rewrite (Happ ext Hext), last_snoc. simpl.
    replace (truthy (la +:+ ext)) with true; [reflexivity|].
    symmetry. apply truthy_true_iff. intros Heq.
    apply (f_equal String.length) in Heq. rewrite length_append in Heq.
    destruct ext; [contradiction|]. simpl in Heq. lia. }
  exists dir. split; [rewrite Hstem, append_assoc; reflexivity|].
  split; [destruct Hdir as [[_ ->]|[_ Hd]]; auto|].
  split.
  - intros Heq. apply (f_equal String.length) in Heq. rewrite length_append in Heq.
    destruct ext; [contradiction|]. simpl in Heq. lia.
  - split; [rewrite slashless_append, Hla, Hext; reflexivity|].
    unfold is_image_key in *. rewrite !orb_true_iff, !ends_with_spec in *.
    rewrite lower_append.
    destruct Himg as [[[p ->]|[p ->]]|[p ->]]; rewrite <- append_assoc; eauto.
Qed.

(** X16. Download All gives every image built by a listing the name of
    its file: the name is what follows the last slash of the key (the
    whole key when it has no slash), it is not empty, it is itself an
    image file name, and the numbered fallback is never used. *)
Theorem listed_images_download_under_their_file_name (bucket : string)
    (imgs : list EventImage) (i : nat) (img : EventImage) :
  Forall (wellBuilt bucket) imgs ->
  imgs !! i = Some img ->
  exists dir name,
    downloadAllNames imgs !! i = Some name /\
    key img = dir +:+ name /\
    (dir = "" \/ exists d, dir = d +:+ "/") /\
    name <> "" /\ slashless name = true /\ is_image_key name = true.
Proof.
  intros Hbuilt Himg.
  rewrite Forall_forall in Hbuilt.
  destruct (Hbuilt img (list_elem_of_lookup_2 _ _ _ Himg)) as (_ & Hkey & _).
  destruct (image_key_download_name (key img) ("image-" +:+ pretty i) Hkey)
    as (dir & Hdir & Hshape & Hne & Hslash & Hname).
  exists dir, (downloadName (key img) ("image-" +:+ pretty i)).
  split; [|auto].
  unfold downloadAllNames. rewrite list_lookup_imap, Himg. reflexivity.
Qed.

Lemma listed_images_download_under_their_file_name_witness :
  downloadAllNames MoreExamples.twoPhotos !! 1 = Some "1700000009999-b.jpg" /\
  exists dir name,
    downloadAllNames MoreExamples.twoPhotos !! 1 = Some name /\
    key Examples.photoB = dir +:+ name /\
    (dir = "" \/ exists d, dir = d +:+ "/") /\
    name <> "" /\ slashless name = true /\ is_image_key name = true.
Proof.
  split; [reflexivity|].
  apply (listed_images_download_under_their_file_name "bucket"
           MoreExamples.twoPhotos 1 Examples.photoB).
  - repeat constructor; try reflexivity; discriminate.
  - reflexivity.
Defined.

(** ** What a delete leaves alone *)

Lemma other_marks_kept (k k' : string) (marks : list string) :
  k <> k' ->
  k ∈ filter (fun x => x ≠ k') (marks ++ [k']) <-> k ∈ marks.
Proof.
  intros Hk. rewrite list_elem_of_filter, elem_of_app, list_elem_of_singleton.
  split.
  - intros [_ [Hin|Heq]]; [exact Hin|contradiction].
  - intros Hin. split; [exact Hk|left; exact Hin].
Qed.

(** X17. A delete sends exactly one command, the [DeleteObjectCommand] of
    the image's key, and whatever the storage answers it leaves alone the
    deleting marks of the other keys, the error, the loading flag and the
    upload cells, every image with another key, and every group member
    that belongs to another key; it adds no image, no group and no group
    member.  A failed delete is not reported: the error is as before.
    Holds for both variants. *)
Theorem delete_touches_only_its_key :
  (forall (env : StrategyA.Env) image w,
     let w' := (StrategyA.handleDelete env image w).2 in
     StrategyA.issued w' =
       StrategyA.issued w
       ++ [DeleteObjectCommand (StrategyA.S3_BUCKET_NAME env) (key image)] /\
     (forall k, k <> key image ->
        k ∈ StrategyA.deleting w' <-> k ∈ StrategyA.deleting w) /\
     (StrategyA.error w', StrategyA.loading w', StrategyA.uploading w',
      StrategyA.uploadProgress w', StrategyA.uploads w')
     = (StrategyA.error w, StrategyA.loading w, StrategyA.uploading w,
        StrategyA.uploadProgress w, StrategyA.uploads w) /\
     (forall x, x ∈ StrategyA.images w' -> x ∈ StrategyA.images w) /\
     (forall x, key x <> key image ->
        x ∈ StrategyA.images w -> x ∈ StrategyA.images w') /\
     (forall gid bucket fr,
        StrategyA.faceGroups w' !! gid = Some bucket -> fr ∈ bucket ->
        exists recs, StrategyA.faceGroups w !! gid = Some recs /\ fr ∈ recs) /\
     (forall gid recs fr,
        StrategyA.faceGroups w !! gid = Some recs -> fr ∈ recs ->
        key (StrategyA.image fr) <> key image ->
        exists bucket, StrategyA.faceGroups w' !! gid = Some bucket /\ fr ∈ bucket)) /\
  (forall (env : StrategyB.Env) image w,
     let w' := (StrategyB.handleDelete env image w).2 in
     StrategyB.issued w' =
       StrategyB.issued w
       ++ [DeleteObjectCommand (StrategyB.S3_BUCKET_NAME env) (key image)] /\
     (forall k, k <> key image ->
        k ∈ StrategyB.deleting w' <-> k ∈ StrategyB.deleting w) /\
     (StrategyB.error w', StrategyB.loading w', StrategyB.uploading w',
      StrategyB.uploadProgress w', StrategyB.uploads w')
     = (StrategyB.error w, StrategyB.loading w, StrategyB.uploading w,
        StrategyB.uploadProgress w, StrategyB.uploads w) /\
     (forall x, x ∈ StrategyB.images w' -> x ∈ StrategyB.images w) /\
     (forall x, key x <> key image ->
        x ∈ StrategyB.images w -> x ∈ StrategyB.images w') /\
     (forall gid bucket x,
        StrategyB.faceGroups w' !! gid = Some bucket -> x ∈ bucket ->
        exists members, StrategyB.faceGroups w !! gid = Some members /\ x ∈ members) /\
     (forall gid members x,
        StrategyB.faceGroups w !! gid = Some members -> x ∈ members ->
        key x <> key image ->
        exists bucket, StrategyB.faceGroups w' !! gid = Some bucket /\ x ∈ bucket)).
Proof.
  split.
  - intros env image w w'. subst w'.
    rewrite A_handleDelete_split, A_handleDelete_settled_run. cbn [snd].
    destruct (StrategyA.deleteObject env) as [[]|e].
    + split; [reflexivity|]. split; [intros k Hk; apply other_marks_kept, Hk|].
      split; [reflexivity|]. split; [|split; [|split]].
      * intros x Hx. cbn in Hx. apply list_elem_of_filter in Hx as [_ Hx]. exact Hx.
      * intros x Hkey Hx. cbn. apply list_elem_of_filter. auto.
      * intros gid bucket fr Hbucket Hfr.
        change (StrategyA.removeFromGroups (key image) (StrategyA.faceGroups w) !! gid
                = Some bucket) in Hbucket.
        rewrite A_lookup_removeFromGroups in Hbucket.
        destruct (StrategyA.faceGroups w !! gid) as [recs|]; [|discriminate].
        exists recs. split; [reflexivity|]. simpl in Hbucket.
        destruct (filter _ recs) as [|fr0 rest] eqn:Hfilter; [discriminate|].
        injection Hbucket as <-. rewrite <- Hfilter in Hfr.
        apply list_elem_of_filter in Hfr as [_ Hfr]. exact Hfr.
      * intros gid recs fr Hrecs Hfr Hkey.
        assert (fr ∈ filter (fun fr => key (StrategyA.image fr) ≠ key image) recs)
          as Hkept by (apply list_elem_of_filter; auto).
        exists (filter (fun fr => key (StrategyA.image fr) ≠ key image) recs).
        split; [|exact Hkept].
        change (StrategyA.removeFromGroups (key image) (StrategyA.faceGroups w) !! gid
                = Some (filter (fun fr => key (StrategyA.image fr) ≠ key image) recs)).
        rewrite A_lookup_removeFromGroups, Hrecs. simpl.
        destruct (filter _ recs); [inversion Hkept|reflexivity].
    + split; [reflexivity|]. split; [intros k Hk; apply other_marks_kept, Hk|].
      split; [reflexivity|]. cbn. eauto 10.
  - intros env image w w'. subst w'.
    rewrite B_handleDelete_split, B_handleDelete_settled_run. cbn [snd].
    destruct (StrategyB.deleteObject env) as [[]|e].
    + split; [reflexivity|]. split; [intros k Hk; apply other_marks_kept, Hk|].
      split; [reflexivity|]. split; [|split; [|split]].
      * intros x Hx. cbn in Hx. apply list_elem_of_filter in Hx as [_ Hx]. exact Hx.
      * intros x Hkey Hx. cbn. apply list_elem_of_filter. auto.
      * intros gid bucket x Hbucket Hx.
        change (StrategyB.removeFromGroups (key image) (StrategyB.faceGroups w) !! gid
                = Some bucket) in Hbucket.
        rewrite B_lookup_removeFromGroups in Hbucket.
        destruct (StrategyB.faceGroups w !! gid) as [members|]; [|discriminate].
        exists members. split; [reflexivity|]. injection Hbucket as <-.
        apply list_elem_of_filter in Hx as [_ Hx]. exact Hx.
      * intros gid members x Hmembers Hx Hkey.
        exists (filter (fun img => key img ≠ key image) members). split.
        -- change (StrategyB.removeFromGroups (key image) (StrategyB.faceGroups w) !! gid
                   = Some (filter (fun img => key img ≠ key image) members)).
           rewrite B_lookup_removeFromGroups, Hmembers. reflexivity.
        -- apply list_elem_of_filter. auto.
    + split; [reflexivity|]. split; [intros k Hk; apply other_marks_kept, Hk|].
      split; [reflexivity|]. cbn. eauto 10.
Qed.

(** ** Strategy B: the group an image is filed under *)

Section StrategyB_filing.
Import StrategyB.

(** The first image of a list with the key of [x]. *)
Lemma first_with_key (imgs : list EventImage) (x : EventImage) :
  x ∈ imgs ->
  exists j y,
    imgs !! j = Some y /\ key y = key x /\
    forall i z, i < j -> imgs !! i = Some z -> key z <> key x.
Proof.
  induction imgs as [|a imgs IH]; [intros Hx; inversion Hx|].
  intros Hx. destruct (decide (key a = key x)) as [Heq|Hne].
  - exists 0, a. split; [reflexivity|]. split; [exact Heq|]. intros i z Hi. lia.
  - apply elem_of_cons in Hx as [->|Hx]; [contradiction|].
    destruct (IH Hx) as (j & y & Hy & Hkey & Hfirst).
    exists (S j), y. split; [exact Hy|]. split; [exact Hkey|].
    intros [|i] z Hi Hz.
    + injection Hz as <-. exact Hne.
    + apply (Hfirst i z); [lia|exact Hz].
Qed.

(** [results.find(r => r.key === image.key)] finds the result of the
    first image with that key. *)
Lemma B_find_result (g : nat -> EventImage -> string) (imgs : list EventImage) j y k :
  imgs !! j = Some y -> key y = k ->
  (forall i z, i < j -> imgs !! i = Some z -> key z <> k) ->
  find (fun r => String.eqb (result_key r) k)
    (imap (fun i image => {| result_key := key image; groupId := g i image |}) imgs)
  = Some {| result_key := k; groupId := g j y |}.
Proof.
  revert g j. induction imgs as [|a imgs IH]; intros g j Hy Hkey Hfirst;
    [discriminate|].
  cbn [imap find result_key]. destruct j as [|j].
  - injection Hy as ->. rewrite Hkey, String.eqb_refl. reflexivity.
  - assert (key a <> k) as Hne by (apply (Hfirst 0 a); [lia|reflexivity]).
    apply String.eqb_neq in Hne. rewrite Hne.
    apply (IH (g ∘ S) j Hy Hkey). intros i z Hi Hz. apply (Hfirst (S i) z); [lia|exact Hz].
Qed.

Lemma B_gidOf_first env imgs j y x :
  imgs !! j = Some y -> key y = key x ->
  (forall i z, i < j -> imgs !! i = Some z -> key z <> key x) ->
  gidOf (resultsOf env imgs) x = groupIdOf env j y.
Proof.
  intros Hy Hkey Hfirst. unfold gidOf, resultsOf.
  rewrite (B_find_result (groupIdOf env) imgs j y (key x) Hy Hkey Hfirst). reflexivity.
Qed.

End StrategyB_filing.

(** The loop over the images throws exactly when the id resolved for
    the first image with some key is an inherited name. *)
Lemma B_throwsOn_false env imgs :
  StrategyB.throwsOn (StrategyB.resultsOf env imgs) imgs = false <->
  forall j y,
    imgs !! j = Some y ->
    (forall i z, i < j -> imgs !! i = Some z -> key z <> key y) ->
    inherited (StrategyB.groupIdOf env j y) = false.
Proof.
  unfold StrategyB.throwsOn. split.
  - intros Hnone j y Hy Hfirst.
    rewrite <- (B_gidOf_first env imgs j y y Hy eq_refl Hfirst).
    apply not_true_is_false. intros Hin.
    assert (existsb (fun image =>
                       inherited (StrategyB.gidOf (StrategyB.resultsOf env imgs) image))
              imgs = true) as Hex; [|congruence].
    apply existsb_exists. exists y. split; [|exact Hin].
    apply list_elem_of_In. eapply list_elem_of_lookup_2, Hy.
  - intros Hall. apply not_true_is_false.
    intros (x & Hx & Hin)%existsb_exists. apply list_elem_of_In in Hx.
    destruct (first_with_key imgs x Hx) as (j & y & Hy & Hkey & Hfirst).
    rewrite (B_gidOf_first env imgs j y x Hy Hkey Hfirst) in Hin.
    rewrite Hall in Hin; [discriminate|exact Hy|].
    intros i z Hi Hz. rewrite Hkey. apply (Hfirst i z Hi Hz).
Qed.

(** X18. Strategy B: the loop that files the images throws a [TypeError]
    exactly when the group id resolved for the first image with some key
    names a property that a plain object inherits; the pass then ends
    with that error and publishes nothing.  Otherwise the pass completes
    and files every image under the group id resolved for the first
    image of the pass that has the same key: every group it publishes has
    a member, its id is the id resolved for one of the images (the
    fallback id for an image without a result is never used), and when
    the keys of the images are pairwise distinct each image is in the
    group of its own resolved id.  In both cases the pass has sent, for
    every image, an [IndexFaces] request whose [ExternalImageId] is the
    id resolved for that image. *)
Theorem B_first_occurrence_decides_the_group (env : StrategyB.Env)
    (imgs : list EventImage) (w : StrategyB.World) :
  let run := StrategyB.detectAndGroupFaces env imgs w in
  let completes :=
    forall j y,
      imgs !! j = Some y ->
      (forall i z, i < j -> imgs !! i = Some z -> key z <> key y) ->
      inherited (StrategyB.groupIdOf env j y) = false in
  (run.1 = Fulfilled tt <-> completes) /\
  (~ completes ->
   run.1 = Rejected StrategyB.pushIsNotAFunction /\
   StrategyB.faceGroups run.2 = StrategyB.faceGroups w) /\
  (completes ->
   (forall x, x ∈ imgs ->
      exists j y,
        imgs !! j = Some y /\ key y = key x /\
        (forall i z, i < j -> imgs !! i = Some z -> key z <> key x) /\
        exists bucket,
          StrategyB.faceGroups run.2 !! StrategyB.groupIdOf env j y = Some bucket /\
          x ∈ bucket) /\
   (forall gid bucket,
      StrategyB.faceGroups run.2 !! gid = Some bucket ->
      bucket <> [] /\
      exists j y, imgs !! j = Some y /\ gid = StrategyB.groupIdOf env j y) /\
   (NoDup (key <$> imgs) ->
    forall j y, imgs !! j = Some y ->
      exists bucket,
        StrategyB.faceGroups run.2 !! StrategyB.groupIdOf env j y = Some bucket /\
        y ∈ bucket)) /\
  (forall j y, imgs !! j = Some y ->
     IndexFacesCommand (StrategyB.eventId env) (StrategyB.S3_BUCKET_NAME env) (key y)
       (StrategyB.groupIdOf env j y) ∈ StrategyB.issued run.2).
Proof.
  intros run completes. subst run.
  pose proof (B_throwsOn_false env imgs) as Hiff. fold completes in Hiff.
  rewrite B_detectAndGroupFaces_run.
  assert (forall x, x ∈ imgs ->
            exists j y,
              imgs !! j = Some y /\ key y = key x /\
              (forall i z, i < j -> imgs !! i = Some z -> key z <> key x) /\
              StrategyB.gidOf (StrategyB.resultsOf env imgs) x
              = StrategyB.groupIdOf env j y) as Hfiled.
  { intros x Hx. destruct (first_with_key imgs x Hx) as (j & y & Hy & Hkey & Hfirst).
    exists j, y. repeat (split; [assumption|]).
    apply B_gidOf_first; assumption. }
  assert (forall (ws : StrategyB.World) j y, imgs !! j = Some y ->
            IndexFacesCommand (StrategyB.eventId env) (StrategyB.S3_BUCKET_NAME env)
              (key y) (StrategyB.groupIdOf env j y)
            ∈ StrategyB.issued ws
              ++ StrategyB.passCommands env (StrategyB.eventId env) imgs) as Hsent.
  { intros ws j y Hy. apply elem_of_app. right.
    unfold StrategyB.passCommands. apply list_elem_of_bind.
    exists (j, y). split.
    - right. left.
    - apply (elem_of_lookup_imap_2 pair imgs y j Hy). }
  destruct (StrategyB.throwsOn (StrategyB.resultsOf env imgs) imgs) eqn:Hthrows.
  - assert (~ completes) as Hnot.
    { intros Hc. apply Hiff in Hc. discriminate. }
    split; [split; [discriminate|intros Hc; contradiction]|].
    split; [intros _; split; reflexivity|].
    split; [intros Hc; contradiction|].
    intros j y Hy. apply Hsent, Hy.
  - assert completes as Hc by (apply Hiff; reflexivity).
    split; [split; [intros _; exact Hc|reflexivity]|].
    split; [intros Hnot; contradiction|].
    split; [|intros j y Hy; apply Hsent, Hy].
    intros _. cbn [snd].
    change (StrategyB.faceGroups
              (StrategyB.with_faceGroups
                 (fun _ => StrategyB.groupsOf imgs (StrategyB.resultsOf env imgs)) _))
      with (StrategyB.groupsOf imgs (StrategyB.resultsOf env imgs)).
    split; [|split].
    + intros x Hx. destruct (Hfiled x Hx) as (j & y & Hy & Hkey & Hfirst & Hgid).
      exists j, y. repeat (split; [assumption|]). rewrite <- Hgid.
      apply B_bucket_of, Hx.
    + intros gid bucket Hbucket. rewrite B_lookup_groupsOf in Hbucket.
      destruct (filter _ imgs) as [|x rest] eqn:Hfilter; [discriminate|].
      injection Hbucket as <-. split; [discriminate|].
      assert (x ∈ filter (fun image =>
                            StrategyB.gidOf (StrategyB.resultsOf env imgs) image = gid)
                    imgs) as Hx by (rewrite Hfilter; left).
      apply list_elem_of_filter in Hx as [Hgid Hx].
      destruct (Hfiled x Hx) as (j & y & Hy & _ & _ & Hgid').
      exists j, y. split; [exact Hy|]. rewrite <- Hgid, Hgid'. reflexivity.
    + intros Hnodup j y Hy.
      assert (y ∈ imgs) as Hin by (eapply list_elem_of_lookup_2, Hy).
      assert (StrategyB.gidOf (StrategyB.resultsOf env imgs) y
              = StrategyB.groupIdOf env j y) as Hgid.
      { apply B_gidOf_first; [exact Hy|reflexivity|].
        intros i z Hi Hz Hkey.
        assert (i = j); [|lia].
        apply (NoDup_lookup (key <$> imgs) i j (key y) Hnodup).
        - rewrite list_lookup_fmap, Hz. simpl. rewrite Hkey. reflexivity.
        - rewrite list_lookup_fmap, Hy. reflexivity. }
      destruct (B_bucket_of imgs (StrategyB.resultsOf env imgs) y Hin)
        as (bucket & Hbucket & Hy').
      rewrite Hgid in Hbucket. exists bucket. split; [exact Hbucket|exact Hy'].
Qed.

(** ** What a grouping pass sends and what it leaves alone *)

Lemma bind_pair_perm {A B} (f g : A -> B) (l : list A) :
  l ≫= (fun x => [f x; g x]) ≡ₚ (f <$> l) ++ (g <$> l).
Proof.
  induction l as [|x l IH]; [reflexivity|].
  cbn. rewrite IH. constructor. apply Permutation_middle.
Qed.

(** X19. A grouping pass changes nothing of the component but the groups
    (and, in strategy A, the face records): the image set, the error, the
    loading flag, the deleting marks and the upload cells are as before.
    Strategy A sends, after the commands of [ensureCollection], one
    [IndexFaces] request per image, in input order and all tagged
    [placeholder], and only then one [SearchFaces] request per face
    record.  Strategy B sends one [SearchFacesByImage] and one
    [IndexFaces] request per image, the latter tagged with the group id
    resolved for that position. *)
Theorem grouping_pass_touches_only_the_groups :
  (forall (env : StrategyA.Env) imgs w,
     let run := StrategyA.detectAndGroupFaces env imgs w in
     (StrategyA.deleting run.2, StrategyA.images run.2, StrategyA.loading run.2,
      StrategyA.error run.2, StrategyA.uploading run.2, StrategyA.uploadProgress run.2,
      StrategyA.uploads run.2, StrategyA.progressTrace run.2, StrategyA.next_oid run.2)
     = (StrategyA.deleting w, StrategyA.images w, StrategyA.loading w,
        StrategyA.error w, StrategyA.uploading w, StrategyA.uploadProgress w,
        StrategyA.uploads w, StrategyA.progressTrace w, StrategyA.next_oid w) /\
     StrategyA.issued run.2 =
       StrategyA.issued w
       ++ StrategyA.ensureCommands (StrategyA.listCollections env) (StrategyA.eventId env)
       ++ ((fun image =>
              IndexFacesCommand (StrategyA.eventId env) (StrategyA.S3_BUCKET_NAME env)
                (key image) "placeholder") <$> imgs)
       ++ ((fun fr =>
              SearchFacesCommand (StrategyA.eventId env) (StrategyA.faceId fr) 5 80)
             <$> StrategyA.allFaceRecords run.2)) /\
  (forall (env : StrategyB.Env) imgs w,
     let run := StrategyB.detectAndGroupFaces env imgs w in
     (StrategyB.deleting run.2, StrategyB.images run.2, StrategyB.loading run.2,
      StrategyB.error run.2, StrategyB.uploading run.2, StrategyB.uploadProgress run.2,
      StrategyB.uploads run.2, StrategyB.progressTrace run.2, StrategyB.next_oid run.2)
     = (StrategyB.deleting w, StrategyB.images w, StrategyB.loading w,
        StrategyB.error w, StrategyB.uploading w, StrategyB.uploadProgress w,
        StrategyB.uploads w, StrategyB.progressTrace w, StrategyB.next_oid w) /\
     exists cmds,
       StrategyB.issued run.2 =
         StrategyB.issued w
         ++ StrategyB.ensureCommands (StrategyB.listCollections env)
              (StrategyB.eventId env)
         ++ cmds /\
       cmds ≡ₚ
         ((fun image =>
             SearchFacesByImageCommand (StrategyB.eventId env)
               (StrategyB.S3_BUCKET_NAME env) (key image) 80 10) <$> imgs)
         ++ imap (fun i image =>
                    IndexFacesCommand (StrategyB.eventId env)
                      (StrategyB.S3_BUCKET_NAME env) (key image)
                      (StrategyB.groupIdOf env i image)) imgs).
Proof.
  split.
  - intros env imgs w run. subst run. rewrite A_detectAndGroupFaces_run. cbn.
    split; [reflexivity|]. rewrite <- !app_assoc. reflexivity.
  - intros env imgs w run. subst run. rewrite B_detectAndGroupFaces_run.
    assert (StrategyB.passCommands env (StrategyB.eventId env) imgs ≡ₚ
            ((fun image =>
                SearchFacesByImageCommand (StrategyB.eventId env)
                  (StrategyB.S3_BUCKET_NAME env) (key image) 80 10) <$> imgs)
            ++ imap (fun i image =>
                       IndexFacesCommand (StrategyB.eventId env)
                         (StrategyB.S3_BUCKET_NAME env) (key image)
                         (StrategyB.groupIdOf env i image)) imgs) as Hperm;
      [|destruct (StrategyB.throwsOn _ _); cbn;
        (split; [reflexivity|]);
        exists (StrategyB.passCommands env (StrategyB.eventId env) imgs);
        (split; [rewrite <- app_assoc; reflexivity|exact Hperm])].
    unfold StrategyB.passCommands, StrategyB.commandsOf.
    rewrite (bind_pair_perm
               (fun item : nat * EventImage =>
                  StrategyB.searchCommand env (StrategyB.eventId env) item.2)
               (fun item : nat * EventImage =>
                  StrategyB.indexCommand env (StrategyB.eventId env) item.2
                    (StrategyB.groupIdOf env item.1 item.2))).
    rewrite (fmap_snd_imap_pair (StrategyB.searchCommand env (StrategyB.eventId env))).
    rewrite fmap_imap. reflexivity.
Qed.

(** ** What is on screen *)

(** X20. After a load the spinner is gone.  When no image key was
    listed, the error panel is shown with the message of the last failed
    listing, or with the fixed text when no listing failed; only when
    that message is empty is the gallery shown instead, with the image
    set from before the load.  When at least one image key was listed,
    strategy A shows the gallery with its images; so does strategy B,
    unless the loop that files the loaded images throws, in which case
    the error panel is shown with the message of that [TypeError]. *)
Theorem screen_after_a_load :
  (forall (env : StrategyA.Env) prefixes w,
     let positions := seq 0 (length prefixes) in
     screenA (StrategyA.fetchEventImagesFrom env prefixes w).2 =
     match listedKeys (StrategyA.listObjects env) positions with
     | _ :: _ => GalleryView false
     | [] =>
         let msg := match lastListError (StrategyA.listObjects env) positions with
                    | Some e => message e
                    | None => "No images found for this event."
                    end in
         if truthy msg then ErrorPanel msg
         else GalleryView (length (StrategyA.images w) =? 0)%nat
     end) /\
  (forall (env : StrategyB.Env) prefixes w,
     let positions := seq 0 (length prefixes) in
     let w' := (StrategyB.fetchEventImagesFrom env prefixes w).2 in
     screenB w' =
     match listedKeys (StrategyB.listObjects env) positions with
     | _ :: _ =>
         if StrategyB.throwsOn (StrategyB.resultsOf env (StrategyB.images w'))
              (StrategyB.images w')
         then ErrorPanel "groups[gid].push is not a function"
         else GalleryView false
     | [] =>
         let msg := match lastListError (StrategyB.listObjects env) positions with
                    | Some e => message e
                    | None => "No images found for this event."
                    end in
         if truthy msg then ErrorPanel msg
         else GalleryView (length (StrategyB.images w) =? 0)%nat
     end).
Proof.
  split.
  - intros env prefixes w positions. subst positions.
    destruct (A_fetch_run env prefixes w) as (allImages & <- & _ & _ & ->).
    destruct allImages as [|image0 allImages]; cbn [snd fmap list_fmap].
    + unfold screenA, screenOf. cbn.
      destruct (truthy _); reflexivity.
    + rewrite A_detectAndGroupFaces_run. reflexivity.
  - intros env prefixes w positions w'. subst positions w'.
    destruct (B_fetch_run env prefixes w) as (allImages & <- & _ & _ & ->).
    destruct allImages as [|image0 allImages]; cbn [snd fmap list_fmap].
    + unfold screenB, screenOf. cbn.
      destruct (truthy _); reflexivity.
    + cbv zeta. rewrite B_detectAndGroupFaces_run.
      destruct (StrategyB.throwsOn (StrategyB.resultsOf env (image0 :: allImages))
                  (image0 :: allImages)) eqn:Hthrows;
        cbn [fst snd];
        match goal with
        | |- _ = (if StrategyB.throwsOn (StrategyB.resultsOf env ?I) ?I then _ else _) =>
            change I with (image0 :: allImages)
        end;
        rewrite Hthrows; reflexivity.
Qed.

(** ** Strategy B: the groups after an upload *)

Section StrategyB_after_upload.
Import StrategyB.

Lemma filter_all {A} (p : A -> bool) (l : list A) :
  (forall x, x ∈ l -> p x = true) -> List.filter p l = l.
Proof.
  induction l as [|x l IH]; intros H; simpl; [reflexivity|].
  rewrite (H x) by left. f_equal. apply IH. intros y Hy. apply H. right. exact Hy.
Qed.

Lemma B_grouped_inv (groups : gmap string (list EventImage)) x :
  x ∈ groupedImages groups ->
  exists gid bucket, groups !! gid = Some bucket /\ x ∈ bucket.
Proof.
  unfold groupedImages. intros (bucket & Hx & Hbucket)%list_elem_of_join.
  apply list_elem_of_fmap in Hbucket as ([gid bucket'] & -> & Hentry).
  apply elem_of_map_to_list in Hentry. exists gid, bucket'. auto.
Qed.

(** An object is not found by [includes] among objects allocated before
    it. *)
Lemma includes_older arr x n :
  (forall y, y ∈ arr -> oid y < n) -> n <= oid x -> includes arr x = false.
Proof.
  intros Hold Hnew. unfold includes.
  apply not_true_is_false. intros (y & Hy & Heq)%existsb_exists.
  apply list_elem_of_In, Hold in Hy. apply Nat.eqb_eq in Heq. lia.
Qed.

End StrategyB_after_upload.

(** X21. Strategy B: after an upload whose files all arrive, whose
    refresh lists at least one image and whose second grouping pass
    completes (its searches answer no tag naming an inherited property),
    the image set holds the refreshed objects, the groups hold objects of
    the image set from before the upload, and no member of a group is an
    object of the new image set: every image of the set, old or new, is
    shown under Other Images. *)
Theorem B_upload_shows_every_image_as_ungrouped (env env' : StrategyB.Env)
    (file : File) (files : list File) (userEmail : option string)
    (w : StrategyB.World) :
  truthy_opt userEmail <> None ->
  (forall i, StrategyB.uploadDone env i = Fulfilled tt) ->
  allocatedB w ->
  listedKeys (StrategyB.listObjects env) [0] <> [] ->
  StrategyB.plainTags env' ->
  let w' := (StrategyB.handleFileChange env env' (Some (file :: files)) userEmail w).2 in
  key <$> StrategyB.images w' = listedKeys (StrategyB.listObjects env) [0] /\
  StrategyB.ungrouped w' = StrategyB.images w' /\
  forall gid bucket x,
    StrategyB.faceGroups w' !! gid = Some bucket -> x ∈ bucket ->
    x ∈ StrategyB.images w /\ x ∉ StrategyB.images w'.
Proof.
  intros Hemail Hdone Hw Hlisted Hplain w'. subst w'.
  rewrite (B_handleFileChange_run env env' file files userEmail w Hemail).
  pose proof (B_uploadAll_fulfilled env (file :: files)
                (StrategyB.with_uploading true w) Hdone) as Hup.
  destruct (B_uploadAll_frame env (file :: files) (StrategyB.with_uploading true w))
    as (_ & _ & Hframe).
  injection Hframe as _ Himg _ _ _ _ _ Hnext.
  set (up := StrategyB.uploadAll env (file :: files) (StrategyB.with_uploading true w))
    in *.
  rewrite Hup. unfold StrategyB.fetchEventImages.
  destruct (B_fetch_some env
              ["events/shared/"
               +:+ default (StrategyB.eventId env)
                     (truthy_opt (StrategyB.selectedEvent env))
               +:+ "/images"] up.2 Hlisted)
    as (allImages & w1 & Himg1 & Hkeys & Hoids & _ & _ & _ & _ & ->).
  cbv zeta.
  rewrite (B_detectAndGroupFaces_completes env' (StrategyB.images w) _
             (B_plain_throwsOn env' (StrategyB.images w) Hplain)).
  cbn [fst snd].
  assert (StrategyB.images (StrategyB.detectAndGroupFaces env allImages w1).2
          = allImages) as Himg2.
  { rewrite B_detectAndGroupFaces_run.
    destruct (StrategyB.throwsOn _ _); exact Himg1. }
  assert (forall gid bucket x,
            StrategyB.groupsOf (StrategyB.images w)
              (StrategyB.resultsOf env' (StrategyB.images w)) !! gid = Some bucket ->
            x ∈ bucket -> x ∈ StrategyB.images w /\ x ∉ allImages) as Hold.
  { intros gid bucket x Hbucket Hx.
    apply (B_elem_of_groupsOf _ _ _ _ x Hbucket) in Hx as [_ Hx].
    split; [exact Hx|]. intros Hnew.
    apply (list_elem_of_fmap_2 oid) in Hnew. rewrite Hoids in Hnew.
    apply elem_of_seq in Hnew. specialize (Hw x Hx). cbn in Hnext. lia. }
  unfold StrategyB.ungrouped.
  cbn [StrategyB.images StrategyB.faceGroups StrategyB.with_uploadProgress
       StrategyB.with_uploading StrategyB.with_faceGroups StrategyB.with_issued
       StrategyB.with_loading StrategyB.with_error].
  rewrite Himg2.
  split; [exact Hkeys|]. split; [|exact Hold].
  apply filter_all. intros x Hx. apply negb_true_iff.
  apply (includes_older _ x (StrategyB.next_oid w)).
  - intros y (gid & bucket & Hbucket & Hy)%B_grouped_inv.
    apply Hw. apply (Hold gid bucket y Hbucket Hy).
  - apply (list_elem_of_fmap_2 oid) in Hx. rewrite Hoids in Hx.
    apply elem_of_seq in Hx. cbn in Hnext. lia.
Qed.

Lemma B_upload_shows_every_image_as_ungrouped_witness :
  key <$> StrategyB.ungrouped Examples.uploadedB = [Examples.keyA; Examples.keyB] /\
  StrategyB.ungrouped Examples.uploadedB = StrategyB.images Examples.uploadedB.
Proof.
  split; [reflexivity|].
  destruct (B_upload_shows_every_image_as_ungrouped
              (Examples.quietB [Examples.keyA; Examples.keyB])
              (Examples.quietB [Examples.keyA; Examples.keyB])
              {| name := "b.jpg"; type := "image/jpeg" |} []
              (Some "guest@example.org") Examples.loadedB) as (_ & Hall & _).
  - discriminate.
  - reflexivity.
  - intros x Hx. apply list_elem_of_singleton in Hx as ->. vm_compute. lia.
  - vm_compute. discriminate.
  - apply B_quiet_plain.
  - exact Hall.
Defined.

(** ** The folder of the uploads and the folder of the listing *)

Lemma slashless_head_eq (a b r1 r2 : string) :
  slashless a = true -> slashless b = true ->
  a +:+ String "/" r1 = b +:+ String "/" r2 -> a = b /\ r1 = r2.
Proof.
  revert b. induction a as [|c a IH]; intros [|c' b] Ha Hb Heq.
  - rewrite !append_nil_l in Heq. injection Heq as ->. auto.
  - rewrite append_nil_l, append_cons in Heq. injection Heq as <- _.
    simpl in Hb. discriminate.
  - rewrite append_nil_l, append_cons in Heq. injection Heq as -> _.
    simpl in Ha. discriminate.
  - rewrite !append_cons in Heq. injection Heq as -> Heq.
    simpl in Ha, Hb. apply andb_true_iff in Ha as [_ Ha], Hb as [_ Hb].
    destruct (IH b Ha Hb Heq) as [-> ->]. auto.
Qed.

Lemma upload_key_under_prefix (eventId eventToUse tail : string) :
  slashless eventId = true -> slashless eventToUse = true ->
  (exists rest,
     "events/shared/" +:+ eventId +:+ "/images/" +:+ tail
     = ("events/shared/" +:+ eventToUse +:+ "/images") +:+ rest) <->
  eventToUse = eventId.
Proof.
  intros Hid Huse. split.
  - intros [rest Heq]. rewrite !append_assoc in Heq.
    rewrite !append_cons, !append_nil_l in Heq.
    repeat (injection Heq as Heq).
    destruct (slashless_head_eq _ _ _ _ Hid Huse Heq) as [-> _]. reflexivity.
  - intros ->. exists ("/" +:+ tail). rewrite !append_assoc. reflexivity.
Qed.

(** X22. The refresh lists the folder [events/shared/<event>/images] of
    the selected event, or of the component's own event when none is
    selected, while an upload always stores its file under the
    component's own event.  For event ids without a slash, the key of an
    uploaded file lies under the listed prefix exactly when no other
    event is selected.  Holds for both variants. *)
Theorem refresh_lists_the_upload_folder :
  (forall (env : StrategyA.Env) i file w,
     let eventToUse :=
       default (StrategyA.eventId env) (truthy_opt (StrategyA.selectedEvent env)) in
     let prefix := "events/shared/" +:+ eventToUse +:+ "/images" in
     (exists more,
        StrategyA.issued (StrategyA.fetchEventImages env w).2 =
          StrategyA.issued w
          ++ ListObjectsV2Command (StrategyA.S3_BUCKET_NAME env) prefix :: more) /\
     (slashless (StrategyA.eventId env) = true -> slashless eventToUse = true ->
      (exists rest, upload_Key (StrategyA.newUpload env i file) = prefix +:+ rest) <->
      eventToUse = StrategyA.eventId env)) /\
  (forall (env : StrategyB.Env) i file w,
     let eventToUse :=
       default (StrategyB.eventId env) (truthy_opt (StrategyB.selectedEvent env)) in
     let prefix := "events/shared/" +:+ eventToUse +:+ "/images" in
     (exists more,
        StrategyB.issued (StrategyB.fetchEventImages env w).2 =
          StrategyB.issued w
          ++ ListObjectsV2Command (StrategyB.S3_BUCKET_NAME env) prefix :: more) /\
     (slashless (StrategyB.eventId env) = true -> slashless eventToUse = true ->
      (exists rest, upload_Key (StrategyB.newUpload env i file) = prefix +:+ rest) <->
      eventToUse = StrategyB.eventId env)).
Proof.
  split.
  - intros env i file w eventToUse prefix. split.
    + unfold StrategyA.fetchEventImages. fold eventToUse. fold prefix.
      destruct (A_fetch_run env [prefix] w) as (allImages & _ & _ & _ & ->).
      destruct allImages as [|image0 allImages]; cbn [snd].
      * exists []. reflexivity.
      * rewrite A_detectAndGroupFaces_run. cbn. rewrite <- !app_assoc.
        eexists. reflexivity.
    + intros Hid Huse. apply upload_key_under_prefix; assumption.
  - intros env i file w eventToUse prefix. split.
    + unfold StrategyB.fetchEventImages. fold eventToUse. fold prefix.
      destruct (B_fetch_run env [prefix] w) as (allImages & _ & _ & _ & ->).
      destruct allImages as [|image0 allImages]; cbn [snd].
      * exists []. reflexivity.
      * cbv zeta. rewrite B_detectAndGroupFaces_run.
        destruct (StrategyB.throwsOn _ _); cbn; rewrite <- !app_assoc;
          eexists; reflexivity.
    + intros Hid Huse. apply upload_key_under_prefix; assumption.
Qed.

Lemma refresh_lists_the_upload_folder_witness :
  upload_Key (StrategyA.newUpload MoreExamples.otherEventA 0 MoreExamples.fileB)
    = "events/shared/party/images/1700000009999-b.jpg" /\
  ~ exists rest,
      upload_Key (StrategyA.newUpload MoreExamples.otherEventA 0 MoreExamples.fileB)
      = "events/shared/wedding/images" +:+ rest.
Proof.
  split; [reflexivity|].
  destruct refresh_lists_the_upload_folder as [HA _].
  destruct (HA MoreExamples.otherEventA 0 MoreExamples.fileB StrategyA.initial)
    as [_ Hiff].
  destruct (Hiff eq_refl eq_refl) as [Hto _].
  intros Hex. specialize (Hto Hex). discriminate.
Defined.

(** ** Strategy A: the groups after an upload *)

Section StrategyA_after_upload.
Import StrategyA.

(** The uploads of a batch end normally when every file arrives. *)
Lemma A_uploadAll_fulfilled env files w :
  (forall i, uploadDone env i = Fulfilled tt) ->
  (uploadAll env files w).1 = Fulfilled tt.
Proof.
  intros Hdone. rewrite A_uploadAll_run. cbn [fst].
  rewrite await_all_fulfilled; [reflexivity|].
  apply Forall_forall. intros p Hp.
  apply elem_of_lookup_imap_1 in Hp as (i & x & -> & _). apply Hdone.
Qed.

End StrategyA_after_upload.

(** X23. Strategy A: after an upload by a logged-in user whose files all
    arrive and whose refresh lists at least one image, the image set
    holds the refreshed objects, one per listed key, the error is
    cleared, and the groups are built from the refreshed objects: every
    member of a group points at an image of the new image set, and every
    face record is in a group. *)
Theorem A_upload_regroups_the_refreshed_images (env : StrategyA.Env)
    (file : File) (files : list File) (userEmail : option string)
    (w : StrategyA.World) :
  truthy_opt userEmail <> None ->
  (forall i, StrategyA.uploadDone env i = Fulfilled tt) ->
  listedKeys (StrategyA.listObjects env) [0] <> [] ->
  let w' := (StrategyA.handleFileChange env (Some (file :: files)) userEmail w).2 in
  key <$> StrategyA.images w' = listedKeys (StrategyA.listObjects env) [0] /\
  StrategyA.error w' = None /\
  (forall gid bucket fr,
     StrategyA.faceGroups w' !! gid = Some bucket -> fr ∈ bucket ->
     StrategyA.image fr ∈ StrategyA.images w') /\
  (forall fr, fr ∈ StrategyA.allFaceRecords w' ->
     exists gid bucket, StrategyA.faceGroups w' !! gid = Some bucket /\ fr ∈ bucket).
Proof.
  intros Hemail Hdone Hlisted w'. subst w'.
  rewrite (A_handleFileChange_run env file files userEmail w Hemail).
  rewrite (A_uploadAll_fulfilled env (file :: files)
             (StrategyA.with_uploading true w) Hdone).
  set (up := StrategyA.uploadAll env (file :: files) (StrategyA.with_uploading true w)).
  unfold StrategyA.fetchEventImages.
  destruct (A_fetch_some env
              ["events/shared/"
               +:+ default (StrategyA.eventId env)
                     (truthy_opt (StrategyA.selectedEvent env))
               +:+ "/images"] up.2 Hlisted)
    as (allImages & w1 & Himg1 & Hkeys & _ & _ & _ & _ & ->).
  cbn [snd].
  destruct (A_pass_consistent env w1) as [Hgroups Hrecs].
  rewrite Himg1 in Hgroups, Hrecs.
  assert (StrategyA.images (StrategyA.detectAndGroupFaces env allImages w1).2
          = allImages) as Himg
    by (rewrite A_detectAndGroupFaces_run; exact Himg1).
  cbn. rewrite Himg. split; [exact Hkeys|]. split; [reflexivity|]. split.
  - intros gid bucket fr Hbucket Hfr. rewrite <- Himg.
    apply Hrecs. apply (Hgroups gid bucket Hbucket). exact Hfr.
  - intros fr Hfr.
    destruct (A_lookup_faceGroups env allImages w1
                (StrategyA.gidOf
                   (StrategyA.resolvedOf env
                      (StrategyA.tempFaceRecordsOf env allImages)).1 fr))
      as [Htemp Hlookup].
    rewrite Htemp in Hfr.
    assert (fr ∈ filter
              (fun fr' =>
                 StrategyA.gidOf
                   (StrategyA.resolvedOf env
                      (StrategyA.tempFaceRecordsOf env allImages)).1 fr'
                 = StrategyA.gidOf
                     (StrategyA.resolvedOf env
                        (StrategyA.tempFaceRecordsOf env allImages)).1 fr)
              (StrategyA.tempFaceRecordsOf env allImages)) as Hin
      by (apply list_elem_of_filter; auto).
    eexists _, _. split; [|exact Hin]. rewrite Hlookup.
    destruct (filter _ _); [inversion Hin|reflexivity].
Qed.

Lemma A_upload_regroups_the_refreshed_images_witness :
  let w' := (StrategyA.handleFileChange Examples.twinsA (Some [MoreExamples.fileB])
               (Some "guest@example.org") Examples.loadedA).2 in
  key <$> StrategyA.images w' = [Examples.keyA; Examples.keyB] /\
  StrategyA.error w' = None.
Proof.
  destruct (A_upload_regroups_the_refreshed_images Examples.twinsA MoreExamples.fileB []
              (Some "guest@example.org") Examples.loadedA) as (Hkeys & Herr & _).
  - discriminate.
  - intros i. reflexivity.
  - vm_compute. discriminate.
  - split; [exact Hkeys|exact Herr].
Defined.

(** ** The groups after a delete *)

(** X24. Once the storage delete has succeeded, strategy A keeps of every
    group the records of the other images, in order, and drops exactly
    the groups all of whose records belonged to the deleted image: no
    group is left empty.  Strategy B filters the members in the same way
    but keeps every group id, whether or not a member is left. *)
Theorem delete_keeps_or_drops_a_group :
  (forall image (w : StrategyA.World) gid,
     let w' := (StrategyA.handleDelete_settled image (Fulfilled tt) w).2 in
     let kept recs := filter (fun fr => key (StrategyA.image fr) ≠ key image) recs in
     StrategyA.faceGroups w' !! gid =
       match StrategyA.faceGroups w !! gid with
       | Some recs => match kept recs with
                      | [] => None
                      | _ :: _ => Some (kept recs)
                      end
       | None => None
       end /\
     StrategyA.faceGroups w' !! gid <> Some []) /\
  (forall image (w : StrategyB.World) gid,
     let w' := (StrategyB.handleDelete_settled image (Fulfilled tt) w).2 in
     StrategyB.faceGroups w' !! gid =
       filter (fun img => key img ≠ key image) <$> StrategyB.faceGroups w !! gid /\
     (is_Some (StrategyB.faceGroups w' !! gid) <->
      is_Some (StrategyB.faceGroups w !! gid))).
Proof.
  split.
  - intros image w gid w' kept. subst w' kept.
    rewrite A_handleDelete_settled_run.
    cbn [snd StrategyA.faceGroups StrategyA.with_deleting StrategyA.with_allFaceRecords
         StrategyA.with_faceGroups StrategyA.with_images].
    rewrite A_lookup_removeFromGroups.
    destruct (StrategyA.faceGroups w !! gid) as [recs|]; simpl.
    + destruct (filter _ recs); split; (reflexivity || discriminate).
    + split; [reflexivity|discriminate].
  - intros image w gid w'. subst w'.
    rewrite B_handleDelete_settled_run.
    cbn [snd StrategyB.faceGroups StrategyB.with_deleting StrategyB.with_faceGroups
         StrategyB.with_images].
    rewrite B_lookup_removeFromGroups. split; [reflexivity|].
    rewrite fmap_is_Some. reflexivity.
Qed.

(** * The grouping pass, step by step *)

(** ** Strategy A: the mapping while the answers arrive *)

Section StrategyA_moments.
Import StrategyA.

(** The callbacks of phase 2 over the answers that have arrived. *)
Lemma A_search_callbacks env st l w :
  promise_all_fold (searchTask env) st l w =
  (Fulfilled (fold_left (searchStep env) l st), w).
Proof. apply promise_all_fold_pure. intros a x s. apply A_searchTask_run. Qed.

(** A callback writes the mapping only at the face id of its record. *)
Lemma A_fold_untouched env l st k :
  (forall item, item ∈ l -> faceId item.2 <> k) ->
  (fold_left (searchStep env) l st).1 !! k = st.1 !! k.
Proof.
  revert st. induction l as [|item l IH]; intros st Hl; [reflexivity|].
  cbn [fold_left]. rewrite IH by (intros it Hit; apply Hl; right; exact Hit).
  destruct (A_searchStep_shape env st item) as (gid & n & -> & _).
  cbn [fst]. apply lookup_insert_ne. apply Hl. left.
Qed.

(** The face ids that have a group id are those of the records whose
    answer has arrived. *)
Lemma A_fold_keys env l st k :
  is_Some ((fold_left (searchStep env) l st).1 !! k) ->
  is_Some (st.1 !! k) \/ exists item, item ∈ l /\ faceId item.2 = k.
Proof.
  revert st. induction l as [|item l IH]; intros st Hk; [left; exact Hk|].
  cbn [fold_left] in Hk. apply IH in Hk as [Hk|(it & Hit & Heq)].
  - destruct (A_searchStep_shape env st item) as (gid & n & Hstep & _).
    rewrite Hstep in Hk. cbn [fst] in Hk.
    destruct (decide (faceId item.2 = k)) as [Heq|Hne].
    + right. exists item. split; [left|exact Heq].
    + rewrite lookup_insert_ne in Hk by exact Hne. left. exact Hk.
  - right. exists it. split; [right; exact Hit|exact Heq].
Qed.

End StrategyA_moments.

(** C2. Take a pass of strategy A and the moment at which the answer to
    the search of one face record arrives, after the answers of the
    records [done] and before those of the records [rest].  The answer
    holds matches; the face of one of them has a group id by then (its
    record is among [done]), the faces of the matches before it have none
    (no record of [done] has their id).  Then the callback of the face
    record writes for its face the group id that the mapping of the pass
    holds for that first assigned match, and counts no new group.  When
    no later answer concerns the two face ids again, phase 2 ends with
    both of them at that group id, and the pass publishes a group with
    that id that holds the face record and every record of the matched
    face.  The pass has sent one [SearchFaces] request per face record,
    with [MaxFaces] 5 and [FaceMatchThreshold] 80. *)
Theorem A_adopts_first_assigned_group (env : StrategyA.Env) (imgs : list EventImage)
    (w : StrategyA.World) (done rest : list (nat * StrategyA.FaceRecordWithImage))
    (j : nat) (faceRec : StrategyA.FaceRecordWithImage)
    (searchResponse : SearchFacesResponse) (pre post : list FaceMatch) (m : FaceMatch)
    (id : string) :
  let run := StrategyA.detectAndGroupFaces env imgs w in
  let temp := StrategyA.allFaceRecords run.2 in
  completed (StrategyA.searchLatency env) temp = done ++ (j, faceRec) :: rest ->
  StrategyA.searchFaces env j = Fulfilled searchResponse ->
  FaceMatches searchResponse = Some (pre ++ m :: post) ->
  match_Face m ≫= FaceId = Some id ->
  (exists item, item ∈ done /\ StrategyA.faceId item.2 = id) ->
  (forall m' id' item,
     m' ∈ pre -> match_Face m' ≫= FaceId = Some id' -> item ∈ done ->
     StrategyA.faceId item.2 <> id') ->
  exists gid st final,
    (forall w0,
       promise_all_fold (StrategyA.searchTask env) (∅, 0) done w0 = (Fulfilled st, w0)) /\
    st.1 !! id = Some gid /\
    (forall m' id', m' ∈ pre -> match_Face m' ≫= FaceId = Some id' ->
                    st.1 !! id' = None) /\
    (forall w0,
       StrategyA.searchTask env st (j, faceRec) w0 =
       (Fulfilled (<[StrategyA.faceId faceRec := gid]> st.1, st.2), w0)) /\
    (forall w0,
       StrategyA.phase2 env (StrategyA.eventId env) temp w0 =
       (StrategyA.send (StrategyA.searchCommand (StrategyA.eventId env) <$> temp);;
        st1 ← promise_all_fold (StrategyA.searchTask env) (∅, 0) done;
        st2 ← StrategyA.searchTask env st1 (j, faceRec);
        promise_all_fold (StrategyA.searchTask env) st2 rest) w0) /\
    (forall w0,
       (StrategyA.phase2 env (StrategyA.eventId env) temp w0).1 = Fulfilled final) /\
    (exists before,
       StrategyA.issued run.2 =
         before
         ++ ((fun fr =>
                SearchFacesCommand (StrategyA.eventId env) (StrategyA.faceId fr) 5 80)
               <$> temp)) /\
    ((forall item, item ∈ rest ->
        StrategyA.faceId item.2 <> StrategyA.faceId faceRec /\
        StrategyA.faceId item.2 <> id) ->
     exists bucket,
       final.1 !! StrategyA.faceId faceRec = Some gid /\
       final.1 !! id = Some gid /\
       StrategyA.faceGroups run.2 !! gid = Some bucket /\
       faceRec ∈ bucket /\
       (forall fr, fr ∈ temp -> StrategyA.faceId fr = id -> fr ∈ bucket)).
Proof.
  intros run temp Hdone Hsearch Hmatches Hid Hassigned Hpre.
  destruct (A_lookup_faceGroups env imgs w "") as [Htemp _].
  fold run in Htemp. fold temp in Htemp.
  set (st := fold_left (StrategyA.searchStep env) done (∅, 0)).
  assert (is_Some (st.1 !! id)) as [gid Hgid].
  { destruct Hassigned as (item & Hitem & Hitemid).
    apply A_resolved_fold. right. exists item. auto. }
  assert (forall m' id', m' ∈ pre -> match_Face m' ≫= FaceId = Some id' ->
                         st.1 !! id' = None) as Hunassigned.
  { intros m' id' Hm' Hid'. apply eq_None_not_Some. intros Hsome.
    apply A_fold_keys in Hsome as [Hsome|(item & Hitem & Heq)].
    - cbn in Hsome. rewrite lookup_empty in Hsome. destruct Hsome. discriminate.
    - apply (Hpre m' id' item Hm' Hid' Hitem Heq). }
  assert (StrategyA.wellFormed st.1) as Hwf.
  { apply A_wellFormed_fold.
    - intros k v Hk. simpl in Hk. rewrite lookup_empty in Hk. discriminate.
    - intros item Hitem.
      assert (item ∈ completed (StrategyA.searchLatency env) temp) as Hin.
      { rewrite Hdone. apply elem_of_app. left. exact Hitem. }
      rewrite completed_perm in Hin.
      apply elem_of_lookup_imap_1 in Hin as (i & fr & -> & Hi).
      simpl. apply (A_tempFaceRecords_truthy env imgs). rewrite <- Htemp.
      apply list_elem_of_lookup. eauto. }
  destruct (Hwf id gid Hgid) as [Tid Tgid].
  assert (StrategyA.searchStep env st (j, faceRec)
          = (<[StrategyA.faceId faceRec := gid]> st.1, st.2)) as Hstep.
  { unfold StrategyA.searchStep. simpl. rewrite Hsearch.
    unfold StrategyA.resolve. rewrite Hmatches.
    destruct (pre ++ m :: post) as [|m0 ms] eqn:Happ.
    { destruct pre; discriminate. }
    rewrite <- Happ, A_matchedGroupIds_app,
      (A_matchedGroupIds_unassigned _ _ Hunassigned).
    destruct (A_matchedGroupIds_assigned st.1 m post id gid Hid Hgid Tid Tgid)
      as [gids ->].
    reflexivity. }
  set (final := StrategyA.resolvedOf env temp).
  assert (final = fold_left (StrategyA.searchStep env) rest
                    (<[StrategyA.faceId faceRec := gid]> st.1, st.2)) as Hfinal.
  { unfold final, StrategyA.resolvedOf. rewrite Hdone, fold_left_app.
    cbn [fold_left]. fold st. rewrite Hstep. reflexivity. }
  exists gid, st, final.
  split; [intros w0; apply A_search_callbacks|].
  split; [exact Hgid|]. split; [exact Hunassigned|].
  split; [intros w0; rewrite A_searchTask_run, Hstep; reflexivity|].
  split.
  { intros w0. rewrite A_phase2_run. fold final.
    unfold mbind, js_bind, StrategyA.send, modify.
    rewrite A_search_callbacks. fold st.
    rewrite A_searchTask_run, Hstep, A_search_callbacks, <- Hfinal. reflexivity. }
  split; [intros w0; rewrite A_phase2_run; reflexivity|].
  split.
  { subst run temp. rewrite A_detectAndGroupFaces_run. cbn.
    eexists. reflexivity. }
  intros Hrest.
  assert (final.1 !! StrategyA.faceId faceRec = Some gid) as Hrec.
  { rewrite Hfinal, A_fold_untouched by (intros item Hitem; apply Hrest, Hitem).
    apply lookup_insert_eq. }
  assert (final.1 !! id = Some gid) as Hidfinal.
  { rewrite Hfinal, A_fold_untouched by (intros item Hitem; apply Hrest, Hitem).
    cbn [fst]. destruct (decide (StrategyA.faceId faceRec = id)) as [->|Hne].
    - apply lookup_insert_eq.
    - rewrite lookup_insert_ne by exact Hne. exact Hgid. }
  assert (faceRec ∈ temp) as Hin.
  { assert ((j, faceRec) ∈ completed (StrategyA.searchLatency env) temp) as Hc
      by (rewrite Hdone; apply elem_of_app; right; left).
    rewrite completed_perm in Hc.
    apply elem_of_lookup_imap_1 in Hc as (i & fr & [= -> ->] & Hi).
    eapply list_elem_of_lookup_2, Hi. }
  destruct (A_lookup_faceGroups env imgs w gid) as [_ Hlookup].
  fold run in Hlookup. rewrite <- Htemp in Hlookup. fold final in Hlookup.
  assert (faceRec ∈ filter (fun fr => StrategyA.gidOf final.1 fr = gid) temp) as Hbucket.
  { apply list_elem_of_filter. split; [|exact Hin].
    unfold StrategyA.gidOf. rewrite Hrec. reflexivity. }
  exists (filter (fun fr => StrategyA.gidOf final.1 fr = gid) temp).
  split; [exact Hrec|]. split; [exact Hidfinal|].
  split.
  { rewrite Hlookup. destruct (filter _ temp); [inversion Hbucket|reflexivity]. }
  split; [exact Hbucket|].
  intros fr Hfr Hfrid. apply list_elem_of_filter. split; [|exact Hfr].
  unfold StrategyA.gidOf. rewrite Hfrid, Hidfinal. reflexivity.
Qed.

Lemma A_adopts_first_assigned_group_witness :
  let run := StrategyA.detectAndGroupFaces Examples.twinsA
               [Examples.photoA; Examples.photoB] StrategyA.initial in
  StrategyA.allFaceRecords run.2 = [Examples.face0; Examples.face1] /\
  exists bucket,
    StrategyA.faceGroups run.2 !! "group_1" = Some bucket /\
    Examples.face1 ∈ bucket /\ Examples.face0 ∈ bucket.
Proof.
  split; [vm_compute; reflexivity|].
  destruct (A_adopts_first_assigned_group Examples.twinsA
              [Examples.photoA; Examples.photoB] StrategyA.initial
              [(0, Examples.face0)] [] 1 Examples.face1
              {| FaceMatches :=
                   Some [{| match_Face := Some (Examples.faceOf "face-9") |};
                         {| match_Face := Some (Examples.faceOf "face-0") |}] |}
              [{| match_Face := Some (Examples.faceOf "face-9") |}] []
              {| match_Face := Some (Examples.faceOf "face-0") |} "face-0")
    as (gid & st & final & Hcallbacks & Hgid & _ & _ & _ & _ & _ & Hpublished).
  - vm_compute. reflexivity.
  - reflexivity.
  - reflexivity.
  - reflexivity.
  - exists (0, Examples.face0). split; [left|reflexivity].
  - intros m' id' item Hm' Hid' Hitem Heq.
    apply list_elem_of_singleton in Hm'. apply list_elem_of_singleton in Hitem.
    subst m' item. simpl in Hid'. injection Hid' as <-. discriminate Heq.
  - destruct Hpublished as (bucket & _ & _ & Hbucket & Hin & Hall).
    { intros item Hitem. inversion Hitem. }
    specialize (Hcallbacks StrategyA.initial). vm_compute in Hcallbacks.
    injection Hcallbacks as Hst. subst st. vm_compute in Hgid.
    injection Hgid as <-.
    exists bucket. split; [exact Hbucket|]. split; [exact Hin|].
    apply Hall; [|reflexivity]. vm_compute. left.
Defined.

(** ** Recognition calls that fail *)

Section Failing_calls.

(** The group id of a face whose search fails is new: no face has it at
    that moment. *)
Lemma A_fresh_id env done :
  let st := fold_left (StrategyA.searchStep env) done (∅, 0) in
  forall k v, st.1 !! k = Some v -> v <> "group_" +:+ pretty (S st.2).
Proof.
  intros st k v Hv Heq.
  destruct (A_numbered_fold env done (∅, 0)) as [_ Hnum].
  { intros id g. simpl. rewrite lookup_empty. discriminate. }
  destruct (Hnum k v Hv) as (n & Hn & Hvn). fold st in Hn.
  rewrite Hvn in Heq. injection Heq as Heq. apply pretty_nat_inj in Heq. lia.
Qed.

(** What makes the loop of strategy B throw is a tag that a search has
    answered with, never a call that failed. *)
Lemma B_throw_cause env imgs :
  StrategyB.throwsOn (StrategyB.resultsOf env imgs) imgs = true ->
  exists j y searchResponse,
    imgs !! j = Some y /\
    StrategyB.searchFacesByImage env j = Fulfilled searchResponse /\
    inherited (StrategyB.matchedTag y searchResponse) = true.
Proof.
  unfold StrategyB.throwsOn. intros (x & _ & Hx)%existsb_exists.
  unfold StrategyB.gidOf, StrategyB.resultsOf in Hx.
  destruct (find _ _) as [result|] eqn:Hfind; [|vm_compute in Hx; discriminate].
  apply find_some in Hfind as [Hin _].
  apply list_elem_of_In, elem_of_lookup_imap_1 in Hin as (j & y & -> & Hy).
  cbn [StrategyB.groupId] in Hx. unfold StrategyB.groupIdOf, StrategyB.mint in Hx.
  cbv zeta in Hx.
  destruct (StrategyB.searchFacesByImage env j) as [searchResponse|e] eqn:Hsearch.
  - destruct (truthy (StrategyB.matchedTag y searchResponse)); cbv iota in Hx.
    + exists j, y, searchResponse. auto.
    + rewrite inherited_group in Hx. discriminate.
  - change (truthy "") with false in Hx. cbv iota in Hx.
    rewrite inherited_group in Hx. discriminate.
Qed.

Lemma B_index_sent env imgs j y (ws : StrategyB.World) :
  imgs !! j = Some y ->
  IndexFacesCommand (StrategyB.eventId env) (StrategyB.S3_BUCKET_NAME env) (key y)
    (StrategyB.groupIdOf env j y)
  ∈ StrategyB.issued (StrategyB.detectAndGroupFaces env imgs ws).2.
Proof.
  intros Hy.
  assert (IndexFacesCommand (StrategyB.eventId env) (StrategyB.S3_BUCKET_NAME env)
            (key y) (StrategyB.groupIdOf env j y)
          ∈ StrategyB.passCommands env (StrategyB.eventId env) imgs) as Hin.
  { unfold StrategyB.passCommands. apply list_elem_of_bind.
    exists (j, y). split.
    - right. left.
    - apply (elem_of_lookup_imap_2 pair imgs y j Hy). }
  rewrite B_detectAndGroupFaces_run.
  destruct (StrategyB.throwsOn _ _); cbn; apply elem_of_app; right; exact Hin.
Qed.

End Failing_calls.

(** C5. A recognition call that fails is caught in the callback of its
    image or face, and the pass goes on exactly as if the call had
    answered that nothing was found.

    Strategy A: the pass always ends normally.  Its face records are
    those of the index answers that arrived, an image whose index call
    fails adding none.  Every face record is published in a group with a
    numbered id.  When the search of a face record fails, its callback
    gives the face the next numbered id, which no face has at that
    moment, and counts one more group; unless a later answer concerns
    that face id again, the pass publishes the record in the group of
    that id.

    Strategy B: an image whose search fails gets a minted id from its
    callback, is indexed under it, and is published in the group of that
    id when it is the first image with its key and the pass completes.  A
    pass that completes publishes every image in the group resolved for
    the first image with its key.  The pass can only end with the
    [TypeError] of the loop that files the images, and then because of a
    tag that a search has answered with; it completes when all searches
    fail. *)
Theorem recognition_failures_never_abort_the_pass :
  (forall (env : StrategyA.Env) imgs w,
     let run := StrategyA.detectAndGroupFaces env imgs w in
     let records := StrategyA.allFaceRecords run.2 in
     run.1 = Fulfilled tt /\
     run = StrategyA.detectAndGroupFaces (StrategyA.degraded env) imgs w /\
     records ≡ₚ
       imap pair imgs ≫=
         (fun item => match StrategyA.indexFaces env item.1 with
                      | Fulfilled indexResponse =>
                          StrategyA.recordsOf item.2 indexResponse
                      | Rejected _ => []
                      end) /\
     (forall fr, fr ∈ records ->
        exists k bucket,
          1 <= k <= length records /\
          StrategyA.faceGroups run.2 !! ("group_" +:+ pretty k) = Some bucket /\
          fr ∈ bucket) /\
     (forall done j fr rest e,
        completed (StrategyA.searchLatency env) records = done ++ (j, fr) :: rest ->
        StrategyA.searchFaces env j = Rejected e ->
        exists st,
          (forall w0,
             promise_all_fold (StrategyA.searchTask env) (∅, 0) done w0
             = (Fulfilled st, w0)) /\
          (forall w0,
             StrategyA.searchTask env st (j, fr) w0
             = (Fulfilled (<[StrategyA.faceId fr := "group_" +:+ pretty (S st.2)]> st.1,
                           S st.2), w0)) /\
          (forall k v, st.1 !! k = Some v -> v <> "group_" +:+ pretty (S st.2)) /\
          ((forall item, item ∈ rest ->
              StrategyA.faceId item.2 <> StrategyA.faceId fr) ->
           exists bucket,
             StrategyA.faceGroups run.2 !! ("group_" +:+ pretty (S st.2)) = Some bucket /\
             fr ∈ bucket))) /\
  (forall (env : StrategyB.Env) imgs w,
     let run := StrategyB.detectAndGroupFaces env imgs w in
     run = StrategyB.detectAndGroupFaces (StrategyB.degraded env) imgs w /\
     (run.1 = Fulfilled tt \/
      run.1 = Rejected StrategyB.pushIsNotAFunction /\
      exists j y searchResponse,
        imgs !! j = Some y /\
        StrategyB.searchFacesByImage env j = Fulfilled searchResponse /\
        inherited (StrategyB.matchedTag y searchResponse) = true) /\
     ((forall j, j < length imgs ->
         exists e, StrategyB.searchFacesByImage env j = Rejected e) ->
      run.1 = Fulfilled tt) /\
     (forall j y e,
        imgs !! j = Some y ->
        StrategyB.searchFacesByImage env j = Rejected e ->
        (forall w0,
           (StrategyB.imageTask env (StrategyB.eventId env) (j, y) w0).1
           = Fulfilled {| StrategyB.result_key := key y;
                          StrategyB.groupId := StrategyB.mint env j |}) /\
        IndexFacesCommand (StrategyB.eventId env) (StrategyB.S3_BUCKET_NAME env) (key y)
          (StrategyB.mint env j) ∈ StrategyB.issued run.2 /\
        (run.1 = Fulfilled tt ->
         (forall i z, i < j -> imgs !! i = Some z -> key z <> key y) ->
         exists bucket,
           StrategyB.faceGroups run.2 !! StrategyB.mint env j = Some bucket /\
           y ∈ bucket)) /\
     (run.1 = Fulfilled tt ->
      forall x, x ∈ imgs ->
        exists j y bucket,
          imgs !! j = Some y /\ key y = key x /\
          (forall i z, i < j -> imgs !! i = Some z -> key z <> key x) /\
          StrategyB.faceGroups run.2 !! StrategyB.groupIdOf env j y = Some bucket /\
          x ∈ bucket)).
Proof.
  split.
  - intros env imgs w run records.
    destruct (A_lookup_faceGroups env imgs w "") as [Htemp _].
    fold run in Htemp. fold records in Htemp.
    set (final := StrategyA.resolvedOf env records).
    assert (forall gid,
              StrategyA.faceGroups run.2 !! gid =
              match filter (fun fr => StrategyA.gidOf final.1 fr = gid) records with
              | [] => None
              | bucket => Some bucket
              end) as Hlookup.
    { intros gid. destruct (A_lookup_faceGroups env imgs w gid) as [_ Hl].
      fold run in Hl. rewrite <- Htemp in Hl. exact Hl. }
    assert (forall fr gid, fr ∈ records -> final.1 !! StrategyA.faceId fr = Some gid ->
              exists bucket, StrategyA.faceGroups run.2 !! gid = Some bucket /\
                             fr ∈ bucket) as Hpublished.
    { intros fr gid Hfr Hgid.
      assert (fr ∈ filter (fun fr' => StrategyA.gidOf final.1 fr' = gid) records) as Hin.
      { apply list_elem_of_filter. split; [|exact Hfr].
        unfold StrategyA.gidOf. rewrite Hgid. reflexivity. }
      eexists. split; [|exact Hin]. rewrite Hlookup.
      destruct (filter _ records); [inversion Hin|reflexivity]. }
    split; [subst run; rewrite A_detectAndGroupFaces_run; reflexivity|].
    split; [apply A_degraded_run|].
    split; [rewrite Htemp; apply A_tempFaceRecords_perm|].
    split.
    + intros fr Hfr.
      destruct (A_all_resolved env records fr Hfr) as [gid Hgid]. fold final in Hgid.
      destruct (A_numbered_fold env (completed (StrategyA.searchLatency env) records)
                  (∅, 0)) as [Hcount Hnum].
      { intros id g. simpl. rewrite lookup_empty. discriminate. }
      rewrite A_length_completed in Hcount.
      destruct (Hnum _ _ Hgid) as (k & Hk & ->).
      destruct (Hpublished fr _ Hfr Hgid) as (bucket & Hbucket & Hin).
      exists k, bucket. split; [simpl in *; lia|]. auto.
    + intros done j fr rest e Hdone Hsearch.
      set (st := fold_left (StrategyA.searchStep env) done (∅, 0)).
      assert (StrategyA.searchStep env st (j, fr)
              = (<[StrategyA.faceId fr := "group_" +:+ pretty (S st.2)]> st.1, S st.2))
        as Hstep.
      { unfold StrategyA.searchStep. simpl. rewrite Hsearch. reflexivity. }
      exists st. split; [intros w0; apply A_search_callbacks|].
      split; [intros w0; rewrite A_searchTask_run, Hstep; reflexivity|].
      split; [apply A_fresh_id|].
      intros Hrest.
      assert (fr ∈ records) as Hfr.
      { assert ((j, fr) ∈ completed (StrategyA.searchLatency env) records) as Hc
          by (rewrite Hdone; apply elem_of_app; right; left).
        rewrite completed_perm in Hc.
        apply elem_of_lookup_imap_1 in Hc as (i & fr' & [= -> ->] & Hi).
        eapply list_elem_of_lookup_2, Hi. }
      apply (Hpublished fr _ Hfr).
      unfold final, StrategyA.resolvedOf. rewrite Hdone, fold_left_app.
      cbn [fold_left]. fold st. rewrite Hstep.
      rewrite A_fold_untouched by exact Hrest. apply lookup_insert_eq.
  - intros env imgs w run.
    assert (forall x, x ∈ imgs ->
              exists j y,
                imgs !! j = Some y /\ key y = key x /\
                (forall i z, i < j -> imgs !! i = Some z -> key z <> key x) /\
                StrategyB.gidOf (StrategyB.resultsOf env imgs) x
                = StrategyB.groupIdOf env j y) as Hfiled.
    { intros x Hx. destruct (first_with_key imgs x Hx) as (j & y & Hy & Hkey & Hfirst).
      exists j, y. repeat (split; [assumption|]).
      apply B_gidOf_first; assumption. }
    assert (forall j e, StrategyB.searchFacesByImage env j = Rejected e ->
              forall y, StrategyB.groupIdOf env j y = StrategyB.mint env j) as Hmint.
    { intros j e Hsearch y. unfold StrategyB.groupIdOf. rewrite Hsearch. reflexivity. }
    pose proof (B_detectAndGroupFaces_run env imgs w) as Hrun. fold run in Hrun.
    split; [apply B_degraded_run|].
    destruct (StrategyB.throwsOn (StrategyB.resultsOf env imgs) imgs) eqn:Hthrows.
    + destruct (B_throw_cause env imgs Hthrows) as (j0 & y0 & resp & Hy0 & Hs0 & Hi0).
      split; [right; rewrite Hrun; split; [reflexivity|eauto 6]|].
      split.
      { intros Hall.
        destruct (Hall j0 (lookup_lt_Some _ _ _ Hy0)) as [e He]. congruence. }
      split.
      { intros j y e Hy Hsearch.
        split; [intros w0; rewrite B_imageTask_run; cbn [fst snd];
                rewrite (Hmint j e Hsearch); reflexivity|].
        split; [rewrite <- (Hmint j e Hsearch y); apply B_index_sent, Hy|].
        rewrite Hrun. intros Hok. discriminate Hok. }
      rewrite Hrun. intros Hok. discriminate Hok.
    + assert (StrategyB.faceGroups run.2
              = StrategyB.groupsOf imgs (StrategyB.resultsOf env imgs)) as Hgroups
        by (rewrite Hrun; reflexivity).
      split; [left; rewrite Hrun; reflexivity|].
      split; [intros _; rewrite Hrun; reflexivity|].
      split.
      { intros j y e Hy Hsearch.
        split; [intros w0; rewrite B_imageTask_run; cbn [fst snd];
                rewrite (Hmint j e Hsearch); reflexivity|].
        split; [rewrite <- (Hmint j e Hsearch y); apply B_index_sent, Hy|].
        intros _ Hfirst. rewrite Hgroups, <- (Hmint j e Hsearch y).
        rewrite <- (B_gidOf_first env imgs j y y Hy eq_refl Hfirst).
        apply B_bucket_of. eapply list_elem_of_lookup_2, Hy. }
      intros _ x Hx. destruct (Hfiled x Hx) as (j & y & Hy & Hkey & Hfirst & Hgid).
      destruct (B_bucket_of imgs (StrategyB.resultsOf env imgs) x Hx)
        as (bucket & Hbucket & Hin).
      exists j, y, bucket. repeat (split; [assumption|]).
      rewrite Hgroups, <- Hgid. auto.
Qed.

(** With every search failing, the second of three faces gets the second
    group of its own; and the one photo of strategy B is filed under its
    minted id. *)
Lemma recognition_failures_never_abort_the_pass_witness :
  (let run := StrategyA.detectAndGroupFaces
                (Examples.trioA (fun _ => None)) Examples.trio StrategyA.initial in
   exists bucket,
     StrategyA.faceGroups run.2 !! "group_2" = Some bucket /\
     {| StrategyA.faceId := "face-1";
        StrategyA.image := Examples.photo 1 "b.jpg" |} ∈ bucket) /\
  (let run := StrategyB.detectAndGroupFaces
                MoreExamples.failingSearchB [Examples.photoA] StrategyB.initial in
   run.1 = Fulfilled tt /\
   exists bucket,
     StrategyB.faceGroups run.2 !! "group_1700000000000_k3x9qz" = Some bucket /\
     Examples.photoA ∈ bucket).
Proof.
  destruct recognition_failures_never_abort_the_pass as [HA HB]. split.
  - destruct (HA (Examples.trioA (fun _ => None)) Examples.trio StrategyA.initial)
      as (_ & _ & _ & _ & Hfail).
    destruct (Hfail
                [(0, {| StrategyA.faceId := "face-0";
                        StrategyA.image := Examples.photo 0 "a.jpg" |})]
                1
                {| StrategyA.faceId := "face-1";
                   StrategyA.image := Examples.photo 1 "b.jpg" |}
                [(2, {| StrategyA.faceId := "face-2";
                        StrategyA.image := Examples.photo 2 "c.jpg" |})]
                Examples.failure)
      as (st & Hcallbacks & _ & _ & Hpublished).
    + vm_compute. reflexivity.
    + reflexivity.
    + specialize (Hcallbacks StrategyA.initial). vm_compute in Hcallbacks.
      injection Hcallbacks as Hst. subst st.
      apply Hpublished. intros item Hitem.
      apply list_elem_of_singleton in Hitem. subst item. discriminate.
  - destruct (HB MoreExamples.failingSearchB [Examples.photoA] StrategyB.initial)
      as (_ & _ & Hcompletes & Hfailed & _).
    assert (forall j, j < length [Examples.photoA] ->
              exists e, StrategyB.searchFacesByImage MoreExamples.failingSearchB j
                        = Rejected e) as Hall
      by (intros j _; exists Examples.failure; reflexivity).
    split; [exact (Hcompletes Hall)|].
    destruct (Hfailed 0 Examples.photoA Examples.failure eq_refl eq_refl)
      as (_ & _ & Hbucket).
    apply (Hbucket (Hcompletes Hall)). intros i z Hi. lia.
Defined.

(** ** The load and the listings that fail *)

(** C6. A load always ends normally and clears the loading flag.

    When the listings returned no image from any prefix, nothing but the
    listing commands was sent, the images and the groups stay as they
    were, and the error of the load is the message of the last listing
    that failed, or, with none failed, that no images were found.

    As soon as one image was listed, the listed images become the images,
    in order, and the grouping pass runs on them, whichever listings
    failed: the world after the load is the world after that pass with
    the error set from the outcome of the pass alone and the loading flag
    cleared, the recognition commands of the pass having been sent after
    the listing commands.  In strategy A the pass ends normally, the
    error is [null], and every face record is published in a group.  In
    strategy B the error is [null] when the pass completes, and every
    image is then published in a group; the pass can only end with the
    [TypeError] of the loop that files the images, because of a tag that
    a search has answered with, and the error is then its message, the
    groups staying as they were. *)
Theorem listing_error_surfaces_only_without_images :
  (forall (env : StrategyA.Env) prefixes w,
     let positions := seq 0 (length prefixes) in
     let listing := ListObjectsV2Command (StrategyA.S3_BUCKET_NAME env) <$> prefixes in
     let w' := (StrategyA.fetchEventImagesFrom env prefixes w).2 in
     (StrategyA.fetchEventImagesFrom env prefixes w).1 = Fulfilled tt /\
     StrategyA.loading w' = false /\
     match listedKeys (StrategyA.listObjects env) positions with
     | [] =>
         StrategyA.images w' = StrategyA.images w /\
         StrategyA.faceGroups w' = StrategyA.faceGroups w /\
         StrategyA.allFaceRecords w' = StrategyA.allFaceRecords w /\
         StrategyA.issued w' = StrategyA.issued w ++ listing /\
         StrategyA.error w' =
           Some match lastListError (StrategyA.listObjects env) positions with
                | Some e => message e
                | None => "No images found for this event."
                end
     | keys =>
         key <$> StrategyA.images w' = keys /\
         StrategyA.error w' = None /\
         (exists w1,
            StrategyA.images w1 = StrategyA.images w' /\
            StrategyA.issued w1 = StrategyA.issued w ++ listing /\
            let pass := StrategyA.detectAndGroupFaces env (StrategyA.images w') w1 in
            pass.1 = Fulfilled tt /\
            w' = StrategyA.with_loading false (StrategyA.with_error None pass.2)) /\
         StrategyA.issued w' =
           StrategyA.issued w ++ listing
           ++ StrategyA.ensureCommands (StrategyA.listCollections env)
                (StrategyA.eventId env)
           ++ (StrategyA.indexCommand env (StrategyA.eventId env)
                 <$> StrategyA.images w')
           ++ (StrategyA.searchCommand (StrategyA.eventId env)
                 <$> StrategyA.allFaceRecords w') /\
         StrategyA.allFaceRecords w' ≡ₚ
           imap pair (StrategyA.images w') ≫=
             (fun item => match StrategyA.indexFaces env item.1 with
                          | Fulfilled indexResponse =>
                              StrategyA.recordsOf item.2 indexResponse
                          | Rejected _ => []
                          end) /\
         (forall fr, fr ∈ StrategyA.allFaceRecords w' ->
            exists gid bucket,
              StrategyA.faceGroups w' !! gid = Some bucket /\ fr ∈ bucket)
     end) /\
  (forall (env : StrategyB.Env) prefixes w,
     let positions := seq 0 (length prefixes) in
     let listing := ListObjectsV2Command (StrategyB.S3_BUCKET_NAME env) <$> prefixes in
     let w' := (StrategyB.fetchEventImagesFrom env prefixes w).2 in
     (StrategyB.fetchEventImagesFrom env prefixes w).1 = Fulfilled tt /\
     StrategyB.loading w' = false /\
     match listedKeys (StrategyB.listObjects env) positions with
     | [] =>
         StrategyB.images w' = StrategyB.images w /\
         StrategyB.faceGroups w' = StrategyB.faceGroups w /\
         StrategyB.issued w' = StrategyB.issued w ++ listing /\
         StrategyB.error w' =
           Some match lastListError (StrategyB.listObjects env) positions with
                | Some e => message e
                | None => "No images found for this event."
                end
     | keys =>
         key <$> StrategyB.images w' = keys /\
         exists w1,
           StrategyB.images w1 = StrategyB.images w' /\
           StrategyB.issued w1 = StrategyB.issued w ++ listing /\
           let pass := StrategyB.detectAndGroupFaces env (StrategyB.images w') w1 in
           w' = StrategyB.with_loading false
                  (StrategyB.with_error
                     match pass.1 with
                     | Fulfilled _ => None
                     | Rejected e => Some (message e)
                     end pass.2) /\
           (exists sent,
              StrategyB.issued w' =
                StrategyB.issued w ++ listing
                ++ StrategyB.ensureCommands (StrategyB.listCollections env)
                     (StrategyB.eventId env)
                ++ sent /\
              sent ≡ₚ StrategyB.passCommands env (StrategyB.eventId env)
                        (StrategyB.images w')) /\
           (pass.1 = Fulfilled tt /\
            StrategyB.error w' = None /\
            (forall x, x ∈ StrategyB.images w' ->
               exists gid bucket,
                 StrategyB.faceGroups w' !! gid = Some bucket /\ x ∈ bucket)
            \/
            pass.1 = Rejected StrategyB.pushIsNotAFunction /\
            StrategyB.error w' = Some "groups[gid].push is not a function" /\
            StrategyB.faceGroups w' = StrategyB.faceGroups w /\
            exists j y searchResponse,
              StrategyB.images w' !! j = Some y /\
              StrategyB.searchFacesByImage env j = Fulfilled searchResponse /\
              inherited (StrategyB.matchedTag y searchResponse) = true)
     end).
Proof.
  split; intros env prefixes w positions listing w'; subst positions listing w'.
  - destruct (A_fetch_run env prefixes w) as (allImages & Hkeys & _ & _ & Hrun).
    rewrite Hrun, <- Hkeys. cbn [fst snd].
    split; [reflexivity|]. split; [reflexivity|].
    destruct allImages as [|x l]; [cbn [fmap list_fmap]|].
    { repeat (split; [reflexivity|]). reflexivity. }
    set (imgs := x :: l).
    change (key <$> imgs) with (key x :: (key <$> l)). cbv iota beta zeta.
    set (w1 := StrategyA.with_images (fun _ => imgs)
                 (StrategyA.alloc (length imgs)
                    (StrategyA.with_issued
                       (ListObjectsV2Command (StrategyA.S3_BUCKET_NAME env) <$> prefixes)
                       w)).2).
    pose proof (A_detectAndGroupFaces_run env imgs w1) as Hpass. cbv zeta in Hpass.
    destruct (A_lookup_faceGroups env imgs w1 "") as [Htemp _].
    assert (StrategyA.images
              (StrategyA.with_loading false
                 (StrategyA.with_error None
                    (StrategyA.detectAndGroupFaces env imgs w1).2)) = imgs) as Himages
      by (rewrite Hpass; reflexivity).
    rewrite Himages.
    split; [reflexivity|]. split; [reflexivity|].
    split.
    { exists w1. split; [reflexivity|]. split; [reflexivity|].
      split; [rewrite Hpass; reflexivity|reflexivity]. }
    split.
    { rewrite Hpass. cbn. rewrite <- !app_assoc. reflexivity. }
    split.
    { change (StrategyA.allFaceRecords
                (StrategyA.with_loading false (StrategyA.with_error None ?w2)))
        with (StrategyA.allFaceRecords w2).
      rewrite Htemp. apply A_tempFaceRecords_perm. }
    intros fr Hfr.
    change (StrategyA.allFaceRecords
              (StrategyA.with_loading false (StrategyA.with_error None ?w2)))
      with (StrategyA.allFaceRecords w2) in Hfr.
    change (StrategyA.faceGroups
              (StrategyA.with_loading false (StrategyA.with_error None ?w2)))
      with (StrategyA.faceGroups w2).
    rewrite Htemp in Hfr.
    destruct (A_all_resolved env _ fr Hfr) as [gid Hgid].
    destruct (A_lookup_faceGroups env imgs w1 gid) as [_ Hl].
    exists gid.
    assert (fr ∈ filter (fun fr' => StrategyA.gidOf
                           (StrategyA.resolvedOf env
                              (StrategyA.tempFaceRecordsOf env imgs)).1 fr' = gid)
                   (StrategyA.tempFaceRecordsOf env imgs)) as Hin.
    { apply list_elem_of_filter. split; [|exact Hfr].
      unfold StrategyA.gidOf. rewrite Hgid. reflexivity. }
    eexists. split; [|exact Hin]. cbv zeta in Hl. rewrite Hl.
    destruct (filter _ _); [inversion Hin|reflexivity].
  - destruct (B_fetch_run env prefixes w) as (allImages & Hkeys & _ & _ & Hrun).
    rewrite Hrun, <- Hkeys. cbn [fst snd].
    split; [reflexivity|]. split; [reflexivity|].
    destruct allImages as [|x l]; [cbn [fmap list_fmap]|].
    { repeat (split; [reflexivity|]). reflexivity. }
    set (imgs := x :: l).
    change (key <$> imgs) with (key x :: (key <$> l)). cbv iota beta zeta.
    set (w1 := StrategyB.with_images (fun _ => imgs)
                 (StrategyB.alloc (length imgs)
                    (StrategyB.with_issued
                       (ListObjectsV2Command (StrategyB.S3_BUCKET_NAME env) <$> prefixes)
                       w)).2).
    pose proof (B_detectAndGroupFaces_run env imgs w1) as Hpass.
    destruct (StrategyB.throwsOn (StrategyB.resultsOf env imgs) imgs) eqn:Hthrows.
    + rewrite Hpass. cbn [fst snd].
      split; [reflexivity|].
      exists w1. split; [reflexivity|]. split; [reflexivity|].
      change (StrategyB.images (StrategyB.with_loading false _)) with imgs.
      rewrite Hpass. cbn [fst snd].
      split; [reflexivity|].
      split.
      { eexists. split; [|reflexivity]. cbn. rewrite <- !app_assoc. reflexivity. }
      right. split; [reflexivity|]. split; [reflexivity|]. split; [reflexivity|].
      apply B_throw_cause, Hthrows.
    + rewrite Hpass. cbn [fst snd].
      split; [reflexivity|].
      exists w1. split; [reflexivity|]. split; [reflexivity|].
      change (StrategyB.images (StrategyB.with_loading false _)) with imgs.
      rewrite Hpass. cbn [fst snd].
      split; [reflexivity|].
      split.
      { eexists. split; [|reflexivity]. cbn. rewrite <- !app_assoc. reflexivity. }
      left. split; [reflexivity|]. split; [reflexivity|].
      intros y Hy.
      destruct (B_bucket_of imgs (StrategyB.resultsOf env imgs) y Hy)
        as (bucket & Hbucket & Hin).
      exists (StrategyB.gidOf (StrategyB.resultsOf env imgs) y), bucket.
      split; [exact Hbucket|exact Hin].
Qed.

(** A load whose one listed photo is matched to a face that was indexed
    under the tag [constructor]: the photo is shown, the error is the
    message of the [TypeError], and no group is published. *)
Lemma listing_error_surfaces_only_without_images_witness :
  let w' := (StrategyB.fetchEventImagesFrom MoreExamples.inheritedTagB
               ["events/shared/party/images"] StrategyB.initial).2 in
  key <$> StrategyB.images w' = [Examples.keyA] /\
  StrategyB.error w' = Some "groups[gid].push is not a function" /\
  StrategyB.faceGroups w' = ∅.
Proof.
  destruct listing_error_surfaces_only_without_images as [_ HB].
  pose proof (HB MoreExamples.inheritedTagB ["events/shared/party/images"]
                StrategyB.initial) as H.
  cbv zeta in H. destruct H as (_ & _ & H).
  change (listedKeys (StrategyB.listObjects MoreExamples.inheritedTagB)
            (seq 0 (length ["events/shared/party/images"])))
    with [Examples.keyA] in H.
  cbv iota in H.
  destruct H as (Hkeys & w1 & _ & _ & _ & _
                 & [(Hok & _)|(_ & Herror & Hgroups & _)]).
  - rewrite B_detectAndGroupFaces_run in Hok.
    assert (StrategyB.throwsOn
              (StrategyB.resultsOf MoreExamples.inheritedTagB
                 (StrategyB.images
                    (StrategyB.fetchEventImagesFrom MoreExamples.inheritedTagB
                       ["events/shared/party/images"] StrategyB.initial).2))
              (StrategyB.images
                 (StrategyB.fetchEventImagesFrom MoreExamples.inheritedTagB
                    ["events/shared/party/images"] StrategyB.initial).2) = true)
      as Hthrows by (vm_compute; reflexivity).
    rewrite Hthrows in Hok. discriminate Hok.
  - split; [exact Hkeys|]. split; [exact Herror|exact Hgroups].
Defined.

(** The pass over one photo that is matched to a face indexed under the
    tag [constructor] ends with the [TypeError]; the photo has been
    indexed under that tag all the same. *)
Lemma B_first_occurrence_decides_the_group_witness :
  let run := StrategyB.detectAndGroupFaces MoreExamples.inheritedTagB
               [Examples.photoA] StrategyB.initial in
  run.1 = Rejected StrategyB.pushIsNotAFunction /\
  StrategyB.faceGroups run.2 = ∅ /\
  IndexFacesCommand "party" "bucket" Examples.keyA "constructor"
  ∈ StrategyB.issued run.2.
Proof.
  destruct (B_first_occurrence_decides_the_group MoreExamples.inheritedTagB
              [Examples.photoA] StrategyB.initial) as (_ & Hthrows & _ & Hindexed).
  destruct Hthrows as [Hrejected Hgroups].
  - intros Hcompletes.
    specialize (Hcompletes 0 Examples.photoA eq_refl).
    assert (inherited
              (StrategyB.groupIdOf MoreExamples.inheritedTagB 0 Examples.photoA) = true)
      as Hinherited by (vm_compute; reflexivity).
    rewrite Hcompletes in Hinherited; [discriminate|].
    intros i z Hi. lia.
  - split; [exact Hrejected|]. split; [exact Hgroups|].
    exact (Hindexed 0 Examples.photoA eq_refl).
Defined.

(** ** The image set and the groups after a delete *)

(** C3, as the code has it.  Up to the storage call the handler changes
    neither the image set nor the groups.  When the storage delete has
    succeeded, the images with the key of the deleted image leave the
    image set and the member list of every group in the one step that
    follows the answer, the other images and members staying in order.
    Strategy A removes from the partition every group whose member list
    has become empty, so that no group is left without a member; strategy
    B keeps every group, one with an empty member list included.  When
    the storage delete has failed, the image set and the groups are as
    they were. *)
Theorem delete_filters_the_set_and_the_groups :
  (forall (env : StrategyA.Env) image w,
     let asked := (StrategyA.handleDelete_request env image w).2 in
     let w' := (StrategyA.handleDelete env image w).2 in
     let others recs := filter (fun fr => key (StrategyA.image fr) ≠ key image) recs in
     StrategyA.images asked = StrategyA.images w /\
     StrategyA.faceGroups asked = StrategyA.faceGroups w /\
     StrategyA.handleDelete env image w
     = StrategyA.handleDelete_settled image (StrategyA.deleteObject env) asked /\
     match StrategyA.deleteObject env with
     | Fulfilled _ =>
         StrategyA.images w'
         = filter (fun img => key img ≠ key image) (StrategyA.images w) /\
         (forall x, x ∈ StrategyA.images w' <->
                    x ∈ StrategyA.images w /\ key x ≠ key image) /\
         (forall gid,
            StrategyA.faceGroups w' !! gid =
            match StrategyA.faceGroups w !! gid with
            | Some recs => match others recs with
                           | [] => None
                           | _ :: _ => Some (others recs)
                           end
            | None => None
            end) /\
         (forall gid bucket,
            StrategyA.faceGroups w' !! gid = Some bucket ->
            bucket <> [] /\
            forall fr, fr ∈ bucket -> key (StrategyA.image fr) ≠ key image)
     | Rejected _ =>
         StrategyA.images w' = StrategyA.images w /\
         StrategyA.faceGroups w' = StrategyA.faceGroups w
     end) /\
  (forall (env : StrategyB.Env) image w,
     let asked := (StrategyB.handleDelete_request env image w).2 in
     let w' := (StrategyB.handleDelete env image w).2 in
     let others imgs := filter (fun img => key img ≠ key image) imgs in
     StrategyB.images asked = StrategyB.images w /\
     StrategyB.faceGroups asked = StrategyB.faceGroups w /\
     StrategyB.handleDelete env image w
     = StrategyB.handleDelete_settled image (StrategyB.deleteObject env) asked /\
     match StrategyB.deleteObject env with
     | Fulfilled _ =>
         StrategyB.images w' = others (StrategyB.images w) /\
         (forall x, x ∈ StrategyB.images w' <->
                    x ∈ StrategyB.images w /\ key x ≠ key image) /\
         (forall gid,
            StrategyB.faceGroups w' !! gid
            = others <$> StrategyB.faceGroups w !! gid) /\
         (forall gid bucket,
            StrategyB.faceGroups w' !! gid = Some bucket ->
            forall x, x ∈ bucket -> key x ≠ key image) /\
         (forall gid members,
            StrategyB.faceGroups w !! gid = Some members ->
            (forall x, x ∈ members -> key x = key image) ->
            StrategyB.faceGroups w' !! gid = Some [])
     | Rejected _ =>
         StrategyB.images w' = StrategyB.images w /\
         StrategyB.faceGroups w' = StrategyB.faceGroups w
     end).
Proof.
  split; intros env image w asked w' others; subst asked w'.
  - split; [reflexivity|]. split; [reflexivity|].
    split; [apply A_handleDelete_split|].
    rewrite A_handleDelete_split, A_handleDelete_settled_run.
    destruct (StrategyA.deleteObject env) as [[]|e]; [|split; reflexivity].
    cbn [snd StrategyA.images StrategyA.faceGroups StrategyA.with_deleting
         StrategyA.with_allFaceRecords StrategyA.with_faceGroups StrategyA.with_images].
    change (StrategyA.images (StrategyA.handleDelete_request env image w).2)
      with (StrategyA.images w).
    change (StrategyA.faceGroups (StrategyA.handleDelete_request env image w).2)
      with (StrategyA.faceGroups w).
    assert (forall gid,
              StrategyA.removeFromGroups (key image) (StrategyA.faceGroups w) !! gid =
              match StrategyA.faceGroups w !! gid with
              | Some recs => match others recs with
                             | [] => None
                             | _ :: _ => Some (others recs)
                             end
              | None => None
              end) as Hlookup.
    { intros gid. rewrite A_lookup_removeFromGroups.
      destruct (StrategyA.faceGroups w !! gid) as [recs|]; [|reflexivity].
      simpl. fold (others recs). destruct (others recs); reflexivity. }
    split; [reflexivity|].
    split; [intros x; rewrite list_elem_of_filter; tauto|].
    split; [exact Hlookup|].
    intros gid bucket. rewrite Hlookup.
    destruct (StrategyA.faceGroups w !! gid) as [recs|]; [|discriminate].
    destruct (others recs) as [|fr l] eqn:Hothers; [discriminate|].
    intros [= <-]. split; [discriminate|].
    intros fr' Hfr'. rewrite <- Hothers in Hfr'.
    apply list_elem_of_filter in Hfr' as [Hkey _]. exact Hkey.
  - split; [reflexivity|]. split; [reflexivity|].
    split; [apply B_handleDelete_split|].
    rewrite B_handleDelete_split, B_handleDelete_settled_run.
    destruct (StrategyB.deleteObject env) as [[]|e]; [|split; reflexivity].
    cbn [snd StrategyB.images StrategyB.faceGroups StrategyB.with_deleting
         StrategyB.with_faceGroups StrategyB.with_images].
    change (StrategyB.images (StrategyB.handleDelete_request env image w).2)
      with (StrategyB.images w).
    change (StrategyB.faceGroups (StrategyB.handleDelete_request env image w).2)
      with (StrategyB.faceGroups w).
    split; [reflexivity|].
    split; [intros x; rewrite list_elem_of_filter; tauto|].
    split; [intros gid; apply B_lookup_removeFromGroups|].
    split.
    + intros gid bucket. rewrite B_lookup_removeFromGroups.
      destruct (StrategyB.faceGroups w !! gid) as [members|]; [|discriminate].
      intros [= <-] x Hx. apply list_elem_of_filter in Hx as [Hkey _]. exact Hkey.
    + intros gid members Hmembers Hall.
      rewrite B_lookup_removeFromGroups, Hmembers. simpl. f_equal.
      clear Hmembers. induction members as [|y l IH]; [reflexivity|].
      rewrite filter_cons_False.
      * apply IH. intros x Hx. apply Hall. right. exact Hx.
      * intros Hne. apply Hne. apply Hall. left.
Qed.
